(** * Lo-fi step sequencer: the scheduling and synthesis engine

    A shallow embedding of [src/audio/Scheduler.js], [src/audio/AudioEngine.js]
    and [src/audio/SoundGenerator.js], and the properties of the lookahead
    scheduler, the engine facade and the voice functions; then of
    [src/utils/constants.js] and of the handlers of [src/App.jsx], and the
    properties of the patterns and of the component that drives the engine.

    Conventions of the embedding.
    - JavaScript numbers.  Where a property is about the control of the
      program (what a method changes and what it leaves alone, which calls it
      makes and in which order, whether it raises) times and tempi are exact
      rationals ([Q]), in [Scheduler] and [AudioEngine]: what is proved there
      does not rest on the value a sum is rounded to; what runs the scheduling
      loop is stated there for a positive tempo, a division by zero having no
      [Infinity] to return.  Where a property is about the values themselves
      (how long a sixteenth note lasts, which notes a pass finds due) the
      numbers are the binary64 values of the code, rounded as IEEE 754 says:
      that is [Scheduler64].  Step indices and pattern flags are integers
      ([Z]); [%] is the truncating remainder [Z.rem].
    - A method is a function from the store it can touch to a [result]: normal
      completion with the new store, an exception together with the store as
      it was left when the exception was raised, or [Spin] when a loop was cut
      off before it finished.
    - [audioContext.currentTime] is supplied by the environment: every entry
      point that reads the clock takes the reading [now] as an argument, and
      the reading is the same throughout one call.
    - In [AudioEngine], [async init()] is run to completion in one piece.  In
      [App], whose handlers run while [initAudio] awaits, the call is in two
      pieces: up to [await this.context.resume()], and from there on once the
      promise has settled, with the events handled in between.
    - The host is the browser: timers ([setInterval]), and the audio API as a
      list of the requests made of it.  A voice function also writes down that
      it was invoked, which is what a test spy on it would record. *)

From Stdlib Require Import ZArith QArith Qround Qabs Lqa Lia List Bool Sorted.
From Stdlib Require String PrimFloat FloatOps SpecFloat Uint63.
Import ListNotations.

Set Implicit Arguments.

(* ------------------------------------------------------------------------- *)
(** ** Results of JavaScript code *)
(* ------------------------------------------------------------------------- *)

(** The exceptions the modelled code can meet. *)
Inductive exn : Type :=
| TypeError   (* property read on null/undefined, [new] on a non-constructor,
                 a host method handed null where an object is required *)
| Rejected    (* an awaited promise was rejected by the host *)
| Unsettled.  (* an awaited promise never settles: the rest of the async body
                 never runs, and its caller never hears of it *)

Inductive result (S A : Type) : Type :=
| Done (a : A) (s : S)
| Raise (e : exn) (s : S)
| Spin.

Arguments Done {S A} a s.
Arguments Raise {S A} e s.
Arguments Spin {S A}.

Definition M (S A : Type) : Type := S -> result S A.

Definition ret {S A} (a : A) : M S A := fun s => Done a s.

Definition bind {S A B} (c : M S A) (k : A -> M S B) : M S B :=
  fun s =>
    match c s with
    | Done a s' => k a s'
    | Raise e s' => Raise e s'
    | Spin => Spin
    end.

Definition throw {S A} (e : exn) : M S A := fun s => Raise e s.
Definition gets {S A} (f : S -> A) : M S A := fun s => Done (f s) s.
Definition modify {S} (f : S -> S) : M S unit := fun s => Done tt (f s).
Definition skip {S} : M S unit := ret tt.

Declare Scope js_scope.
Delimit Scope js_scope with js.
Notation "x <- c1 ;; c2" := (bind c1 (fun x => c2))
  (at level 61, c1 at next level, right associativity) : js_scope.
Notation "c1 ;; c2" := (bind c1 (fun _ => c2))
  (at level 61, right associativity) : js_scope.

(** Running a computation on a part of the store: [zoom] runs [c] on the
    component read by [proj] and writes the outcome back with [inj]. *)
Definition zoom {S T A} (proj : S -> T) (inj : T -> S -> S) (c : M T A) : M S A :=
  fun s =>
    match c (proj s) with
    | Done a t => Done a (inj t s)
    | Raise e t => Raise e (inj t s)
    | Spin => Spin
    end.

(** [Array.prototype.forEach], and more generally one computation per element
    of a list, in order. *)
Fixpoint forEach {S A} (l : list A) (body : A -> M S unit) : M S unit :=
  match l with
  | [] => skip
  | x :: rest => bind (body x) (fun _ => forEach rest body)
  end.

(** The store a result carries, if any. *)
Definition store_of {S A} (r : result S A) : option S :=
  match r with
  | Done _ s => Some s
  | Raise _ s => Some s
  | Spin => None
  end.

Definition completes {S A} (r : result S A) : bool :=
  match r with Done _ _ => true | _ => false end.

(* ------------------------------------------------------------------------- *)
(** ** Host timers: [setInterval] / [clearInterval] *)
(* ------------------------------------------------------------------------- *)

(** A timer handle is a positive integer (the platform hands out integers
    greater than zero), so the test [if (this.timerID)] is a test for
    non-null. *)
Record Interval : Type := { handle : positive; delay : Q }.

Record Timers : Type := { active : list Interval; next_handle : positive }.

Definition no_timers : Timers := {| active := []; next_handle := 1%positive |}.

Definition setInterval (ms : Q) : M Timers positive :=
  fun tm =>
    Done (next_handle tm)
         {| active := {| handle := next_handle tm; delay := ms |} :: active tm;
            next_handle := Pos.succ (next_handle tm) |}.

Definition clearInterval (h : positive) : M Timers unit :=
  fun tm =>
    Done tt
         {| active := filter (fun i => negb (Pos.eqb (handle i) h)) (active tm);
            next_handle := next_handle tm |}.

Definition armed (h : positive) (tm : Timers) : bool :=
  existsb (fun i => Pos.eqb (handle i) h) (active tm).

(* ------------------------------------------------------------------------- *)
(** ** Scheduler.js *)
(* ------------------------------------------------------------------------- *)

(** The class with its times and tempi as exact rationals.  This module is
    for what the methods change and what they leave alone, which callbacks
    they invoke and in which order, the timer and the playing flag.  A time
    in it is the exact value of a sum or quotient that the code rounds: where
    a property depends on the rounding (what a sixteenth note lasts, how far
    [nextNoteTime] has got, which notes a pass finds due at the edge of the
    look-ahead window) it is stated of [Scheduler64] below, which embeds the
    functions that compute with times a second time, with the binary64
    numbers of the code. *)
Module Scheduler.

Open Scope Q_scope.

(** [calculateSixteenthNoteTime(bpm)]: [(60.0 / bpm) / 4]. *)
Definition calculateSixteenthNoteTime (bpm : Q) : Q := (60 / bpm) / 4.

(** The instance fields of a [Scheduler].  [audioContext], [onStep] and
    [onSchedule] are fixed at construction: they are the parameters of the
    section below. *)
Record Fields : Type := {
  tempo : Q;
  lookahead : Q;              (* how often to call scheduler (ms) *)
  scheduleAheadTime : Q;      (* how far ahead to schedule (seconds) *)
  isPlaying : bool;
  currentStep : Z;
  nextNoteTime : Q;
  timerID : option positive
}.

Definition set_tempo (v : Q) (f : Fields) : Fields :=
  {| tempo := v; lookahead := lookahead f;
     scheduleAheadTime := scheduleAheadTime f; isPlaying := isPlaying f;
     currentStep := currentStep f; nextNoteTime := nextNoteTime f;
     timerID := timerID f |}.

Definition set_isPlaying (v : bool) (f : Fields) : Fields :=
  {| tempo := tempo f; lookahead := lookahead f;
     scheduleAheadTime := scheduleAheadTime f; isPlaying := v;
     currentStep := currentStep f; nextNoteTime := nextNoteTime f;
     timerID := timerID f |}.

Definition set_currentStep (v : Z) (f : Fields) : Fields :=
  {| tempo := tempo f; lookahead := lookahead f;
     scheduleAheadTime := scheduleAheadTime f; isPlaying := isPlaying f;
     currentStep := v; nextNoteTime := nextNoteTime f;
     timerID := timerID f |}.

Definition set_nextNoteTime (v : Q) (f : Fields) : Fields :=
  {| tempo := tempo f; lookahead := lookahead f;
     scheduleAheadTime := scheduleAheadTime f; isPlaying := isPlaying f;
     currentStep := currentStep f; nextNoteTime := v;
     timerID := timerID f |}.

Definition set_timerID (v : option positive) (f : Fields) : Fields :=
  {| tempo := tempo f; lookahead := lookahead f;
     scheduleAheadTime := scheduleAheadTime f; isPlaying := isPlaying f;
     currentStep := currentStep f; nextNoteTime := nextNoteTime f;
     timerID := v |}.

(** [constructor({ audioContext, onStep, onSchedule, tempo = 85 })]. *)
Definition constructor (tempo_opt : option Q) : Fields :=
  {| tempo := match tempo_opt with Some t => t | None => 85 end;
     lookahead := 25;
     scheduleAheadTime := 0.1;
     isPlaying := false;
     currentStep := 0%Z;
     nextNoteTime := 0;
     timerID := None |}.

Section Methods.

(** What the two callbacks act on, and the callbacks themselves. *)
Variable W : Type.
Variable onStep : Z -> M W unit.
Variable onSchedule : Z -> Q -> M W unit.

(** The store a method of the scheduler can touch: its own fields, the
    host's timers, and whatever the callbacks act on. *)
Record Store : Type := { self : Fields; timers : Timers; world : W }.

Definition on_self (f : Fields -> Fields) : M Store unit :=
  modify (fun st => {| self := f (self st); timers := timers st; world := world st |}).

Definition in_world {A} (c : M W A) : M Store A :=
  zoom world (fun w st => {| self := self st; timers := timers st; world := w |}) c.

Definition in_timers {A} (c : M Timers A) : M Store A :=
  zoom timers (fun tm st => {| self := self st; timers := tm; world := world st |}) c.

Definition this {A} (f : Fields -> A) : M Store A := gets (fun st => f (self st)).

Open Scope js_scope.

(** [setTempo(newTempo)] *)
Definition setTempo (newTempo : Q) : M Store unit :=
  on_self (set_tempo newTempo).

(** [nextNote()] *)
Definition nextNote : M Store unit :=
  t <- this tempo ;;
  let secondsPerBeat := 60 / t in
  on_self (fun f => set_nextNoteTime (nextNoteTime f + secondsPerBeat / 4) f) ;;
  on_self (fun f => set_currentStep (Z.rem (currentStep f + 1) 16) f).

(** The [while] loop of [scheduler()], cut off after [fuel] tests of its
    condition; [now] is [this.audioContext.currentTime]. *)
Fixpoint scheduler_loop (fuel : nat) (now : Q) : M Store unit :=
  match fuel with
  | O => fun _ => Spin
  | S fuel' =>
      next <- this nextNoteTime ;;
      ahead <- this scheduleAheadTime ;;
      if Qlt_le_dec next (now + ahead) then
        (k <- this currentStep ;; in_world (onStep k)) ;;
        (k <- this currentStep ;;
         t <- this nextNoteTime ;;
         in_world (onSchedule k t)) ;;
        nextNote ;;
        scheduler_loop fuel' now
      else skip
  end.

(** A number of condition tests that is enough for the loop to leave when
    the tempo is positive: one per sixteenth note that fits between
    [nextNoteTime] and the horizon [now + scheduleAheadTime], and the last
    test that fails. *)
Definition pass_fuel (now : Q) (f : Fields) : nat :=
  S (Z.to_nat (Qceiling ((now + scheduleAheadTime f - nextNoteTime f)
                         / calculateSixteenthNoteTime (tempo f)))).

(** [scheduler()] *)
Definition scheduler (now : Q) : M Store unit :=
  fun st => scheduler_loop (pass_fuel now (self st)) now st.

(** [start()] *)
Definition start (now : Q) : M Store unit :=
  playing <- this isPlaying ;;
  if playing then skip
  else
    on_self (set_isPlaying true) ;;
    on_self (set_nextNoteTime now) ;;
    scheduler now ;;
    ms <- this lookahead ;;
    h <- in_timers (setInterval ms) ;;
    on_self (set_timerID (Some h)).

(** [stop()] *)
Definition stop : M Store unit :=
  on_self (set_isPlaying false) ;;
  id <- this timerID ;;
  match id with
  | Some h => in_timers (clearInterval h) ;; on_self (set_timerID None)
  | None => skip
  end.

(** [reset()] *)
Definition reset : M Store unit :=
  on_self (set_currentStep 0%Z).

(** [destroy()] *)
Definition destroy : M Store unit := stop.

(** The callback handed to [setInterval]: [() => this.scheduler()].  The
    host runs it for a timer that is still armed. *)
Definition tick (h : positive) (now : Q) : M Store unit :=
  tm <- gets timers ;;
  if armed h tm then scheduler now else skip.


(** *** Reachable stores

    The public surface of the class, as one type of calls, and the stores
    that a freshly constructed scheduler can be brought to by such calls
    (a call that raises leaves the store it had reached), while the rest of
    the program does what it likes to the timers and to the world of the
    callbacks. *)
Inductive Method : Type :=
| CallSetTempo (newTempo : Q)
| CallNextNote
| CallScheduler (now : Q)
| CallStart (now : Q)
| CallStop
| CallReset
| CallDestroy
| TimerFires (h : positive) (now : Q).

Definition call (m : Method) : M Store unit :=
  match m with
  | CallSetTempo t => setTempo t
  | CallNextNote => nextNote
  | CallScheduler now => scheduler now
  | CallStart now => start now
  | CallStop => stop
  | CallReset => reset
  | CallDestroy => destroy
  | TimerFires h now => tick h now
  end.

Inductive reachable : Store -> Prop :=
| reach_new (tempo_opt : option Q) (tm : Timers) (w : W) :
    reachable {| self := constructor tempo_opt; timers := tm; world := w |}
| reach_call (st st' : Store) (m : Method) :
    reachable st -> store_of (call m st) = Some st' -> reachable st'
| reach_env (st : Store) (tm : Timers) (w : W) :
    reachable st -> reachable {| self := self st; timers := tm; world := w |}.

End Methods.

(** *** What the callbacks are asked to do

    An invocation of one of the two callbacks, with its arguments. *)
Inductive Call : Type :=
| CallStep (k : Z)
| CallSchedule (k : Z) (t : Q).

(** The effect of [nextNote()] on the fields. *)
Definition advance (f : Fields) : Fields :=
  set_currentStep (Z.rem (currentStep f + 1) 16)
    (set_nextNoteTime (nextNoteTime f + 60 / tempo f / 4) f).

(** The invocations of [n] consecutive steps, the first one step [k] at time
    [t], each next one [d] seconds later and one step further, wrapping
    at 16. *)
Fixpoint due_calls (k : Z) (t d : Q) (n : nat) : list Call :=
  match n with
  | O => []
  | S n' => CallStep k :: CallSchedule k t :: due_calls (Z.rem (k + 1) 16) (t + d) d n'
  end.

(** What every method maintains of the fields. *)
Definition consistent (f : Fields) : Prop :=
  lookahead f = 25 /\
  scheduleAheadTime f = 0.1 /\
  (0 <= currentStep f < 16)%Z /\
  (isPlaying f = false -> timerID f = None).

(** What a scheduling pass leaves of the fields as they were. *)
Definition same_control (f f' : Fields) : Prop :=
  tempo f' = tempo f /\
  lookahead f' = lookahead f /\
  scheduleAheadTime f' = scheduleAheadTime f /\
  isPlaying f' = isPlaying f /\
  timerID f' = timerID f /\
  ((0 <= currentStep f < 16)%Z -> (0 <= currentStep f' < 16)%Z).

Section Observed.

(** Callbacks that return normally: they are given by their effect. *)
Variable W : Type.
Variable stepped : Z -> W -> W.
Variable scheduled : Z -> Q -> W -> W.

Definition perform (c : Call) (w : W) : W :=
  match c with
  | CallStep k => stepped k w
  | CallSchedule k t => scheduled k t w
  end.

Definition perform_all (cs : list Call) (w : W) : W :=
  fold_left (fun w c => perform c w) cs w.

Definition doStep (k : Z) : M W unit := modify (stepped k).
Definition doSchedule (k : Z) (t : Q) : M W unit := modify (scheduled k t).

(** The store after one round of the loop body, and after [n] rounds. *)
Definition round (st : Store W) : Store W :=
  {| self := advance (self st);
     timers := timers st;
     world := scheduled (currentStep (self st)) (nextNoteTime (self st))
                (stepped (currentStep (self st)) (world st)) |}.

Fixpoint rounds (n : nat) (st : Store W) : Store W :=
  match n with
  | O => st
  | S n' => rounds n' (round st)
  end.

End Observed.

Section Stores.

Variable W : Type.

Definition sixteenth (st : Store W) : Q :=
  calculateSixteenthNoteTime (tempo (self st)).

(** The store [start()] hands to its first pass. *)
Definition prepare (now : Q) (st : Store W) : Store W :=
  {| self := set_nextNoteTime now (set_isPlaying true (self st));
     timers := timers st; world := world st |}.

(** The store once [start()] has set the interval timer and kept its
    handle. *)
Definition arm (st : Store W) : Store W :=
  {| self := set_timerID (Some (next_handle (timers st))) (self st);
     timers := {| active := {| handle := next_handle (timers st);
                               delay := lookahead (self st) |} :: active (timers st);
                  next_handle := Pos.succ (next_handle (timers st)) |};
     world := world st |}.

(** Callbacks that return normally on the worlds that satisfy [ready] and
    keep the world in [ready]; there [stepped] and [scheduled] give their
    effect. *)
Definition step_effect (ready : W -> Prop) (onStep : Z -> M W unit)
    (stepped : Z -> W -> W) : Prop :=
  forall k w, ready w -> onStep k w = Done tt (stepped k w) /\ ready (stepped k w).

Definition schedule_effect (ready : W -> Prop) (onSchedule : Z -> Q -> M W unit)
    (scheduled : Z -> Q -> W -> W) : Prop :=
  forall k t w, ready w ->
    onSchedule k t w = Done tt (scheduled k t w) /\ ready (scheduled k t w).

End Stores.

(** Callbacks that only write down that they were invoked. *)
Definition logStep (k : Z) (log : list Call) : list Call := log ++ [CallStep k].
Definition logSchedule (k : Z) (t : Q) (log : list Call) : list Call :=
  log ++ [CallSchedule k t].

End Scheduler.

(* ------------------------------------------------------------------------- *)
(** ** Scheduler.js, its numbers as the binary64 values they are *)
(* ------------------------------------------------------------------------- *)

(** Which steps a pass finds due, and what a sixteenth note lasts, depends on
    how the sums and quotients of the code are rounded.  Where a property
    speaks of that, the numbers are JavaScript's: binary64 floating-point
    values, with [+], [/] and [<] as IEEE 754 defines them (round to nearest,
    ties to even; [60 / 0] is [Infinity]; a comparison with [NaN] is false).
    They are Rocq's primitive floats, which the kernel computes with.  This
    module embeds, with such numbers, the functions of [Scheduler.js] whose
    results depend on them: [calculateSixteenthNoteTime], [setTempo],
    [nextNote] and [scheduler].  They touch no timer; [start], [stop],
    [reset] and [destroy] are in [Scheduler] above. *)
Module Scheduler64.

Import PrimFloat.
Local Open Scope float_scope.
Local Open Scope js_scope.
#[local] Set Warnings "-inexact-float".

(** [calculateSixteenthNoteTime(bpm)]: [(60.0 / bpm) / 4]. *)
Definition calculateSixteenthNoteTime (bpm : float) : float := (60 / bpm) / 4.

(** The instance fields of a [Scheduler]. *)
Record Fields : Type := {
  tempo : float;
  lookahead : float;              (* how often to call scheduler (ms) *)
  scheduleAheadTime : float;      (* how far ahead to schedule (seconds) *)
  isPlaying : bool;
  currentStep : Z;
  nextNoteTime : float;
  timerID : option positive
}.

Definition set_tempo (v : float) (f : Fields) : Fields :=
  {| tempo := v; lookahead := lookahead f;
     scheduleAheadTime := scheduleAheadTime f; isPlaying := isPlaying f;
     currentStep := currentStep f; nextNoteTime := nextNoteTime f;
     timerID := timerID f |}.

Definition set_currentStep (v : Z) (f : Fields) : Fields :=
  {| tempo := tempo f; lookahead := lookahead f;
     scheduleAheadTime := scheduleAheadTime f; isPlaying := isPlaying f;
     currentStep := v; nextNoteTime := nextNoteTime f;
     timerID := timerID f |}.

Definition set_nextNoteTime (v : float) (f : Fields) : Fields :=
  {| tempo := tempo f; lookahead := lookahead f;
     scheduleAheadTime := scheduleAheadTime f; isPlaying := isPlaying f;
     currentStep := currentStep f; nextNoteTime := v;
     timerID := timerID f |}.

(** [constructor({ audioContext, onStep, onSchedule, tempo = 85 })]. *)
Definition constructor (tempo_opt : option float) : Fields :=
  {| tempo := match tempo_opt with Some t => t | None => 85 end;
     lookahead := 25;
     scheduleAheadTime := 0.1;
     isPlaying := false;
     currentStep := 0%Z;
     nextNoteTime := 0;
     timerID := None |}.

Section Methods.

(** What the two callbacks act on, and the callbacks themselves. *)
Variable W : Type.
Variable onStep : Z -> M W unit.
Variable onSchedule : Z -> float -> M W unit.

(** The store these methods can touch: the fields, and whatever the
    callbacks act on. *)
Record Store : Type := { self : Fields; world : W }.

Definition on_self (f : Fields -> Fields) : M Store unit :=
  modify (fun st => {| self := f (self st); world := world st |}).

Definition in_world {A} (c : M W A) : M Store A :=
  zoom world (fun w st => {| self := self st; world := w |}) c.

Definition this {A} (f : Fields -> A) : M Store A := gets (fun st => f (self st)).

(** [setTempo(newTempo)] *)
Definition setTempo (newTempo : float) : M Store unit :=
  on_self (set_tempo newTempo).

(** [nextNote()] *)
Definition nextNote : M Store unit :=
  t <- this tempo ;;
  let secondsPerBeat := 60 / t in
  on_self (fun f => set_nextNoteTime (nextNoteTime f + secondsPerBeat / 4) f) ;;
  on_self (fun f => set_currentStep (Z.rem (currentStep f + 1) 16) f).

(** [scheduler()]: its [while] loop, cut off after [fuel] tests of the
    condition; [now] is [this.audioContext.currentTime]. *)
Fixpoint scheduler (fuel : nat) (now : float) : M Store unit :=
  match fuel with
  | O => fun _ => Spin
  | S fuel' =>
      next <- this nextNoteTime ;;
      ahead <- this scheduleAheadTime ;;
      if next <? now + ahead then
        (k <- this currentStep ;; in_world (onStep k)) ;;
        (k <- this currentStep ;;
         t <- this nextNoteTime ;;
         in_world (onSchedule k t)) ;;
        nextNote ;;
        scheduler fuel' now
      else skip
  end.

(** What happens to a scheduler that plays: a scheduling pass, at some clock
    reading, or a call of [setTempo]. *)
Inductive Happening : Type :=
| Pass (now : float)
| Retempo (newTempo : float).

Definition happen (fuel : nat) (e : Happening) : M Store unit :=
  match e with
  | Pass now => scheduler fuel now
  | Retempo newTempo => setTempo newTempo
  end.

Definition play (fuel : nat) (session : list Happening) : M Store unit :=
  forEach session (happen fuel).

End Methods.

(** An invocation of one of the two callbacks, with its arguments. *)
Inductive Call : Type :=
| CallStep (k : Z)
| CallSchedule (k : Z) (t : float).

(** The effect of [nextNote()] on the fields, once and [n] times. *)
Definition advance (f : Fields) : Fields :=
  set_currentStep (Z.rem (currentStep f + 1) 16)
    (set_nextNoteTime (nextNoteTime f + 60 / tempo f / 4) f).

Fixpoint advances (n : nat) (f : Fields) : Fields :=
  match n with
  | O => f
  | S n' => advances n' (advance f)
  end.

(** The condition of the [while] loop. *)
Definition due (now : float) (f : Fields) : bool :=
  nextNoteTime f <? now + scheduleAheadTime f.

(** The invocations of [n] consecutive steps from the fields [f]: the [i]-th
    of them is step [(currentStep f + i) mod 16], notified and then scheduled
    at the time [nextNoteTime] has after [i] advances. *)
Definition nth_calls (f : Fields) (i : nat) : list Call :=
  let k := ((currentStep f + Z.of_nat i) mod 16)%Z in
  [CallStep k; CallSchedule k (nextNoteTime (advances i f))].

Definition in_step_order (f : Fields) (n : nat) : list Call :=
  flat_map (nth_calls f) (seq 0 n).

(** The same invocations, one step after the other. *)
Fixpoint due_calls (f : Fields) (n : nat) : list Call :=
  match n with
  | O => []
  | S n' =>
      CallStep (currentStep f) :: CallSchedule (currentStep f) (nextNoteTime f)
        :: due_calls (advance f) n'
  end.

(** Two invocations of the same callback for the same step. *)
Definition same_step (a b : Call) : Prop :=
  match a, b with
  | CallStep k, CallStep k' => k = k'
  | CallSchedule k _, CallSchedule k' _ => k = k'
  | _, _ => False
  end.

(** The clock readings of the passes of a session. *)
Fixpoint readings (session : list Happening) : list float :=
  match session with
  | [] => []
  | Pass now :: rest => now :: readings rest
  | Retempo _ :: rest => readings rest
  end.

(** An invocation of [onSchedule] made for a note that was due at one of the
    clock readings [nows], with [ahead] seconds of look-ahead. *)
Definition scheduled_when_due (nows : list float) (ahead : float) (c : Call) : Prop :=
  match c with
  | CallStep _ => True
  | CallSchedule _ t => exists now, In now nows /\ (t <? now + ahead) = true
  end.

Section Observed.

(** Callbacks that return normally: they are given by their effect. *)
Variable W : Type.
Variable stepped : Z -> W -> W.
Variable scheduled : Z -> float -> W -> W.

Definition perform (c : Call) (w : W) : W :=
  match c with
  | CallStep k => stepped k w
  | CallSchedule k t => scheduled k t w
  end.

Definition perform_all (cs : list Call) (w : W) : W :=
  fold_left (fun w c => perform c w) cs w.

Definition doStep (k : Z) : M W unit := modify (stepped k).
Definition doSchedule (k : Z) (t : float) : M W unit := modify (scheduled k t).

End Observed.

(** Callbacks that return normally on the worlds that satisfy [ready] and
    keep the world in [ready]; there [stepped] and [scheduled] give their
    effect. *)
Definition step_effect (W : Type) (ready : W -> Prop) (onStep : Z -> M W unit)
    (stepped : Z -> W -> W) : Prop :=
  forall k w, ready w -> onStep k w = Done tt (stepped k w) /\ ready (stepped k w).

Definition schedule_effect (W : Type) (ready : W -> Prop)
    (onSchedule : Z -> float -> M W unit)
    (scheduled : Z -> float -> W -> W) : Prop :=
  forall k t w, ready w ->
    onSchedule k t w = Done tt (scheduled k t w) /\ ready (scheduled k t w).

(** Callbacks that only write down that they were invoked. *)
Definition logStep (k : Z) (log : list Call) : list Call := log ++ [CallStep k].
Definition logSchedule (k : Z) (t : float) (log : list Call) : list Call :=
  log ++ [CallSchedule k t].

(** The number a whole-valued tempo is, as the tempo slider hands it over
    ([Number(e.target.value)]). *)
Definition of_Z (n : Z) : float := of_uint63 (Uint63.of_Z n).

(** The rational a finite binary64 value is equal to. *)
Definition to_Q (x : float) : option Q :=
  match FloatOps.Prim2SF x with
  | SpecFloat.S754_zero _ => Some 0%Q
  | SpecFloat.S754_finite s m e =>
      Some ((if s then -1 else 1) * inject_Z (Z.pos m) * Qpower 2 e)%Q
  | _ => None
  end.

End Scheduler64.

(* ------------------------------------------------------------------------- *)
(** ** The host's audio API, as far as the engine uses it *)
(* ------------------------------------------------------------------------- *)

(** The Web Audio API belongs to the browser, not to the repository.  It is
    modelled after the test double of [test/setup.js]: every [create...]
    method hands out a fresh node, and [connect], [start], [stop] and the
    methods of the audio parameters only take note of the call.  Two things
    are added that the double leaves out: a method called on a null context
    is a [TypeError], and a host may check the argument of [connect]. *)
Module WebAudio.

Open Scope Q_scope.
Open Scope js_scope.

Inductive ContextState : Type := Suspended | Running | Closed.

Record AudioContext : Type := { state : ContextState; sampleRate : Q }.

Definition set_state (v : ContextState) (c : AudioContext) : AudioContext :=
  {| state := v; sampleRate := sampleRate c |}.

Definition Node : Type := positive.

Inductive NodeKind : Type :=
| Oscillator | Gain | BiquadFilter | BufferSource | DynamicsCompressor | Buffer.

Inductive Param : Type :=
| Frequency | Detune | GainAmount | QFactor | Threshold | Ratio | Attack | Release.

Inductive Shape : Type := Sine | Highpass.

(** What the code asks of the host, in the order it asks. *)
Inductive Op : Type :=
| Create (n : Node) (k : NodeKind)
| CreateBuffer (b : Node) (channels : Z) (length : Z) (rate : Q)
| FillNoise (b : Node) (first_draw : nat) (length : Z)
| SetBuffer (n b : Node)
| SetValue (n : Node) (p : Param) (v : Q)
| SetValueAtTime (n : Node) (p : Param) (v t : Q)
| ExponentialRampToValueAtTime (n : Node) (p : Param) (v t : Q)
| LinearRampToValueAtTime (n : Node) (p : Param) (v t : Q)
| SetType (n : Node) (s : Shape)
| Connect (src : Node) (dst : option Node)
| ConnectToDestination (src : Node)
| StartAt (n : Node) (t : Q)
| StopAt (n : Node) (t : Q)
| OnEnded (n : Node) (disconnects : list Node).

(** The four voices, and the record an instrumented voice function leaves of
    its own invocation (what a test spy on the function would see). *)
Inductive Voice : Type := Kick | Snare | HiHat | Chord.

Record Trigger : Type := { voice : Voice; at_time : Q; into : option Node }.

(** The host: the requests made so far (oldest first), the next fresh node,
    the pseudo-random source behind [Math.random()] and how much of it was
    consumed, and whether [connect] checks its argument (a browser raises
    [TypeError] on null, the test double of [test/setup.js] accepts
    anything). *)
Record Host : Type := {
  ops : list Op;
  next_node : Node;
  random : nat -> Q;
  drawn : nat;
  strict_connect : bool;
  triggers : list Trigger
}.

Definition new_host (rnd : nat -> Q) (strict : bool) : Host :=
  {| ops := []; next_node := 1%positive; random := rnd; drawn := 0%nat;
     strict_connect := strict; triggers := [] |}.

Definition request (o : Op) : M Host unit :=
  modify (fun h => {| ops := ops h ++ [o]; next_node := next_node h;
                      random := random h; drawn := drawn h;
                      strict_connect := strict_connect h;
                      triggers := triggers h |}).

Definition fresh (k : NodeKind) : M Host Node :=
  fun h =>
    Done (next_node h)
         {| ops := ops h ++ [Create (next_node h) k];
            next_node := Pos.succ (next_node h);
            random := random h; drawn := drawn h;
            strict_connect := strict_connect h; triggers := triggers h |}.

Definition draw (count : nat) : M Host nat :=
  fun h =>
    Done (drawn h)
         {| ops := ops h; next_node := next_node h; random := random h;
            drawn := (drawn h + count)%nat;
            strict_connect := strict_connect h; triggers := triggers h |}.

Definition record_trigger (v : Voice) (t : Q) (d : option Node) : M Host unit :=
  modify (fun h => {| ops := ops h; next_node := next_node h;
                      random := random h; drawn := drawn h;
                      strict_connect := strict_connect h;
                      triggers := triggers h ++ [{| voice := v; at_time := t; into := d |}] |}).

(** What can be read off the requests: the times at which sources were asked
    to start, and the nodes that were connected into the node [g]. *)
Fixpoint start_times (os : list Op) : list Q :=
  match os with
  | [] => []
  | StartAt _ t :: rest => t :: start_times rest
  | _ :: rest => start_times rest
  end.

Fixpoint feeding (g : Node) (os : list Op) : list Node :=
  match os with
  | [] => []
  | Connect src (Some d) :: rest =>
      if Pos.eqb d g then src :: feeding g rest else feeding g rest
  | _ :: rest => feeding g rest
  end.

(** The number of sound sources of a voice: each is started once and its
    signal path ends in the destination. *)
Definition sources (v : Voice) : nat :=
  match v with
  | Kick => 1
  | Snare => 2
  | HiHat => 1
  | Chord => 3
  end.

(** A method called on [context]: a [TypeError] when [context] is null. *)
Definition on_context {A} (context : option AudioContext)
    (c : AudioContext -> M Host A) : M Host A :=
  match context with
  | Some ctx => c ctx
  | None => throw TypeError
  end.

Definition createOscillator (context : option AudioContext) : M Host Node :=
  on_context context (fun _ => fresh Oscillator).
Definition createGain (context : option AudioContext) : M Host Node :=
  on_context context (fun _ => fresh Gain).
Definition createBiquadFilter (context : option AudioContext) : M Host Node :=
  on_context context (fun _ => fresh BiquadFilter).
Definition createBufferSource (context : option AudioContext) : M Host Node :=
  on_context context (fun _ => fresh BufferSource).
Definition createDynamicsCompressor (context : option AudioContext) : M Host Node :=
  on_context context (fun _ => fresh DynamicsCompressor).

(** [src.connect(dst)] *)
Definition connect (src : Node) (dst : option Node) : M Host unit :=
  match dst with
  | Some _ => request (Connect src dst)
  | None =>
      strict <- gets strict_connect ;;
      if strict then throw TypeError else request (Connect src None)
  end.

End WebAudio.

(* ------------------------------------------------------------------------- *)
(** ** SoundGenerator.js *)
(* ------------------------------------------------------------------------- *)

Module SoundGenerator.

Import WebAudio.
Open Scope Q_scope.
Open Scope js_scope.

(** [createNoiseBuffer(context, duration)]: the buffer holds
    [duration * sampleRate] samples, each one [Math.random() * 2 - 1]; the
    filling loop is one request that consumes that many draws. *)
Definition createNoiseBuffer (context : option AudioContext) (duration : Q)
  : M Host Node :=
  on_context context (fun ctx =>
    let sampleRate := sampleRate ctx in
    let length := Qfloor (duration * sampleRate) in
    b <- fresh Buffer ;;
    request (CreateBuffer b 1 length sampleRate) ;;
    first <- draw (Z.to_nat length) ;;
    request (FillNoise b first length) ;;
    ret b).

(** [createKick(context, time, destination)] *)
Definition createKick (context : option AudioContext) (time : Q)
    (destination : option Node) : M Host unit :=
  record_trigger Kick time destination ;;
  osc <- createOscillator context ;;
  oscGain <- createGain context ;;
  request (SetValueAtTime osc Frequency 150 time) ;;
  request (ExponentialRampToValueAtTime osc Frequency 50 (time + 0.5)) ;;
  request (SetValueAtTime oscGain GainAmount 1 time) ;;
  request (ExponentialRampToValueAtTime oscGain GainAmount 0.01 (time + 0.5)) ;;
  request (SetType osc Sine) ;;
  connect osc (Some oscGain) ;;
  connect oscGain destination ;;
  request (StartAt osc time) ;;
  request (StopAt osc (time + 0.5)) ;;
  request (OnEnded osc [osc; oscGain]).

(** [createSnare(context, time, destination)] *)
Definition createSnare (context : option AudioContext) (time : Q)
    (destination : option Node) : M Host unit :=
  record_trigger Snare time destination ;;
  noise <- createBufferSource context ;;
  buffer <- createNoiseBuffer context 0.2 ;;
  request (SetBuffer noise buffer) ;;
  noiseFilter <- createBiquadFilter context ;;
  request (SetType noiseFilter Highpass) ;;
  request (SetValue noiseFilter Frequency 1000) ;;
  noiseGain <- createGain context ;;
  request (SetValueAtTime noiseGain GainAmount 1 time) ;;
  request (ExponentialRampToValueAtTime noiseGain GainAmount 0.01 (time + 0.2)) ;;
  osc <- createOscillator context ;;
  oscGain <- createGain context ;;
  request (SetValue osc Frequency 180) ;;
  request (SetValueAtTime oscGain GainAmount 0.7 time) ;;
  request (ExponentialRampToValueAtTime oscGain GainAmount 0.01 (time + 0.1)) ;;
  connect noise (Some noiseFilter) ;;
  connect noiseFilter (Some noiseGain) ;;
  connect noiseGain destination ;;
  connect osc (Some oscGain) ;;
  connect oscGain destination ;;
  request (StartAt noise time) ;;
  request (StopAt noise (time + 0.2)) ;;
  request (StartAt osc time) ;;
  request (StopAt osc (time + 0.1)) ;;
  request (OnEnded noise [noise; noiseFilter; noiseGain]) ;;
  request (OnEnded osc [osc; oscGain]).

(** [createHiHat(context, time, destination)] *)
Definition createHiHat (context : option AudioContext) (time : Q)
    (destination : option Node) : M Host unit :=
  record_trigger HiHat time destination ;;
  noise <- createBufferSource context ;;
  buffer <- createNoiseBuffer context 0.05 ;;
  request (SetBuffer noise buffer) ;;
  filter <- createBiquadFilter context ;;
  request (SetType filter Highpass) ;;
  request (SetValue filter Frequency 7000) ;;
  request (SetValue filter QFactor 1) ;;
  gain <- createGain context ;;
  request (SetValueAtTime gain GainAmount 0.6 time) ;;
  request (ExponentialRampToValueAtTime gain GainAmount 0.01 (time + 0.05)) ;;
  connect noise (Some filter) ;;
  connect filter (Some gain) ;;
  connect gain destination ;;
  request (StartAt noise time) ;;
  request (StopAt noise (time + 0.05)) ;;
  request (OnEnded noise [noise; filter; gain]).

(** The body of the [forEach] of [createChord], for one frequency. *)
Definition chordTone (context : option AudioContext) (time : Q)
    (destination : option Node) (freq : Q) : M Host unit :=
  osc <- createOscillator context ;;
  gain <- createGain context ;;
  request (SetValue osc Frequency freq) ;;
  r <- draw 1 ;;
  rnd <- gets random ;;
  request (SetValue osc Detune (rnd r * 10 - 5)) ;;
  request (SetType osc Sine) ;;
  request (SetValueAtTime gain GainAmount 0 time) ;;
  request (LinearRampToValueAtTime gain GainAmount 0.15 (time + 0.05)) ;;
  request (LinearRampToValueAtTime gain GainAmount 0.1 (time + 0.1)) ;;
  request (SetValueAtTime gain GainAmount 0.1 (time + 0.4)) ;;
  request (LinearRampToValueAtTime gain GainAmount 0 (time + 0.6)) ;;
  connect osc (Some gain) ;;
  connect gain destination ;;
  request (StartAt osc time) ;;
  request (StopAt osc (time + 0.6)) ;;
  request (OnEnded osc [osc; gain]).

(** [createChord(context, time, destination)] *)
Definition createChord (context : option AudioContext) (time : Q)
    (destination : option Node) : M Host unit :=
  record_trigger Chord time destination ;;
  let frequencies := [293.66; 349.23; 523.25] in
  forEach frequencies (chordTone context time destination).

(** The voice function of each voice. *)
Definition create (v : Voice)
  : option AudioContext -> Q -> option Node -> M Host unit :=
  match v with
  | Kick => createKick
  | Snare => createSnare
  | HiHat => createHiHat
  | Chord => createChord
  end.

End SoundGenerator.

(* ------------------------------------------------------------------------- *)
(** ** AudioEngine.js *)
(* ------------------------------------------------------------------------- *)

Module AudioEngine.

Import WebAudio.
Open Scope Q_scope.
Open Scope js_scope.

(** A pattern: four tracks of step flags ([0] inactive, anything else
    active). *)
Record Pattern : Type := {
  kick : list Z;
  snare : list Z;
  hihat : list Z;
  chord : list Z
}.

(** [track[step]] read as a condition: an index outside the array reads
    [undefined], which is falsy. *)
Definition active_at (track : list Z) (step : Z) : bool :=
  if (step <? 0)%Z then false
  else match nth_error track (Z.to_nat step) with
       | Some v => negb (v =? 0)%Z
       | None => false
       end.

(** The instance fields of an [AudioEngine], except [scheduler]: the
    [Scheduler] object it refers to is a component of the [Store] below, and
    the field is null exactly when the store holds no such object. *)
Record Fields : Type := {
  context : option AudioContext;
  masterGain : option Node;
  compressor : option Node;
  tempo : Q;
  isPlaying : bool;
  currentStep : Z;
  pattern : option Pattern
}.

Definition set_context (v : option AudioContext) (f : Fields) : Fields :=
  {| context := v; masterGain := masterGain f; compressor := compressor f;
     tempo := tempo f; isPlaying := isPlaying f; currentStep := currentStep f;
     pattern := pattern f |}.

Definition set_masterGain (v : option Node) (f : Fields) : Fields :=
  {| context := context f; masterGain := v; compressor := compressor f;
     tempo := tempo f; isPlaying := isPlaying f; currentStep := currentStep f;
     pattern := pattern f |}.

Definition set_compressor (v : option Node) (f : Fields) : Fields :=
  {| context := context f; masterGain := masterGain f; compressor := v;
     tempo := tempo f; isPlaying := isPlaying f; currentStep := currentStep f;
     pattern := pattern f |}.

Definition set_tempo (v : Q) (f : Fields) : Fields :=
  {| context := context f; masterGain := masterGain f; compressor := compressor f;
     tempo := v; isPlaying := isPlaying f; currentStep := currentStep f;
     pattern := pattern f |}.

Definition set_isPlaying (v : bool) (f : Fields) : Fields :=
  {| context := context f; masterGain := masterGain f; compressor := compressor f;
     tempo := tempo f; isPlaying := v; currentStep := currentStep f;
     pattern := pattern f |}.

Definition set_currentStep (v : Z) (f : Fields) : Fields :=
  {| context := context f; masterGain := masterGain f; compressor := compressor f;
     tempo := tempo f; isPlaying := isPlaying f; currentStep := v;
     pattern := pattern f |}.

Definition set_pattern (v : option Pattern) (f : Fields) : Fields :=
  {| context := context f; masterGain := masterGain f; compressor := compressor f;
     tempo := tempo f; isPlaying := isPlaying f; currentStep := currentStep f;
     pattern := v |}.

(** What the scheduler's callbacks act on: the engine's own fields and the
    audio host. *)
Record World : Type := { engine : Fields; host : Host }.

(** Everything a method of the engine can touch. *)
Record Store : Type := {
  world : World;
  scheduler : option Scheduler.Fields;
  timers : Timers
}.

Definition on_engine (f : Fields -> Fields) : M World unit :=
  modify (fun w => {| engine := f (engine w); host := host w |}).

Definition in_host {A} (c : M Host A) : M World A :=
  zoom host (fun h w => {| engine := engine w; host := h |}) c.

Definition in_world {A} (c : M World A) : M Store A :=
  zoom world (fun w st => {| world := w; scheduler := scheduler st; timers := timers st |}) c.

Definition this {A} (f : Fields -> A) : M World A := gets (fun w => f (engine w)).

Definition set_scheduler (v : option Scheduler.Fields) : M Store unit :=
  modify (fun st => {| world := world st; scheduler := v; timers := timers st |}).

(** [constructor()] *)
Definition constructor : Fields :=
  {| context := None; masterGain := None; compressor := None;
     tempo := 85; isPlaying := false; currentStep := 0%Z; pattern := None |}.

Definition new_engine (h : Host) (tm : Timers) : Store :=
  {| world := {| engine := constructor; host := h |};
     scheduler := None; timers := tm |}.

(** [setupMasterChain()] *)
Definition setupMasterChain : M World unit :=
  (ctx <- this context ;;
   g <- in_host (createGain ctx) ;;
   on_engine (set_masterGain (Some g))) ;;
  (g <- this masterGain ;;
   match g with
   | Some g => in_host (request (SetValue g GainAmount 0.5))
   | None => throw TypeError
   end) ;;
  (ctx <- this context ;;
   c <- in_host (createDynamicsCompressor ctx) ;;
   on_engine (set_compressor (Some c))) ;;
  (c <- this compressor ;;
   match c with
   | Some c =>
       in_host (request (SetValue c Threshold (-20))) ;;
       in_host (request (SetValue c Ratio 4)) ;;
       in_host (request (SetValue c Attack 0.003)) ;;
       in_host (request (SetValue c Release 0.25))
   | None => throw TypeError
   end) ;;
  (g <- this masterGain ;;
   c <- this compressor ;;
   match g with
   | Some g => in_host (connect g c)
   | None => throw TypeError
   end) ;;
  (c <- this compressor ;;
   ctx <- this context ;;
   match c, ctx with
   | Some c, Some _ => in_host (request (ConnectToDestination c))
   | _, _ => throw TypeError
   end).

(** [this.pattern.<track>[step]] read as a condition. *)
Definition flag (track : Pattern -> list Z) (step : Z) : M World bool :=
  p <- this pattern ;;
  match p with
  | Some pat => ret (active_at (track pat) step)
  | None => throw TypeError
  end.

(** [if (this.pattern.<track>[step]) { create<Voice>(this.context, time, this.masterGain); }] *)
Definition sound (track : Pattern -> list Z)
    (create : option AudioContext -> Q -> option Node -> M Host unit)
    (step : Z) (time : Q) : M World unit :=
  on <- flag track step ;;
  if on then
    ctx <- this context ;;
    g <- this masterGain ;;
    in_host (create ctx time g)
  else skip.

(** [scheduleStepSounds(step, time)] *)
Definition scheduleStepSounds (step : Z) (time : Q) : M World unit :=
  p <- this pattern ;;
  match p with
  | None => skip
  | Some _ =>
      sound kick SoundGenerator.createKick step time ;;
      sound snare SoundGenerator.createSnare step time ;;
      sound hihat SoundGenerator.createHiHat step time ;;
      sound chord SoundGenerator.createChord step time
  end.

(** The callbacks [init()] hands to the [Scheduler]. *)
Definition onStep (step : Z) : M World unit := on_engine (set_currentStep step).
Definition onSchedule (step : Z) (time : Q) : M World unit :=
  scheduleStepSounds step time.

(** A method call [this.scheduler.m(...)]: a [TypeError] when the field is
    null; otherwise [m] runs on the scheduler object, the timers and the
    world of the engine. *)
Definition call_scheduler {A} (m : M (Scheduler.Store World) A) : M Store A :=
  fun st =>
    match scheduler st with
    | None => Raise TypeError st
    | Some s =>
        let back (r : Scheduler.Store World) :=
          {| world := Scheduler.world r;
             scheduler := Some (Scheduler.self r);
             timers := Scheduler.timers r |} in
        match m {| Scheduler.self := s; Scheduler.timers := timers st;
                   Scheduler.world := world st |} with
        | Done a r => Done a (back r)
        | Raise e r => Raise e (back r)
        | Spin => Spin
        end
    end.

(** What the environment decides about [init()]: whether an [AudioContext]
    constructor exists ([window.AudioContext || window.webkitAudioContext]),
    the state and sample rate of a context it constructs, and how the promise
    of [resume()] settles. *)
Inductive Settle : Type := Fulfilled | Refused | Pending.

Record Env : Type := {
  has_AudioContext : bool;
  initial_state : ContextState;
  hardware_rate : Q;
  resume : Settle
}.

(** [async init()], run to completion: a rejected [await] is an exception of
    the body (the promise of [init()] is rejected); a promise that never
    settles leaves the body suspended for good, with the store as it was at
    the [await]. *)
Definition init (env : Env) : M Store bool :=
  (ctx <- in_world (this context) ;;
   match ctx with
   | Some _ => skip
   | None =>
       if has_AudioContext env then
         in_world (on_engine (set_context
           (Some {| state := initial_state env; sampleRate := hardware_rate env |})))
       else throw TypeError
   end) ;;
  (ctx <- in_world (this context) ;;
   match ctx with
   | Some c =>
       match state c with
       | Suspended =>
           match resume env with
           | Fulfilled => in_world (on_engine (set_context (Some (set_state Running c))))
           | Refused => throw Rejected
           | Pending => throw Unsettled
           end
       | _ => skip
       end
   | None => throw TypeError
   end) ;;
  (g <- in_world (this masterGain) ;;
   match g with
   | Some _ => skip
   | None => in_world setupMasterChain
   end) ;;
  (s <- gets scheduler ;;
   match s with
   | Some _ => skip
   | None =>
       t <- in_world (this tempo) ;;
       set_scheduler (Some (Scheduler.constructor (Some t)))
   end) ;;
  ret true.

(** [start()] *)
Definition start (now : Q) : M Store unit :=
  s <- gets scheduler ;;
  ctx <- in_world (this context) ;;
  match s, ctx with
  | Some _, Some _ =>
      in_world (on_engine (set_isPlaying true)) ;;
      call_scheduler (Scheduler.start onStep onSchedule now)
  | _, _ => skip
  end.

(** [stop()] *)
Definition stop : M Store unit :=
  s <- gets scheduler ;;
  match s with
  | None => skip
  | Some _ =>
      in_world (on_engine (set_isPlaying false)) ;;
      call_scheduler (Scheduler.stop (W:=World))
  end.

(** [toggle()] *)
Definition toggle (now : Q) : M Store unit :=
  playing <- in_world (this isPlaying) ;;
  if playing then stop else start now.

(** [setTempo(newTempo)] *)
Definition setTempo (newTempo : Q) : M Store unit :=
  in_world (on_engine (set_tempo newTempo)) ;;
  s <- gets scheduler ;;
  match s with
  | Some _ => call_scheduler (Scheduler.setTempo (W:=World) newTempo)
  | None => skip
  end.

(** [setPattern(pattern)] *)
Definition setPattern (p : option Pattern) : M Store unit :=
  in_world (on_engine (set_pattern p)).

(** [reset()] *)
Definition reset : M Store unit :=
  in_world (on_engine (set_currentStep 0%Z)) ;;
  s <- gets scheduler ;;
  match s with
  | Some _ => call_scheduler (Scheduler.reset (W:=World))
  | None => skip
  end.

(** [destroy()]; [context.close()] leaves the context closed. *)
Definition destroy : M Store unit :=
  stop ;;
  (s <- gets scheduler ;;
   match s with
   | Some _ => call_scheduler (Scheduler.destroy (W:=World))
   | None => skip
   end) ;;
  (ctx <- in_world (this context) ;;
   match ctx with
   | Some c => in_world (on_engine (set_context (Some (set_state Closed c))))
   | None => skip
   end).

(** The interval timer armed by the scheduler fires. *)
Definition tick (h : positive) (now : Q) : M Store unit :=
  s <- gets scheduler ;;
  match s with
  | Some _ => call_scheduler (Scheduler.tick onStep onSchedule h now)
  | None => skip
  end.

(** *** What a step is expected to sound *)

Definition track_of (v : Voice) : Pattern -> list Z :=
  match v with
  | Kick => kick
  | Snare => snare
  | HiHat => hihat
  | Chord => chord
  end.

(** The voices whose flag is active at [step], in the order the engine
    looks at the tracks. *)
Definition voices_at (p : Pattern) (step : Z) : list Voice :=
  filter (fun v => active_at (track_of v p) step) [Kick; Snare; HiHat; Chord].

Definition triggers_at (p : Pattern) (g : option Node) (step : Z) (time : Q)
  : list Trigger :=
  map (fun v => {| voice := v; at_time := time; into := g |}) (voices_at p step).

(** The number of sound sources a step starts. *)
Definition sources_at (p : Pattern) (step : Z) : nat :=
  list_sum (map sources (voices_at p step)).

Definition voice_eqb (a b : Voice) : bool :=
  match a, b with
  | Kick, Kick | Snare, Snare | HiHat, HiHat | Chord, Chord => true
  | _, _ => false
  end.

Definition count_voice (v : Voice) (l : list Trigger) : nat :=
  length (filter (fun t => voice_eqb (voice t) v) l).

(** A pattern with the kick on steps 0, 4, 8 and 12 and nothing else. *)
Definition four_on_the_floor (p : Pattern) : Prop :=
  forall k, (0 <= k < 16)%Z ->
    active_at (kick p) k = ((k =? 0) || (k =? 4) || (k =? 8) || (k =? 12))%Z /\
    active_at (snare p) k = false /\
    active_at (hihat p) k = false /\
    active_at (chord p) k = false.

(** One run over the sixteen steps: [onSchedule] for steps 0 to 15, step [k]
    at time [time_of k]. *)
Definition sixteen_steps : list Z := map Z.of_nat (seq 0 16).

Definition full_run (time_of : Z -> Q) : M World unit :=
  forEach sixteen_steps (fun k => onSchedule k (time_of k)).

(** The worlds in which the callbacks of the scheduler return normally: the
    context and the master gain exist. *)
Definition ready (w : World) : Prop :=
  context (engine w) <> None /\ masterGain (engine w) <> None.

(** The effect of the two callbacks. *)
Definition stepped (k : Z) (w : World) : World :=
  {| engine := set_currentStep k (engine w); host := host w |}.

Definition scheduled (k : Z) (t : Q) (w : World) : World :=
  match store_of (scheduleStepSounds k t w) with
  | Some w' => w'
  | None => w
  end.

End AudioEngine.

(* ------------------------------------------------------------------------- *)
(** ** The engine as its callers see it *)
(* ------------------------------------------------------------------------- *)

Module EngineCalls.

Import WebAudio AudioEngine.
Open Scope Q_scope.
Open Scope js_scope.

(** The methods of the [AudioEngine] class (JavaScript has no private ones),
    and the interval timer calling back into the scheduler.  [setPattern] is
    handed [null] or an object with the four tracks, as the type of patterns
    has it; what the engine does with another object is not modelled. *)
Inductive Method : Type :=
| CallInit (env : Env)
| CallSetupMasterChain
| CallScheduleStepSounds (step : Z) (time : Q)
| CallStart (now : Q)
| CallStop
| CallToggle (now : Q)
| CallSetTempo (newTempo : Q)
| CallSetPattern (p : option Pattern)
| CallReset
| CallDestroy
| TimerFires (h : positive) (now : Q).

Definition call (m : Method) : M Store unit :=
  match m with
  | CallInit env => init env ;; skip
  | CallSetupMasterChain => in_world setupMasterChain
  | CallScheduleStepSounds step time => in_world (scheduleStepSounds step time)
  | CallStart now => start now
  | CallStop => stop
  | CallToggle now => toggle now
  | CallSetTempo newTempo => setTempo newTempo
  | CallSetPattern p => setPattern p
  | CallReset => reset
  | CallDestroy => destroy
  | TimerFires h now => tick h now
  end.

(** The stores an engine can be brought to from [new AudioEngine()] by calls
    of its methods (a call that raises leaves the store it had reached),
    while other code sets and clears timers of its own. *)
Inductive reachable : Store -> Prop :=
| reach_new (h : Host) (tm : Timers) : reachable (new_engine h tm)
| reach_call (st st' : Store) (m : Method) :
    reachable st -> store_of (call m st) = Some st' -> reachable st'
| reach_timers (st : Store) (tm : Timers) :
    reachable st ->
    reachable {| world := world st; scheduler := scheduler st; timers := tm |}.

(** What the engine and its scheduler agree on. *)
Definition coherent (st : Store) : Prop :=
  (0 <= currentStep (engine (world st)) < 16)%Z /\
  match scheduler st with
  | None => isPlaying (engine (world st)) = false
  | Some s =>
      ready (world st) /\
      Scheduler.tempo s = tempo (engine (world st)) /\
      Scheduler.isPlaying s = isPlaying (engine (world st)) /\
      Scheduler.consistent s
  end.

(** What playback leaves of the engine's fields: all but [isPlaying] and
    [currentStep]. *)
Definition same_settings (e e' : Fields) : Prop :=
  context e' = context e /\
  masterGain e' = masterGain e /\
  compressor e' = compressor e /\
  tempo e' = tempo e /\
  pattern e' = pattern e.

End EngineCalls.

(* ------------------------------------------------------------------------- *)
(** ** Reading the requests of a voice *)
(* ------------------------------------------------------------------------- *)

Module RequestLog.

Import WebAudio.

(** The audio nodes a list of requests creates (an [AudioBuffer] is data, not
    a node), the nodes its [onended] handlers disconnect, and the sources it
    starts and stops, each with the time asked for. *)
Fixpoint created (os : list Op) : list Node :=
  match os with
  | [] => []
  | Create n Buffer :: rest => created rest
  | Create n _ :: rest => n :: created rest
  | _ :: rest => created rest
  end.

Fixpoint released (os : list Op) : list Node :=
  match os with
  | [] => []
  | OnEnded _ ds :: rest => ds ++ released rest
  | _ :: rest => released rest
  end.

Fixpoint started (os : list Op) : list (Node * Q) :=
  match os with
  | [] => []
  | StartAt n t :: rest => (n, t) :: started rest
  | _ :: rest => started rest
  end.

Fixpoint stopped (os : list Op) : list (Node * Q) :=
  match os with
  | [] => []
  | StopAt n t :: rest => (n, t) :: stopped rest
  | _ :: rest => stopped rest
  end.

(** The sources that carry an [onended] handler. *)
Fixpoint watched (os : list Op) : list Node :=
  match os with
  | [] => []
  | OnEnded n _ :: rest => n :: watched rest
  | _ :: rest => watched rest
  end.

(** The values written to [detune]. *)
Fixpoint detunes (os : list Op) : list Q :=
  match os with
  | [] => []
  | SetValue _ Detune v :: rest => v :: detunes rest
  | _ :: rest => detunes rest
  end.

End RequestLog.

(* ------------------------------------------------------------------------- *)
(** ** SoundGenerator.js: the bitcrusher of [createLoFiEffect] *)
(* ------------------------------------------------------------------------- *)

(** [createLoFiEffect(context)] asks the context for a script processor and
    gives it an [onaudioprocess] handler.  The node is the host's; modelled
    here are the handler and the variables it closes over.  The samples of an
    audio buffer are finite binary fractions, on which the handler's
    arithmetic (a product with [2^bits], [Math.floor], a quotient by
    [2^bits]) is exact: the rationals model it without rounding.  The input
    and the output buffer have the same length; the handler's result is the
    samples it writes, in order. *)
Module LoFiEffect.

Open Scope Q_scope.
Open Scope js_scope.

Definition bufferSize : Z := 4096.
Definition bits : Z := 8.          (* lower bits = more distortion *)
Definition normFreq : Q := 0.5.    (* downsampling factor *)

(** [let lastSample = 0; let step = 0;] *)
Record Closure : Type := { lastSample : Q; step : Z }.

Definition fresh_closure : Closure := {| lastSample := 0; step := 0%Z |}.

Definition set_lastSample (v : Q) (c : Closure) : Closure :=
  {| lastSample := v; step := step c |}.

Definition set_step (v : Z) (c : Closure) : Closure :=
  {| lastSample := lastSample c; step := v |}.

(** [Math.pow(2, bits)] *)
Definition levels : Q := inject_Z (2 ^ bits).

(** The body of the [for] loop, for the input sample [x]; its result is the
    value written to [output[i]]. *)
Definition crush (x : Q) : M Closure Q :=
  modify (fun c => set_step (step c + 1) c) ;;
  s <- gets step ;;
  (if (Z.rem s (Z.max 1 (Qfloor (1 / normFreq))) =? 0)%Z
   then modify (set_lastSample (inject_Z (Qfloor (x * levels)) / levels))
   else skip) ;;
  gets lastSample.

(** [bitcrusher.onaudioprocess = (e) => { ... }] on the samples of
    [e.inputBuffer]. *)
Fixpoint onaudioprocess (input : list Q) : M Closure (list Q) :=
  match input with
  | [] => ret []
  | x :: rest =>
      y <- crush x ;;
      ys <- onaudioprocess rest ;;
      ret (y :: ys)
  end.

(** The value a sample is quantized to. *)
Definition quantize (x : Q) : Q := inject_Z (Qfloor (x * 256)) / 256.

(** What the handler writes, said without the loop: the sample counted
    [n]-th since the effect was created is taken (and quantized) when [n] is
    even, and otherwise the last value taken is held. *)
Fixpoint held (last : Q) (n : Z) (input : list Q) : list Q :=
  match input with
  | [] => []
  | x :: rest =>
      let y := if Z.even (n + 1) then quantize x else last in
      y :: held y (n + 1) rest
  end.

End LoFiEffect.

(* ------------------------------------------------------------------------- *)
(** ** utils/constants.js *)
(* ------------------------------------------------------------------------- *)

(** Patterns as the user interface holds them.  A track is a JavaScript
    array of step flags, recorded as what reading its cells gives: a cell
    that holds no number reads [undefined] and is [None] here, be it a hole
    (left by a write past the end of the array) or a cell that holds
    [undefined] (what a copy makes of a hole).  What tells the two apart
    ([in], the callbacks of [map] and [forEach]) is not modelled: an equation
    between patterns says that they have the same lengths and the same reads.
    Values have no identity in the model: a copy is the value itself. *)
Module Constants.

Import String.
Open Scope string_scope.
Open Scope list_scope.
Open Scope Q_scope.

Definition Track : Type := list (option Z).

Record Pattern : Type := {
  kick : Track;
  snare : Track;
  hihat : Track;
  chord : Track
}.

Definition cells (flags : list Z) : Track := map Some flags.

Definition initialPattern : Pattern :=
  {| kick  := cells [0; 0; 0; 0; 0; 0; 0; 0; 0; 0; 0; 0; 0; 0; 0; 0]%Z;
     snare := cells [0; 0; 0; 0; 0; 0; 0; 0; 0; 0; 0; 0; 0; 0; 0; 0]%Z;
     hihat := cells [0; 0; 0; 0; 0; 0; 0; 0; 0; 0; 0; 0; 0; 0; 0; 0]%Z;
     chord := cells [0; 0; 0; 0; 0; 0; 0; 0; 0; 0; 0; 0; 0; 0; 0; 0]%Z |}.

Definition loFiPreset : Pattern :=
  {| kick  := cells [1; 0; 0; 0; 1; 0; 0; 0; 1; 0; 0; 0; 1; 0; 0; 0]%Z;
     snare := cells [0; 0; 0; 0; 1; 0; 0; 0; 0; 0; 0; 0; 1; 0; 0; 0]%Z;
     hihat := cells [0; 0; 1; 0; 0; 0; 1; 0; 0; 0; 1; 0; 0; 0; 1; 0]%Z;
     chord := cells [1; 0; 0; 0; 0; 0; 0; 0; 1; 0; 0; 0; 0; 0; 0; 0]%Z |}.

Definition trapPreset : Pattern :=
  {| kick  := cells [1; 0; 0; 0; 0; 0; 1; 0; 1; 0; 0; 1; 0; 0; 1; 0]%Z;
     snare := cells [0; 0; 0; 0; 1; 0; 0; 0; 0; 0; 0; 0; 1; 0; 0; 0]%Z;
     hihat := cells [1; 0; 1; 1; 1; 0; 1; 0; 1; 0; 1; 1; 1; 0; 1; 0]%Z;
     chord := cells [0; 0; 0; 0; 1; 0; 0; 0; 0; 0; 0; 0; 1; 0; 0; 0]%Z |}.

Definition jazzPreset : Pattern :=
  {| kick  := cells [1; 0; 0; 0; 0; 0; 0; 1; 0; 0; 1; 0; 0; 0; 0; 0]%Z;
     snare := cells [0; 0; 0; 0; 1; 0; 0; 0; 0; 0; 0; 0; 1; 0; 0; 0]%Z;
     hihat := cells [1; 0; 0; 1; 0; 0; 1; 0; 0; 1; 0; 0; 1; 0; 0; 1]%Z;
     chord := cells [1; 0; 0; 0; 0; 0; 1; 0; 0; 0; 0; 0; 1; 0; 0; 0]%Z |}.

(** What reading a property of an object literal gives: the value of an own
    key, something the object inherits from [Object.prototype] (a function,
    or the prototype itself: truthy, and without the properties of a
    pattern), or [undefined]. *)
Inductive Lookup (A : Type) : Type :=
| Own (a : A)
| Inherited
| Undefined.

Arguments Own {A} a.
Arguments Inherited {A}.
Arguments Undefined {A}.

Definition inherited_names : list string :=
  ["constructor"; "hasOwnProperty"; "isPrototypeOf"; "propertyIsEnumerable";
   "toLocaleString"; "toString"; "valueOf"; "__proto__";
   "__defineGetter__"; "__defineSetter__"; "__lookupGetter__"; "__lookupSetter__"].

(** [presets[name]] *)
Definition presets (name : string) : Lookup Pattern :=
  if String.eqb name "empty" then Own initialPattern
  else if String.eqb name "lofi" then Own loFiPreset
  else if String.eqb name "trap" then Own trapPreset
  else if String.eqb name "jazz" then Own jazzPreset
  else if existsb (String.eqb name) inherited_names then Inherited
  else Undefined.

(** The keys of a pattern.  The functions below take a key of this type:
    what they would do with another string is not modelled. *)
Inductive TrackId : Type := KickId | SnareId | HihatId | ChordId.

Record TrackInfo : Type := { id : TrackId; name : string; color : string }.

Definition tracks : list TrackInfo :=
  [ {| id := KickId;  name := "KICK";   color := "#ff6b6b" |};
    {| id := SnareId; name := "SNARE";  color := "#4ecdc4" |};
    {| id := HihatId; name := "HI-HAT"; color := "#ffe66d" |};
    {| id := ChordId; name := "CHORD";  color := "#a855f7" |} ].

Record Defaults : Type := {
  tempo : Q;
  minTempo : Q;
  maxTempo : Q;
  steps : Z;
  lookahead : Q;
  scheduleAheadTime : Q
}.

Definition defaults : Defaults :=
  {| tempo := 85; minTempo := 60; maxTempo := 180; steps := 16;
     lookahead := 25; scheduleAheadTime := 0.1 |}.

(** [pattern[track]] and [pattern[track] = cells] *)
Definition get (pattern : Pattern) (track : TrackId) : Track :=
  match track with
  | KickId => kick pattern
  | SnareId => snare pattern
  | HihatId => hihat pattern
  | ChordId => chord pattern
  end.

Definition put (pattern : Pattern) (track : TrackId) (t : Track) : Pattern :=
  match track with
  | KickId => {| kick := t; snare := snare pattern; hihat := hihat pattern; chord := chord pattern |}
  | SnareId => {| kick := kick pattern; snare := t; hihat := hihat pattern; chord := chord pattern |}
  | HihatId => {| kick := kick pattern; snare := snare pattern; hihat := t; chord := chord pattern |}
  | ChordId => {| kick := kick pattern; snare := snare pattern; hihat := hihat pattern; chord := t |}
  end.

(** [a[i]], and how it reads as a condition. *)
Definition read (a : Track) (i : nat) : option Z := nth i a None.

Definition truthy (c : option Z) : bool :=
  match c with
  | Some v => negb (v =? 0)%Z
  | None => false
  end.

(** [a[i] = v]: within the array the cell is replaced; past its end the
    array grows to [i + 1] cells, those in between being holes. *)
Definition write (a : Track) (i : nat) (v : Z) : Track :=
  if (i <? List.length a)%nat
  then firstn i a ++ Some v :: skipn (S i) a
  else a ++ repeat None (i - List.length a) ++ [Some v].

(** [[...a]]: the copy has the length and the reads of [a]. *)
Definition spread (a : Track) : Track := a.

(** [clonePattern(pattern)] *)
Definition clonePattern (pattern : Pattern) : Pattern :=
  {| kick := spread (kick pattern);
     snare := spread (snare pattern);
     hihat := spread (hihat pattern);
     chord := spread (chord pattern) |}.

(** [toggleStep(pattern, track, step)] *)
Definition toggleStep (pattern : Pattern) (track : TrackId) (step : nat) : Pattern :=
  let newPattern := clonePattern pattern in
  put newPattern track
    (write (get newPattern track) step
       (if truthy (read (get newPattern track) step) then 0 else 1)%Z).

(** [clearPattern()] *)
Definition clearPattern : Pattern := clonePattern initialPattern.

(** *** Patterns of the sequencer grid *)

(** Four tracks of sixteen cells, each 0 or 1. *)
Definition binary (c : option Z) : Prop := c = Some 0%Z \/ c = Some 1%Z.

Definition grid (p : Pattern) : Prop :=
  forall track, List.length (get p track) = 16%nat /\ Forall binary (get p track).

(** The patterns the exported functions make of the presets. *)
Inductive made : Pattern -> Prop :=
| made_preset (key : string) (p : Pattern) : presets key = Own p -> made p
| made_clone (p : Pattern) : made p -> made (clonePattern p)
| made_clear : made clearPattern
| made_toggle (p : Pattern) (track : TrackId) (step : nat) :
    made p -> (step < 16)%nat -> made (toggleStep p track step).

(** *** The pattern as the engine reads it

    The engine reads a cell only as a condition, where a hole counts as 0. *)
Definition flags (a : Track) : list Z :=
  map (fun c => match c with Some v => v | None => 0%Z end) a.

Definition to_engine (p : Pattern) : AudioEngine.Pattern :=
  {| AudioEngine.kick := flags (kick p);
     AudioEngine.snare := flags (snare p);
     AudioEngine.hihat := flags (hihat p);
     AudioEngine.chord := flags (chord p) |}.

Definition voice_of (track : TrackId) : WebAudio.Voice :=
  match track with
  | KickId => WebAudio.Kick
  | SnareId => WebAudio.Snare
  | HihatId => WebAudio.HiHat
  | ChordId => WebAudio.Chord
  end.

End Constants.

(* ------------------------------------------------------------------------- *)
(** ** App.jsx, with the controls it renders *)
(* ------------------------------------------------------------------------- *)

(** The component is modelled by its state hooks, the object behind
    [audioEngineRef] and its event handlers.  A handler runs on the state of
    the latest render (the callbacks are rebuilt whenever a state they read
    changes, and React renders between two events); state updates requested
    by a handler are in place when it returns.  [initAudio] is [async]: where
    [init()] waits for the promise of [resume()], the call of [initAudio]
    waits with it, holding the pattern of the render it was made in, and
    other handlers run until the promise settles; where [init()] has nothing
    to wait for, [initAudio] goes on in a microtask, before any other
    handler.  [e.preventDefault()] changes nothing that is modelled.  What
    [React.StrictMode] repeats in development is not modelled. *)
Module App.

Import String.
Open Scope string_scope.
Open Scope list_scope.
Open Scope Q_scope.
Open Scope js_scope.

Record Selection : Type := { row : Z; col : Z }.

(** The state hooks. *)
Record State : Type := {
  pattern : Constants.Pattern;
  isPlaying : bool;
  tempo : Q;
  currentStep : Z;
  audioInitialized : bool;
  selectedStep : Selection
}.

Definition setPattern (v : Constants.Pattern) (s : State) : State :=
  {| pattern := v; isPlaying := isPlaying s; tempo := tempo s;
     currentStep := currentStep s; audioInitialized := audioInitialized s;
     selectedStep := selectedStep s |}.

Definition setIsPlaying (v : bool) (s : State) : State :=
  {| pattern := pattern s; isPlaying := v; tempo := tempo s;
     currentStep := currentStep s; audioInitialized := audioInitialized s;
     selectedStep := selectedStep s |}.

Definition setTempo (v : Q) (s : State) : State :=
  {| pattern := pattern s; isPlaying := isPlaying s; tempo := v;
     currentStep := currentStep s; audioInitialized := audioInitialized s;
     selectedStep := selectedStep s |}.

Definition setCurrentStep (v : Z) (s : State) : State :=
  {| pattern := pattern s; isPlaying := isPlaying s; tempo := tempo s;
     currentStep := v; audioInitialized := audioInitialized s;
     selectedStep := selectedStep s |}.

Definition setAudioInitialized (v : bool) (s : State) : State :=
  {| pattern := pattern s; isPlaying := isPlaying s; tempo := tempo s;
     currentStep := currentStep s; audioInitialized := v;
     selectedStep := selectedStep s |}.

Definition setSelectedStep (f : Selection -> Selection) (s : State) : State :=
  {| pattern := pattern s; isPlaying := isPlaying s; tempo := tempo s;
     currentStep := currentStep s; audioInitialized := audioInitialized s;
     selectedStep := f (selectedStep s) |}.

(** The object [audioEngineRef.current] refers to: an [AudioEngine], with
    the [Scheduler] it holds, if any. *)
Record EngineObject : Type := {
  fields : AudioEngine.Fields;
  scheduler : option Scheduler.Fields
}.

(** Everything a handler can touch: the state, the ref, and the host; and the
    calls of [initAudio] that wait for [resume()], each with the [pattern] its
    closure holds. *)
Record Store : Type := {
  state : State;
  audioEngineRef : option EngineObject;
  host : WebAudio.Host;
  timers : Timers;
  waiting : list Constants.Pattern
}.

(** The first render. *)
Definition mount (h : WebAudio.Host) (tm : Timers) : Store :=
  {| state := {| pattern := Constants.initialPattern;
                 isPlaying := false;
                 tempo := 85;
                 currentStep := 0%Z;
                 audioInitialized := false;
                 selectedStep := {| row := 0%Z; col := 0%Z |} |};
     audioEngineRef := None;
     host := h;
     timers := tm;
     waiting := [] |}.

Definition on_state (f : State -> State) : M Store unit :=
  modify (fun st => {| state := f (state st); audioEngineRef := audioEngineRef st;
                       host := host st; timers := timers st;
                       waiting := waiting st |}).

Definition the {A} (f : State -> A) : M Store A := gets (fun st => f (state st)).

(** The engine as its methods see it, for the object [e] in the store [st],
    and the store once a method has left the engine store [r]. *)
Definition engine_store (e : EngineObject) (st : Store) : AudioEngine.Store :=
  {| AudioEngine.world := {| AudioEngine.engine := fields e; AudioEngine.host := host st |};
     AudioEngine.scheduler := scheduler e;
     AudioEngine.timers := timers st |}.

Definition app_store (r : AudioEngine.Store) (st : Store) : Store :=
  {| state := state st;
     audioEngineRef :=
       Some {| fields := AudioEngine.engine (AudioEngine.world r);
               scheduler := AudioEngine.scheduler r |};
     host := AudioEngine.host (AudioEngine.world r);
     timers := AudioEngine.timers r;
     waiting := waiting st |}.

(** [audioEngineRef.current.m(...)]: a [TypeError] when the ref is null. *)
Definition current {A} (m : M AudioEngine.Store A) : M Store A :=
  fun st =>
    match audioEngineRef st with
    | None => Raise TypeError st
    | Some e =>
        match m (engine_store e st) with
        | Done a r => Done a (app_store r st)
        | Raise x r => Raise x (app_store r st)
        | Spin => Spin
        end
    end.

(** [if (audioEngineRef.current) { audioEngineRef.current.m(...) }] *)
Definition if_current (m : M AudioEngine.Store unit) : M Store unit :=
  ref <- gets audioEngineRef ;;
  match ref with
  | Some _ => current m
  | None => skip
  end.

(** [init()] as [initAudio] awaits it: the body of [init()] up to
    [await this.context.resume()], where it waits if the context is suspended
    (the result is then [None]), and the body from there on, once the
    promise is fulfilled (the context then runs) or rejected. *)
Definition init_rest : M AudioEngine.Store unit :=
  (g <- AudioEngine.in_world (AudioEngine.this AudioEngine.masterGain) ;;
   match g with
   | Some _ => skip
   | None => AudioEngine.in_world AudioEngine.setupMasterChain
   end) ;;
  (s <- gets AudioEngine.scheduler ;;
   match s with
   | Some _ => skip
   | None =>
       t <- AudioEngine.in_world (AudioEngine.this AudioEngine.tempo) ;;
       AudioEngine.set_scheduler (Some (Scheduler.constructor (Some t)))
   end).

Definition init_to_await (env : AudioEngine.Env) : M AudioEngine.Store (option bool) :=
  (ctx <- AudioEngine.in_world (AudioEngine.this AudioEngine.context) ;;
   match ctx with
   | Some _ => skip
   | None =>
       if AudioEngine.has_AudioContext env then
         AudioEngine.in_world (AudioEngine.on_engine (AudioEngine.set_context
           (Some {| WebAudio.state := AudioEngine.initial_state env;
                    WebAudio.sampleRate := AudioEngine.hardware_rate env |})))
       else throw TypeError
   end) ;;
  ctx <- AudioEngine.in_world (AudioEngine.this AudioEngine.context) ;;
  match ctx with
  | Some c =>
      match WebAudio.state c with
      | WebAudio.Suspended => ret None
      | _ => init_rest ;; ret (Some true)
      end
  | None => throw TypeError
  end.

Definition init_from_await (fulfilled : bool) : M AudioEngine.Store bool :=
  if fulfilled then
    (ctx <- AudioEngine.in_world (AudioEngine.this AudioEngine.context) ;;
     match ctx with
     | Some c =>
         AudioEngine.in_world (AudioEngine.on_engine (AudioEngine.set_context
           (Some (WebAudio.set_state WebAudio.Running c))))
     | None => throw TypeError
     end) ;;
    init_rest ;;
    ret true
  else throw Rejected.

(** What [initAudio] does with the value of [await init()]; [p] is the
    [pattern] of its closure. *)
Definition initAudio_then (p : Constants.Pattern) (success : bool) : M Store unit :=
  if success then
    current (AudioEngine.setPattern (Some (Constants.to_engine p))) ;;
    on_state (setAudioInitialized true)
  else skip.

(** [initAudio], until it returns or waits. *)
Definition initAudio (env : AudioEngine.Env) : M Store unit :=
  (ref <- gets audioEngineRef ;;
   match ref with
   | Some _ => skip
   | None =>
       modify (fun st =>
         {| state := state st;
            audioEngineRef := Some {| fields := AudioEngine.constructor; scheduler := None |};
            host := host st; timers := timers st; waiting := waiting st |})
   end) ;;
  p <- the pattern ;;
  r <- current (init_to_await env) ;;
  match r with
  | Some success => initAudio_then p success
  | None =>
      modify (fun st =>
        {| state := state st; audioEngineRef := audioEngineRef st;
           host := host st; timers := timers st; waiting := waiting st ++ [p] |})
  end.

(** The [i]-th of the waiting calls of [initAudio] goes on: the promise of
    its [resume()] has settled. *)
Definition initAudio_resumed (i : nat) (fulfilled : bool) : M Store unit :=
  w <- gets waiting ;;
  match nth_error w i with
  | None => skip
  | Some p =>
      modify (fun st =>
        {| state := state st; audioEngineRef := audioEngineRef st;
           host := host st; timers := timers st;
           waiting := firstn i (waiting st) ++ skipn (S i) (waiting st) |}) ;;
      success <- current (init_from_await fulfilled) ;;
      initAudio_then p success
  end.

(** [handlePlayStop]; [now] is the clock reading the engine meets. *)
Definition handlePlayStop (now : Q) : M Store unit :=
  ref <- gets audioEngineRef ;;
  match ref with
  | None => skip
  | Some _ =>
      playing <- the isPlaying ;;
      if playing then
        current AudioEngine.stop ;;
        on_state (setIsPlaying false)
      else
        current (AudioEngine.start now) ;;
        on_state (setIsPlaying true)
  end.

(** [handleTempoChange] *)
Definition handleTempoChange (newTempo : Q) : M Store unit :=
  on_state (setTempo newTempo) ;;
  if_current (AudioEngine.setTempo newTempo).

(** [handlePresetChange] *)
Definition handlePresetChange (presetName : string) : M Store unit :=
  match Constants.presets presetName with
  | Constants.Own newPattern =>
      let clonedPattern :=
        {| Constants.kick := Constants.spread (Constants.kick newPattern);
           Constants.snare := Constants.spread (Constants.snare newPattern);
           Constants.hihat := Constants.spread (Constants.hihat newPattern);
           Constants.chord := Constants.spread (Constants.chord newPattern) |} in
      on_state (setPattern clonedPattern) ;;
      if_current (AudioEngine.setPattern (Some (Constants.to_engine clonedPattern)))
  | Constants.Inherited => throw TypeError   (* [...undefined] *)
  | Constants.Undefined => skip
  end.

(** [handleClear] *)
Definition handleClear : M Store unit :=
  let cleared := Constants.clearPattern in
  on_state (setPattern cleared) ;;
  if_current (AudioEngine.setPattern (Some (Constants.to_engine cleared))).

(** [toggleStep(prevPattern, track, step)] for a number [step]: an index
    names a cell; a negative number names a property of the array object,
    which no reader of the pattern looks at and no copy keeps, so that the
    cells of the new pattern are those of the old one. *)
Definition toggled (prevPattern : Constants.Pattern) (track : Constants.TrackId) (step : Z)
  : Constants.Pattern :=
  if (step <? 0)%Z then Constants.clonePattern prevPattern
  else Constants.toggleStep prevPattern track (Z.to_nat step).

(** [handleToggleStep] *)
Definition handleToggleStep (track : Constants.TrackId) (step : Z) : M Store unit :=
  prevPattern <- the pattern ;;
  let newPattern := toggled prevPattern track step in
  if_current (AudioEngine.setPattern (Some (Constants.to_engine newPattern))) ;;
  on_state (setPattern newPattern).

(** [updateStep], the animation-frame callback. *)
Definition updateStep : M Store unit :=
  ref <- gets audioEngineRef ;;
  match ref with
  | Some e => on_state (setCurrentStep (AudioEngine.currentStep (fields e)))
  | None => skip
  end.

(** [tracks[i]] for a number [i]. *)
Definition track_at (i : Z) : option Constants.TrackInfo :=
  if (i <? 0)%Z then None else nth_error Constants.tracks (Z.to_nat i).

(** [handleKeyDown], for an event with [e.target.tagName] and [e.key]. *)
Definition handleKeyDown (tagName key : string) (now : Q) : M Store unit :=
  if String.eqb tagName "INPUT" || String.eqb tagName "SELECT" then skip
  else if String.eqb key " " then
    ready <- the audioInitialized ;;
    if ready then handlePlayStop now else skip
  else if String.eqb key "c" || String.eqb key "C" then handleClear
  else if String.eqb key "ArrowUp" then
    on_state (setSelectedStep (fun prev => {| row := Z.max 0 (row prev - 1); col := col prev |}))
  else if String.eqb key "ArrowDown" then
    on_state (setSelectedStep (fun prev => {| row := Z.min 3 (row prev + 1); col := col prev |}))
  else if String.eqb key "ArrowLeft" then
    on_state (setSelectedStep (fun prev => {| row := row prev; col := Z.max 0 (col prev - 1) |}))
  else if String.eqb key "ArrowRight" then
    on_state (setSelectedStep (fun prev => {| row := row prev; col := Z.min 15 (col prev + 1) |}))
  else if String.eqb key "Enter" then
    sel <- the selectedStep ;;
    match track_at (row sel) with
    | Some info => handleToggleStep (Constants.id info) (col sel)
    | None => throw TypeError
    end
  else skip.

(** The cleanup of the component: [audioEngineRef.current.destroy()]. *)
Definition unmount : M Store unit := if_current AudioEngine.destroy.

(** The interval timer of the scheduler fires. *)
Definition timerFires (h : positive) (now : Q) : M Store unit :=
  if_current (AudioEngine.tick h now).

(** The store once the state and the engine, if there is one, hold the
    pattern [p]. *)
Definition with_pattern (p : Constants.Pattern) (st : Store) : Store :=
  {| state := setPattern p (state st);
     audioEngineRef :=
       option_map (fun e => {| fields := AudioEngine.set_pattern
                                           (Some (Constants.to_engine p)) (fields e);
                               scheduler := scheduler e |})
                  (audioEngineRef st);
     host := host st; timers := timers st; waiting := waiting st |}.

(** *** What the user can do

    The events of a mounted component. *)
Inductive Event : Type :=
| ClickInitAudio (env : AudioEngine.Env)
| ClickPlayStop (now : Q)
| SlideTempo (value : Q)
| SelectPreset (value : string)
| ClickClear
| ClickStep (track : Constants.TrackId) (index : nat)
| KeyDown (tagName key : string) (now : Q)
| AnimationFrame
| TimerFires (h : positive) (now : Q).

Definition handle (e : Event) : M Store unit :=
  match e with
  | ClickInitAudio env => initAudio env
  | ClickPlayStop now => handlePlayStop now
  | SlideTempo value => handleTempoChange value
  | SelectPreset value => handlePresetChange value
  | ClickClear => handleClear
  | ClickStep track index => handleToggleStep track (Z.of_nat index)
  | KeyDown tagName key now => handleKeyDown tagName key now
  | AnimationFrame => updateStep
  | TimerFires h now => timerFires h now
  end.

(** Whether the rendered component offers the event: [Controls] shows the
    initialise button until audio is initialised and the other controls from
    then on; the tempo slider is a range input between [minTempo] and
    [maxTempo]; the preset menu has four enabled options; a [TrackRow] has
    one button per cell of its track; the frame callback is requested only
    while [isPlaying]. *)
Definition offered (e : Event) (st : Store) : bool :=
  match e with
  | ClickInitAudio _ => negb (audioInitialized (state st))
  | ClickPlayStop _ => audioInitialized (state st)
  | SlideTempo value =>
      audioInitialized (state st)
      && Qle_bool (Constants.minTempo Constants.defaults) value
      && Qle_bool value (Constants.maxTempo Constants.defaults)
  | SelectPreset value =>
      audioInitialized (state st)
      && existsb (String.eqb value) ["lofi"; "trap"; "jazz"; "empty"]
  | ClickClear => audioInitialized (state st)
  | ClickStep track index =>
      (index <? List.length (Constants.get (pattern (state st)) track))%nat
  | KeyDown _ _ _ => true
  | AnimationFrame => isPlaying (state st)
  | TimerFires _ _ => true
  end.

(** The stores a mounted component can be in: it handles the events it
    offers, and the promises its calls of [initAudio] wait for settle, in any
    order, each fulfilled or rejected. *)
Inductive reachable : Store -> Prop :=
| reach_mount (h : WebAudio.Host) (tm : Timers) : reachable (mount h tm)
| reach_event (st st' : Store) (e : Event) :
    reachable st -> offered e st = true ->
    store_of (handle e st) = Some st' -> reachable st'
| reach_resumed (st st' : Store) (i : nat) (fulfilled : bool) :
    reachable st -> (i < List.length (waiting st))%nat ->
    store_of (initAudio_resumed i fulfilled st) = Some st' -> reachable st'.

(** *** What the component keeps in step with the engine *)

Definition in_grid (s : Selection) : Prop :=
  (0 <= row s <= 3)%Z /\ (0 <= col s <= 15)%Z.

Definition mirrored (st : Store) : Prop :=
  in_grid (selectedStep (state st)) /\
  Constants.grid (pattern (state st)) /\
  60 <= tempo (state st) <= 180 /\
  (0 <= currentStep (state st) < 16)%Z /\
  match audioEngineRef st with
  | None =>
      audioInitialized (state st) = false /\ isPlaying (state st) = false /\
      tempo (state st) = AudioEngine.tempo AudioEngine.constructor /\
      waiting st = []
  | Some e =>
      EngineCalls.coherent (engine_store e st) /\
      AudioEngine.tempo (fields e) = tempo (state st) /\
      AudioEngine.isPlaying (fields e) = isPlaying (state st) /\
      (if audioInitialized (state st) then scheduler e <> None else scheduler e = None) /\
      (waiting st = [] \/ AudioEngine.context (fields e) <> None)
  end.

(** [audioEngineRef.current.pattern], where there is an engine. *)
Definition engine_pattern (st : Store) : option (option AudioEngine.Pattern) :=
  option_map (fun e => AudioEngine.pattern (fields e)) (audioEngineRef st).

(** The engine holds the pattern the component shows. *)
Definition in_sync (st : Store) : Prop :=
  engine_pattern st = Some (Some (Constants.to_engine (pattern (state st)))).

(** The events that edit the pattern from a control of the grid or the
    toolbar. *)
Definition edits (e : Event) : bool :=
  match e with
  | SelectPreset _ | ClickClear | ClickStep _ _ => true
  | _ => false
  end.

End App.

(* ------------------------------------------------------------------------- *)
(** * Properties *)
(* ------------------------------------------------------------------------- *)

(** ** Sequencing *)

Lemma bind_done {S A B} (c : M S A) (k : A -> M S B) (s s' : S) (a : A) :
  c s = Done a s' -> bind c k s = k a s'.
Proof. intros H. unfold bind. rewrite H. reflexivity. Qed.

Lemma bind_raise {S A B} (c : M S A) (k : A -> M S B) (s s' : S) (e : exn) :
  c s = Raise e s' -> bind c k s = Raise e s'.
Proof. intros H. unfold bind. rewrite H. reflexivity. Qed.

Lemma bind_inv_done {S A B} (c : M S A) (k : A -> M S B) (s s' : S) (b : B) :
  bind c k s = Done b s' ->
  exists a s1, c s = Done a s1 /\ k a s1 = Done b s'.
Proof.
  unfold bind. destruct (c s) as [a s1 | e s1 |]; [| discriminate | discriminate].
  intros H. exists a, s1. split; [reflexivity | exact H].
Qed.

Lemma bind_store {S A B} (c : M S A) (k : A -> M S B) (s s' : S) :
  store_of (bind c k s) = Some s' ->
  (exists a s1, c s = Done a s1 /\ store_of (k a s1) = Some s') \/
  (exists e, c s = Raise e s').
Proof.
  unfold bind. destruct (c s) as [a s1 | e s1 |]; cbn [store_of]; intros H.
  - left. exists a, s1. split; [reflexivity | exact H].
  - right. exists e. congruence.
  - discriminate.
Qed.

(** ** Sixteenth notes and the step advance *)

Section Advance.

Import Scheduler.
Open Scope Q_scope.

Variable W : Type.

Lemma nextNote_advance (st : Store W) :
  nextNote st =
  Done tt {| self := advance (self st); timers := timers st; world := world st |}.
Proof. reflexivity. Qed.

Lemma sixteenth_closed_form (bpm : Q) :
  calculateSixteenthNoteTime bpm == 15 / bpm.
Proof.
  unfold calculateSixteenthNoteTime, Qdiv.
  setoid_replace (/ 4) with (1 # 4) by reflexivity.
  ring.
Qed.

Lemma sixteenth_positive (bpm : Q) :
  0 < bpm -> 0 < calculateSixteenthNoteTime bpm.
Proof.
  intros Hpos. rewrite sixteenth_closed_form.
  apply Qlt_shift_div_l; [assumption | lra].
Qed.

End Advance.


(** ** The scheduling pass *)

Section Pass.

Import Scheduler.
Open Scope Q_scope.

(** Callbacks that return normally on the worlds that satisfy [ready], and
    keep the world in [ready]: there they are given by their effect. *)
Variable W : Type.
Variable onStep : Z -> M W unit.
Variable onSchedule : Z -> Q -> M W unit.
Variable stepped : Z -> W -> W.
Variable scheduled : Z -> Q -> W -> W.
Variable ready : W -> Prop.

Hypothesis onStep_ready :
  forall k w, ready w -> onStep k w = Done tt (stepped k w) /\ ready (stepped k w).
Hypothesis onSchedule_ready :
  forall k t w, ready w ->
    onSchedule k t w = Done tt (scheduled k t w) /\ ready (scheduled k t w).

Local Abbreviation loop := (scheduler_loop onStep onSchedule).
Local Abbreviation pass := (scheduler onStep onSchedule).
Local Abbreviation round := (round stepped scheduled).
Local Abbreviation rounds := (rounds stepped scheduled).

Lemma round_ready (st : Store W) :
  ready (world st) -> ready (world (round st)).
Proof.
  intros Hr. cbn [Scheduler.round world].
  apply onSchedule_ready, onStep_ready, Hr.
Qed.

Lemma loop_due (n : nat) (now : Q) (st : Store W) :
  ready (world st) ->
  nextNoteTime (self st) < now + scheduleAheadTime (self st) ->
  loop (S n) now st = loop n now (round st).
Proof.
  intros Hr Hdue. cbn [scheduler_loop]. unfold bind at 1 2. cbn [this gets].
  destruct (Qlt_le_dec _ _) as [_ | Hle]; [| exfalso; lra].
  destruct (onStep_ready (currentStep (self st)) Hr) as [Hstep Hr'].
  destruct (onSchedule_ready (currentStep (self st)) (nextNoteTime (self st)) Hr')
    as [Hsched _].
  unfold bind, this, gets, in_world, zoom. cbn [self world timers].
  rewrite Hstep. cbn [self world timers]. rewrite Hsched. reflexivity.
Qed.

Lemma loop_not_due (n : nat) (now : Q) (st : Store W) :
  now + scheduleAheadTime (self st) <= nextNoteTime (self st) ->
  loop (S n) now st = Done tt st.
Proof.
  intros Hle. cbn [scheduler_loop]. unfold bind at 1 2. cbn [this gets].
  destruct (Qlt_le_dec _ _) as [Hlt | _].
  - exfalso. lra.
  - reflexivity.
Qed.

Lemma rounds_succ (n : nat) (st : Store W) :
  rounds (S n) st = round (rounds n st).
Proof.
  revert st. induction n as [| n IH]; intros st.
  - reflexivity.
  - change (rounds (S (S n)) st) with (rounds (S n) (round st)).
    rewrite IH. reflexivity.
Qed.

Lemma rounds_frame (n : nat) (st : Store W) :
  tempo (self (rounds n st)) = tempo (self st) /\
  lookahead (self (rounds n st)) = lookahead (self st) /\
  scheduleAheadTime (self (rounds n st)) = scheduleAheadTime (self st) /\
  isPlaying (self (rounds n st)) = isPlaying (self st) /\
  timerID (self (rounds n st)) = timerID (self st) /\
  timers (rounds n st) = timers st.
Proof.
  revert st. induction n as [| n IH]; intros st.
  - repeat split.
  - cbn [Scheduler.rounds]. destruct (IH (round st)) as (H1 & H2 & H3 & H4 & H5 & H6).
    rewrite H1, H2, H3, H4, H5, H6. repeat split.
Qed.

Lemma rounds_time (n : nat) (st : Store W) :
  nextNoteTime (self (rounds n st)) ==
  nextNoteTime (self st) + inject_Z (Z.of_nat n) * sixteenth st.
Proof.
  revert st. induction n as [| n IH]; intros st.
  - cbn. ring.
  - cbn [Scheduler.rounds]. rewrite IH.
    rewrite Nat2Z.inj_succ. unfold Z.succ. rewrite inject_Z_plus.
    unfold sixteenth. cbn [Scheduler.round self advance set_currentStep set_nextNoteTime tempo nextNoteTime].
    unfold calculateSixteenthNoteTime. ring.
Qed.

Lemma rounds_world (n : nat) (st : Store W) :
  world (rounds n st) =
  perform_all stepped scheduled
    (due_calls (currentStep (self st)) (nextNoteTime (self st)) (sixteenth st) n)
    (world st).
Proof.
  revert st. induction n as [| n IH]; intros st.
  - reflexivity.
  - cbn [Scheduler.rounds due_calls]. rewrite IH. reflexivity.
Qed.

Lemma loop_rounds (n : nat) (now : Q) (st : Store W) :
  ready (world st) ->
  0 < sixteenth st ->
  now + scheduleAheadTime (self st) - nextNoteTime (self st)
    <= inject_Z (Z.of_nat n) * sixteenth st ->
  exists m, (m <= n)%nat /\
    loop (S n) now st = Done tt (rounds m st) /\
    (forall i, (i < m)%nat ->
       nextNoteTime (self (rounds i st)) < now + scheduleAheadTime (self st)) /\
    now + scheduleAheadTime (self st) <= nextNoteTime (self (rounds m st)).
Proof.
  revert st. induction n as [| n IH]; intros st Hr Hd Hn.
  - exists 0%nat. split; [lia |].
    assert (Hle : now + scheduleAheadTime (self st) <= nextNoteTime (self st)).
    { change (inject_Z (Z.of_nat 0)) with 0 in Hn. lra. }
    split; [apply loop_not_due; exact Hle |].
    split; [intros i Hi; lia | exact Hle].
  - destruct (Qlt_le_dec (nextNoteTime (self st)) (now + scheduleAheadTime (self st)))
      as [Hdue | Hle].
    + rewrite (loop_due _ _ Hr Hdue).
      destruct (IH (round st)) as (m & Hm & Hrun & Hbefore & Hafter).
      * apply round_ready, Hr.
      * exact Hd.
      * rewrite Nat2Z.inj_succ in Hn. unfold Z.succ in Hn. rewrite inject_Z_plus in Hn.
        change (sixteenth (round st)) with (sixteenth st).
        cbn [Scheduler.round self advance set_currentStep set_nextNoteTime
             scheduleAheadTime nextNoteTime].
        change (60 / tempo (self st) / 4) with (sixteenth st).
        change (inject_Z 1) with 1 in Hn.
        rewrite Qmult_plus_distr_l, Qmult_1_l in Hn.
        set (a := inject_Z (Z.of_nat n) * sixteenth st) in *.
        lra.
      * exists (S m). split; [lia |].
        split; [exact Hrun |].
        split; [| exact Hafter].
        intros [| i] Hi; [exact Hdue |].
        apply (Hbefore i). lia.
    + exists 0%nat. split; [lia |].
      split; [apply loop_not_due; exact Hle |].
      split; [intros i Hi; lia | exact Hle].
Qed.

Lemma pass_fuel_enough (now : Q) (st : Store W) :
  0 < sixteenth st ->
  now + scheduleAheadTime (self st) - nextNoteTime (self st)
    <= inject_Z (Z.of_nat (pred (pass_fuel now (self st)))) * sixteenth st.
Proof.
  intros Hd. unfold pass_fuel. cbn [pred].
  set (x := now + scheduleAheadTime (self st) - nextNoteTime (self st)).
  fold (sixteenth st).
  assert (Hx : x == x / sixteenth st * sixteenth st).
  { field. lra. }
  rewrite Hx at 1.
  apply Qmult_le_compat_r; [| lra].
  apply Qle_trans with (inject_Z (Qceiling (x / sixteenth st))).
  - apply Qle_ceiling.
  - rewrite <- Zle_Qle. lia.
Qed.

Lemma pass_rounds (now : Q) (st : Store W) :
  ready (world st) ->
  0 < tempo (self st) ->
  exists m,
    pass now st = Done tt (rounds m st) /\
    (forall i, (i < m)%nat ->
       nextNoteTime (self (rounds i st)) < now + scheduleAheadTime (self st)) /\
    now + scheduleAheadTime (self st) <= nextNoteTime (self (rounds m st)).
Proof.
  intros Hr Ht.
  assert (Hd : 0 < sixteenth st) by (apply sixteenth_positive; exact Ht).
  destruct (@loop_rounds (pred (pass_fuel now (self st))) now st Hr Hd
              (@pass_fuel_enough now st Hd)) as (m & _ & Hrun & Hrest).
  exists m. split; [exact Hrun | exact Hrest].
Qed.


Lemma start_running (now : Q) (st : Store W) :
  isPlaying (self st) = true -> start onStep onSchedule now st = Done tt st.
Proof.
  intros Hp. unfold start, bind, this, gets. rewrite Hp. reflexivity.
Qed.

Lemma start_idle (now : Q) (st : Store W) :
  ready (world st) -> 0 < tempo (self st) -> 0 < scheduleAheadTime (self st) ->
  isPlaying (self st) = false ->
  exists m, (1 <= m)%nat /\
    pass now (prepare now st) = Done tt (rounds m (prepare now st)) /\
    start onStep onSchedule now st = Done tt (arm (rounds m (prepare now st))) /\
    (forall i, (i < m)%nat ->
       nextNoteTime (self (rounds i (prepare now st))) < now + scheduleAheadTime (self st)) /\
    now + scheduleAheadTime (self st) <= nextNoteTime (self (rounds m (prepare now st))).
Proof.
  intros Hr Ht Ha Hp.
  destruct (@pass_rounds now (prepare now st) Hr Ht) as (m & Hrun & Hbefore & Hafter).
  exists m.
  assert (Hm : (1 <= m)%nat).
  { destruct m as [| m]; [| lia]. exfalso.
    cbn [Scheduler.rounds prepare self set_nextNoteTime set_isPlaying
         nextNoteTime scheduleAheadTime] in Hafter. lra. }
  split; [exact Hm |]. split; [exact Hrun |].
  split; [| split; [exact Hbefore | exact Hafter]].
  unfold start, bind at 1, this, gets. rewrite Hp.
  unfold bind at 1 2 3. unfold on_self at 1 2. unfold modify at 1 2.
  cbn [self timers world].
  fold (prepare now st). rewrite Hrun. reflexivity.
Qed.

Lemma tick_cleared (h : positive) (now : Q) (st : Store W) :
  armed h (timers st) = false ->
  tick onStep onSchedule h now st = Done tt st.
Proof.
  intros Harmed. unfold tick, bind, gets. rewrite Harmed. reflexivity.
Qed.

End Pass.

(** ** What every method keeps, whatever the callbacks do *)

Section Frame.

Import Scheduler.
Open Scope Q_scope.

Variable W : Type.
Variable onStep : Z -> M W unit.
Variable onSchedule : Z -> Q -> M W unit.
Variable keeps : W -> Prop.

Hypothesis onStep_keeps :
  forall k w w', keeps w -> store_of (onStep k w) = Some w' -> keeps w'.
Hypothesis onSchedule_keeps :
  forall k t w w', keeps w -> store_of (onSchedule k t w) = Some w' -> keeps w'.

Lemma same_control_refl (f : Fields) : same_control f f.
Proof. unfold same_control. tauto. Qed.

Lemma same_control_advance (f f' : Fields) :
  same_control (advance f) f' -> same_control f f'.
Proof.
  unfold same_control. cbn [advance set_currentStep set_nextNoteTime tempo lookahead
    scheduleAheadTime isPlaying timerID currentStep].
  intros (H1 & H2 & H3 & H4 & H5 & H6).
  repeat (split; [assumption |]).
  intros Hk. apply H6.
  rewrite Z.rem_mod_nonneg by lia. apply Z.mod_pos_bound. lia.
Qed.

Lemma loop_frame (fuel : nat) (now : Q) (st st' : Store W) :
  store_of (scheduler_loop onStep onSchedule fuel now st) = Some st' ->
  keeps (world st) ->
  same_control (self st) (self st') /\ timers st' = timers st /\ keeps (world st').
Proof.
  revert st. induction fuel as [| fuel IH]; intros st Hrun Hk; [discriminate |].
  cbn [scheduler_loop] in Hrun.
  cbv beta iota delta [bind this gets in_world zoom skip ret] in Hrun.
  cbn [self world timers] in Hrun.
  destruct (Qlt_le_dec _ _) as [_ | _].
  - destruct (onStep (currentStep (self st)) (world st)) as [[] w1 | e w1 |] eqn:E1.
    + assert (K1 : keeps w1) by (eapply onStep_keeps; [exact Hk | rewrite E1; reflexivity]).
      cbn [self world timers] in Hrun.
      destruct (onSchedule (currentStep (self st)) (nextNoteTime (self st)) w1)
        as [[] w2 | e w2 |] eqn:E2.
      * assert (K2 : keeps w2)
          by (eapply onSchedule_keeps; [exact K1 | rewrite E2; reflexivity]).
        rewrite nextNote_advance in Hrun.
        cbn [self world timers] in Hrun.
        destruct (IH _ Hrun K2) as (Hc & Htm & Hw).
        cbn [self world timers] in Hc, Htm.
        split; [apply same_control_advance; exact Hc |]. split; assumption.
      * injection Hrun as <-. cbn [self world timers].
        split; [apply same_control_refl |]. split; [reflexivity |].
        eapply onSchedule_keeps; [exact K1 | rewrite E2; reflexivity].
      * discriminate.
    + injection Hrun as <-. cbn [self world timers].
      split; [apply same_control_refl |]. split; [reflexivity |].
      eapply onStep_keeps; [exact Hk | rewrite E1; reflexivity].
    + discriminate.
  - injection Hrun as <-.
    split; [apply same_control_refl |]. split; [reflexivity | exact Hk].
Qed.

(** The bound on the loop does not shape its outcome: whenever the loop ends
    within some number of tests, by leaving or by an exception, it ends in the
    same way within any larger number. *)
Lemma loop_fuel_irrelevant (fuel fuel' : nat) (now : Q) (st : Store W) :
  (fuel <= fuel')%nat ->
  scheduler_loop onStep onSchedule fuel now st <> Spin ->
  scheduler_loop onStep onSchedule fuel' now st
  = scheduler_loop onStep onSchedule fuel now st.
Proof.
  revert fuel' st. induction fuel as [| fuel IH]; intros fuel' st Hle Hrun.
  - exfalso. apply Hrun. reflexivity.
  - destruct fuel' as [| fuel']; [lia |].
    cbn [scheduler_loop] in *.
    cbv beta iota delta [bind this gets in_world zoom skip ret] in *.
    cbn [self world timers] in *.
    destruct (Qlt_le_dec _ _) as [_ | _]; [| reflexivity].
    destruct (onStep (currentStep (self st)) (world st)) as [[] w1 | e w1 |];
      [| reflexivity | reflexivity].
    cbn [self world timers] in *.
    destruct (onSchedule (currentStep (self st)) (nextNoteTime (self st)) w1)
      as [[] w2 | e w2 |]; [| reflexivity | reflexivity].
    rewrite nextNote_advance in *. cbn [self world timers] in *.
    apply IH; [lia | exact Hrun].
Qed.

Lemma same_control_consistent (f f' : Fields) :
  same_control f f' -> consistent f -> consistent f'.
Proof.
  unfold same_control, consistent.
  intros (H1 & H2 & H3 & H4 & H5 & H6) (C1 & C2 & C3 & C4).
  rewrite H2, H3, H4, H5. auto.
Qed.

Lemma pass_frame (now : Q) (st st' : Store W) :
  store_of (scheduler onStep onSchedule now st) = Some st' ->
  keeps (world st) ->
  same_control (self st) (self st') /\ timers st' = timers st /\ keeps (world st').
Proof. unfold scheduler. apply loop_frame. Qed.

Lemma start_frame (now : Q) (st st' : Store W) :
  store_of (start onStep onSchedule now st) = Some st' ->
  keeps (world st) ->
  keeps (world st') /\
  (consistent (self st) -> consistent (self st')) /\
  isPlaying (self st') = true /\
  tempo (self st') = tempo (self st).
Proof.
  intros Hrun Hk. unfold start in Hrun.
  cbv beta iota delta [bind this gets] in Hrun.
  destruct (isPlaying (self st)) eqn:Hp.
  - injection Hrun as <-.
    split; [exact Hk |]. split; [auto |]. split; [exact Hp | reflexivity].
  - cbv beta iota delta [on_self modify in_timers zoom setInterval] in Hrun.
    cbn [self world timers] in Hrun.
    destruct (scheduler onStep onSchedule now _) as [[] s1 | e s1 |] eqn:E;
      cbn [store_of] in Hrun; [| | discriminate].
    + destruct (@pass_frame now (prepare now st) s1) as ((H1 & H2 & H3 & H4 & H5 & H6) & _ & Hw).
      { unfold prepare. rewrite E. reflexivity. }
      { exact Hk. }
      cbn [prepare self set_nextNoteTime set_isPlaying tempo lookahead scheduleAheadTime
           isPlaying timerID currentStep] in H1, H2, H3, H4, H5, H6.
      injection Hrun as <-. cbn [self world set_timerID isPlaying tempo].
      split; [exact Hw |]. split; [| split; [exact H4 | exact H1]].
      unfold consistent.
      cbn [set_timerID lookahead scheduleAheadTime currentStep isPlaying timerID].
      intros (C1 & C2 & C3 & C4). rewrite H2, H3, H4.
      repeat split; try tauto; try discriminate; apply H6; exact C3.
    + destruct (@pass_frame now (prepare now st) s1) as ((H1 & H2 & H3 & H4 & H5 & H6) & _ & Hw).
      { unfold prepare. rewrite E. reflexivity. }
      { exact Hk. }
      cbn [prepare self set_nextNoteTime set_isPlaying tempo lookahead scheduleAheadTime
           isPlaying timerID currentStep] in H1, H2, H3, H4, H5, H6.
      injection Hrun as <-.
      split; [exact Hw |]. split; [| split; [exact H4 | exact H1]].
      unfold consistent.
      intros (C1 & C2 & C3 & C4). rewrite H2, H3, H4.
      repeat split; try tauto; try discriminate; apply H6; exact C3.
Qed.

Lemma stop_result (st : Store W) :
  exists st',
    stop st = Done tt st' /\
    isPlaying (self st') = false /\ timerID (self st') = None /\
    tempo (self st') = tempo (self st) /\
    lookahead (self st') = lookahead (self st) /\
    scheduleAheadTime (self st') = scheduleAheadTime (self st) /\
    currentStep (self st') = currentStep (self st) /\
    nextNoteTime (self st') = nextNoteTime (self st) /\
    world st' = world st /\
    next_handle (timers st') = next_handle (timers st) /\
    (forall h, timerID (self st) = Some h -> armed h (timers st') = false) /\
    (forall h, timerID (self st) <> Some h ->
       armed h (timers st') = armed h (timers st)).
Proof.
  unfold stop. cbv beta iota delta [bind this gets on_self modify].
  cbn [self world timers set_isPlaying timerID].
  destruct (timerID (self st)) as [h |] eqn:Hid.
  - eexists. split; [reflexivity |].
    cbn [self world timers set_isPlaying set_timerID isPlaying timerID tempo lookahead
         scheduleAheadTime currentStep nextNoteTime next_handle].
    repeat (split; [reflexivity |]).
    unfold armed. cbn [active]. split.
    + intros h' [= <-].
      induction (active (timers st)) as [| i l IH]; [reflexivity |].
      cbn [filter]. destruct (Pos.eqb (handle i) h) eqn:Eh; cbn [negb existsb].
      * exact IH.
      * rewrite Eh. exact IH.
    + intros h' Hne.
      assert (Hh : h' <> h) by congruence.
      induction (active (timers st)) as [| i l IH]; [reflexivity |].
      cbn [filter existsb]. destruct (Pos.eqb (handle i) h) eqn:Eh; cbn [negb existsb].
      * apply Pos.eqb_eq in Eh. rewrite IH.
        destruct (Pos.eqb (handle i) h') eqn:Eh'; [| reflexivity].
        apply Pos.eqb_eq in Eh'. congruence.
      * rewrite IH. reflexivity.
  - eexists. split; [reflexivity |].
    cbn [self world timers set_isPlaying isPlaying timerID tempo lookahead
         scheduleAheadTime currentStep nextNoteTime].
    repeat (split; [first [reflexivity | exact Hid] |]).
    split; [intros h [=] | reflexivity].
Qed.

Lemma call_frame (m : Method) (st st' : Store W) :
  store_of (call onStep onSchedule m st) = Some st' ->
  keeps (world st) -> consistent (self st) ->
  consistent (self st') /\ keeps (world st').
Proof.
  intros Hrun Hk Hc. destruct m as [t | | now | now | | | | h now]; cbn [call] in Hrun.
  - injection Hrun as <-. split; [| exact Hk]. exact Hc.
  - rewrite nextNote_advance in Hrun. injection Hrun as <-. split; [| exact Hk].
    apply same_control_consistent with (f := self st); [| exact Hc].
    apply same_control_advance, same_control_refl.
  - destruct (pass_frame _ _ Hrun Hk) as (Hs & _ & Hw).
    split; [eapply same_control_consistent; eassumption | exact Hw].
  - destruct (start_frame _ _ Hrun Hk) as (Hw & Hcc & _).
    split; [apply Hcc, Hc | exact Hw].
  - destruct (stop_result st) as (s1 & E & Hp & Hid & _ & H2 & H3 & H4 & _ & Hw & _).
    rewrite E in Hrun. injection Hrun as <-. rewrite Hw. split; [| exact Hk].
    destruct Hc as (C1 & C2 & C3 & C4). unfold consistent.
    rewrite H2, H3, H4. auto.
  - injection Hrun as <-. split; [| exact Hk].
    destruct Hc as (C1 & C2 & C3 & C4). unfold consistent.
    cbn. repeat split; auto; lia.
  - destruct (stop_result st) as (s1 & E & Hp & Hid & _ & H2 & H3 & H4 & _ & Hw & _).
    unfold destroy in Hrun.
    rewrite E in Hrun. injection Hrun as <-. rewrite Hw. split; [| exact Hk].
    destruct Hc as (C1 & C2 & C3 & C4). unfold consistent.
    rewrite H2, H3, H4. auto.
  - unfold tick in Hrun. cbv beta iota delta [bind gets] in Hrun.
    destruct (armed h (timers st)).
    + destruct (pass_frame _ _ Hrun Hk) as (Hs & _ & Hw).
      split; [eapply same_control_consistent; eassumption | exact Hw].
    + injection Hrun as <-. split; assumption.
Qed.

End Frame.

Section Reachable.

Import Scheduler.
Open Scope Q_scope.

Variable W : Type.
Variable onStep : Z -> M W unit.
Variable onSchedule : Z -> Q -> M W unit.

Lemma constructor_consistent (tempo_opt : option Q) :
  consistent (constructor tempo_opt).
Proof.
  unfold consistent. cbn. repeat split; try reflexivity; lia.
Qed.

Lemma reachable_consistent (st : Store W) :
  reachable onStep onSchedule st -> consistent (self st).
Proof.
  induction 1 as [tempo_opt tm w | st st' m _ IH Hcall | st tm w _ IH].
  - apply constructor_consistent.
  - apply (@call_frame W onStep onSchedule (fun _ => True)
             (fun _ _ _ _ _ => I) (fun _ _ _ _ _ _ => I) m st st' Hcall I IH).
  - exact IH.
Qed.

End Reachable.


(* ------------------------------------------------------------------------- *)
(** ** In binary64: the sixteenth note, and the order of the steps *)
(* ------------------------------------------------------------------------- *)

Section Pass64.

Import Scheduler64.

Variable W : Type.
Variable ready : W -> Prop.
Variable onStep : Z -> M W unit.
Variable onSchedule : Z -> PrimFloat.float -> M W unit.
Variable stepped : Z -> W -> W.
Variable scheduled : Z -> PrimFloat.float -> W -> W.

Hypothesis onStep_effect : step_effect ready onStep stepped.
Hypothesis onSchedule_effect : schedule_effect ready onSchedule scheduled.

Lemma loop64_stop (fuel : nat) (now : PrimFloat.float) (st : Store W) :
  due now (self st) = false ->
  scheduler onStep onSchedule (S fuel) now st = Done tt st.
Proof.
  destruct st as [f w]. unfold due. cbn [self]. intros H.
  cbn [scheduler]. unfold bind, this, gets. cbn [self]. rewrite H. reflexivity.
Qed.

Lemma loop64_step (fuel : nat) (now : PrimFloat.float) (f : Fields) (w : W) :
  ready w -> due now f = true ->
  scheduler onStep onSchedule (S fuel) now {| self := f; world := w |}
  = scheduler onStep onSchedule fuel now
      {| self := advance f;
         world := scheduled (currentStep f) (nextNoteTime f) (stepped (currentStep f) w) |}
  /\ ready (scheduled (currentStep f) (nextNoteTime f) (stepped (currentStep f) w)).
Proof.
  intros Hr H. unfold due in H.
  destruct (onStep_effect (currentStep f) Hr) as [Hs Hr1].
  destruct (onSchedule_effect (currentStep f) (nextNoteTime f) Hr1) as [Hc Hr2].
  split; [| exact Hr2].
  cbn [scheduler]. unfold bind at 1, this at 1, gets. cbn [self].
  unfold bind at 1, this at 1, gets. cbn [self]. rewrite H.
  unfold bind at 1. unfold bind at 1, this at 1, gets, in_world, zoom. cbn [self world].
  rewrite Hs.
  unfold bind at 1. unfold bind at 1, this at 1, gets. cbn [self].
  unfold bind at 1, this at 1, gets. cbn [self world]. rewrite Hc.
  reflexivity.
Qed.

Lemma pass64_returns (now : PrimFloat.float) (m : nat) :
  forall (fuel : nat) (f : Fields) (w : W),
    ready w ->
    (forall i, (i < m)%nat -> due now (advances i f) = true) ->
    due now (advances m f) = false ->
    (m < fuel)%nat ->
    scheduler onStep onSchedule fuel now {| self := f; world := w |}
    = Done tt {| self := advances m f;
                 world := perform_all stepped scheduled (due_calls f m) w |}
    /\ ready (perform_all stepped scheduled (due_calls f m) w).
Proof.
  induction m as [| m IH]; intros fuel f w Hr Hdue Hstop Hfuel;
    (destruct fuel as [| fuel]; [lia |]).
  - split; [| exact Hr]. apply loop64_stop. exact Hstop.
  - destruct (@loop64_step fuel now f w Hr (Hdue 0%nat ltac:(lia))) as [-> Hr2].
    cbn [advances due_calls perform_all fold_left perform] in *.
    apply IH; [exact Hr2 | | exact Hstop | lia].
    intros i Hi. apply (Hdue (S i)). lia.
Qed.

Lemma pass64_spins (now : PrimFloat.float) :
  forall (fuel : nat) (f : Fields) (w : W),
    ready w ->
    (forall i, due now (advances i f) = true) ->
    scheduler onStep onSchedule fuel now {| self := f; world := w |} = Spin.
Proof.
  induction fuel as [| fuel IH]; intros f w Hr Hdue; [reflexivity |].
  destruct (@loop64_step fuel now f w Hr (Hdue 0%nat)) as [-> Hr2].
  apply IH; [exact Hr2 |]. intros i. apply (Hdue (S i)).
Qed.

Lemma pass64_outcome (now : PrimFloat.float) :
  forall (fuel : nat) (f : Fields) (w : W),
    ready w ->
    scheduler onStep onSchedule fuel now {| self := f; world := w |} = Spin \/
    exists m,
      (m < fuel)%nat /\
      scheduler onStep onSchedule fuel now {| self := f; world := w |}
      = Done tt {| self := advances m f;
                   world := perform_all stepped scheduled (due_calls f m) w |} /\
      (forall i, (i < m)%nat -> due now (advances i f) = true) /\
      due now (advances m f) = false /\
      ready (perform_all stepped scheduled (due_calls f m) w).
Proof.
  induction fuel as [| fuel IH]; intros f w Hr; [left; reflexivity |].
  destruct (due now f) eqn:Hd.
  - destruct (@loop64_step fuel now f w Hr Hd) as [-> Hr2].
    destruct (IH (advance f) _ Hr2) as [Hspin | (m & Hm & Hrun & Hdue & Hstop & Hr3)];
      [left; exact Hspin | right].
    exists (S m). split; [lia |]. split; [exact Hrun |].
    split; [| split; [exact Hstop | exact Hr3]].
    intros [| i] Hi; [exact Hd | apply Hdue; lia].
  - right. exists 0%nat. split; [lia |].
    split; [apply (@loop64_stop fuel now {| self := f; world := w |}); exact Hd |].
    split; [intros i Hi; lia | split; [exact Hd | exact Hr]].
Qed.

End Pass64.

Section Order64.

Import Scheduler64.

Lemma advances_frame (n : nat) :
  forall f : Fields,
    tempo (advances n f) = tempo f /\
    scheduleAheadTime (advances n f) = scheduleAheadTime f /\
    lookahead (advances n f) = lookahead f /\
    isPlaying (advances n f) = isPlaying f /\
    timerID (advances n f) = timerID f.
Proof.
  induction n as [| n IH]; intros f; [repeat split |].
  cbn [advances]. destruct (IH (advance f)) as (H1 & H2 & H3 & H4 & H5).
  rewrite H1, H2, H3, H4, H5. repeat split.
Qed.

Lemma advances_step (n : nat) :
  forall f : Fields,
    (0 <= currentStep f < 16)%Z ->
    currentStep (advances n f) = ((currentStep f + Z.of_nat n) mod 16)%Z.
Proof.
  induction n as [| n IH]; intros f Hk.
  - cbn [advances]. rewrite Z.add_0_r, Z.mod_small by exact Hk. reflexivity.
  - cbn [advances].
    assert (Hk1 : currentStep (advance f) = ((currentStep f + 1) mod 16)%Z).
    { cbn. apply Z.rem_mod_nonneg; lia. }
    rewrite IH by (rewrite Hk1; apply Z.mod_pos_bound; lia).
    rewrite Hk1, Zplus_mod_idemp_l. f_equal. lia.
Qed.

Lemma nth_calls_shift (f : Fields) (i : nat) :
  (0 <= currentStep f < 16)%Z ->
  nth_calls f (S i) = nth_calls (advance f) i.
Proof.
  intros Hk. unfold nth_calls. cbn [advances].
  assert (Hk1 : currentStep (advance f) = ((currentStep f + 1) mod 16)%Z).
  { cbn. apply Z.rem_mod_nonneg; lia. }
  rewrite Hk1, Zplus_mod_idemp_l.
  replace (currentStep f + 1 + Z.of_nat i)%Z with (currentStep f + Z.of_nat (S i))%Z by lia.
  reflexivity.
Qed.

Lemma due_calls_in_step_order (n : nat) :
  forall f : Fields,
    (0 <= currentStep f < 16)%Z -> due_calls f n = in_step_order f n.
Proof.
  induction n as [| n IH]; intros f Hk; [reflexivity |].
  unfold in_step_order. cbn [seq flat_map due_calls].
  rewrite <- seq_shift, flat_map_concat_map, map_map.
  rewrite (map_ext _ (nth_calls (advance f)))
    by (intros i; apply nth_calls_shift; exact Hk).
  rewrite <- flat_map_concat_map. fold (in_step_order (advance f) n).
  rewrite <- IH.
  - unfold nth_calls at 1. cbn [advances app]. rewrite Z.add_0_r, Z.mod_small by exact Hk.
    reflexivity.
  - cbn. rewrite Z.rem_mod_nonneg by lia. apply Z.mod_pos_bound. lia.
Qed.

Lemma in_step_order_app (f : Fields) (n m : nat) :
  in_step_order f (n + m) = in_step_order f n ++ flat_map (nth_calls f) (seq n m).
Proof. unfold in_step_order. rewrite seq_app, flat_map_app. reflexivity. Qed.

Lemma same_step_later (f f1 : Fields) (n m : nat) :
  (0 <= currentStep f < 16)%Z ->
  currentStep f1 = ((currentStep f + Z.of_nat n) mod 16)%Z ->
  Forall2 same_step (in_step_order f1 m) (flat_map (nth_calls f) (seq n m)).
Proof.
  intros Hk H1. unfold in_step_order.
  assert (G : forall a, Forall2 same_step (flat_map (nth_calls f1) (seq a m))
                          (flat_map (nth_calls f) (seq (a + n) m))).
  { induction m as [| m IH]; intros a; [constructor |].
    cbn [seq flat_map]. unfold nth_calls at 1 3. cbn [app].
    assert (E : ((currentStep f1 + Z.of_nat a) mod 16
                 = (currentStep f + Z.of_nat (a + n)) mod 16)%Z).
    { rewrite H1, Zplus_mod_idemp_l. f_equal. lia. }
    constructor; [exact E |]. constructor; [exact E |].
    apply (IH (S a)). }
  apply (G 0%nat).
Qed.

Lemma same_step_trans (a b c : list Call) :
  Forall2 same_step a b -> Forall2 same_step b c -> Forall2 same_step a c.
Proof.
  intros Hab. revert c. induction Hab as [| x y a b Hxy _ IH]; intros c Hbc;
    inversion Hbc as [| y' z b' c' Hyz Hrest]; subst; constructor.
  - destruct x, y, z; cbn in *; congruence || contradiction.
  - apply IH. exact Hrest.
Qed.

Lemma last_head (A : Type) (l : list A) (y d : A) : last (y :: l) d = last l y.
Proof.
  revert y d. induction l as [| z l IH]; intros y d; [reflexivity |].
  change (last (y :: z :: l) d) with (last (z :: l) d).
  rewrite (IH z d), (IH z y). reflexivity.
Qed.

Lemma same_step_refl (cs : list Call) : Forall2 same_step cs cs.
Proof.
  induction cs as [| [k | k t] cs IH]; constructor; try exact IH; reflexivity.
Qed.

Lemma perform_all64_app (W : Type) (stepped : Z -> W -> W)
    (scheduled : Z -> PrimFloat.float -> W -> W) (a b : list Call) (w : W) :
  perform_all stepped scheduled (a ++ b) w
  = perform_all stepped scheduled b (perform_all stepped scheduled a w).
Proof. unfold perform_all. apply fold_left_app. Qed.

Lemma due_calls_when_due (now : PrimFloat.float) (m : nat) :
  forall f : Fields,
    (forall i, (i < m)%nat -> due now (advances i f) = true) ->
    Forall (scheduled_when_due [now] (scheduleAheadTime f)) (due_calls f m).
Proof.
  induction m as [| m IH]; intros f Hdue; [constructor |].
  cbn [due_calls]. constructor; [exact I |]. constructor.
  - exists now. split; [left; reflexivity | exact (Hdue 0%nat ltac:(lia))].
  - replace (scheduleAheadTime f) with (scheduleAheadTime (advance f)) by reflexivity.
    apply IH. intros i Hi. apply (Hdue (S i)). lia.
Qed.

Lemma scheduled_when_due_more (nows nows' : list PrimFloat.float) (ahead : PrimFloat.float)
    (cs : list Call) :
  (forall now, In now nows -> In now nows') ->
  Forall (scheduled_when_due nows ahead) cs ->
  Forall (scheduled_when_due nows' ahead) cs.
Proof.
  intros Hsub H. induction H as [| c cs Hc _ IH]; constructor; [| exact IH].
  destruct c as [k | k t]; [exact I |].
  destruct Hc as (now & Hin & Hlt). exists now. split; [apply Hsub, Hin | exact Hlt].
Qed.

Variable W : Type.
Variable ready : W -> Prop.
Variable onStep : Z -> M W unit.
Variable onSchedule : Z -> PrimFloat.float -> M W unit.
Variable stepped : Z -> W -> W.
Variable scheduled : Z -> PrimFloat.float -> W -> W.

Hypothesis onStep_effect : step_effect ready onStep stepped.
Hypothesis onSchedule_effect : schedule_effect ready onSchedule scheduled.

(** A session of passes and tempo changes: what it has emitted when it
    returns. *)
Lemma play64_outcome (fuel : nat) (session : list Happening) :
  forall st : Store W,
    ready (world st) ->
    (0 <= currentStep (self st) < 16)%Z ->
    play onStep onSchedule fuel session st = Spin \/
    exists n cs st',
      play onStep onSchedule fuel session st = Done tt st' /\
      world st' = perform_all stepped scheduled cs (world st) /\
      Forall2 same_step cs (in_step_order (self st) n) /\
      currentStep (self st') = ((currentStep (self st) + Z.of_nat n) mod 16)%Z /\
      Forall (scheduled_when_due (readings session) (scheduleAheadTime (self st))) cs /\
      scheduleAheadTime (self st') = scheduleAheadTime (self st) /\
      (forall d, (readings session = [] -> due d (self st) = false) ->
         due (last (readings session) d) (self st') = false) /\
      ready (world st').
Proof.
  induction session as [| e rest IH]; intros st Hr Hk.
  - right. exists 0%nat, [], st. split; [reflexivity |]. split; [reflexivity |].
    split; [constructor |]. split.
    { rewrite Z.add_0_r, Z.mod_small by exact Hk. reflexivity. }
    split; [constructor |]. split; [reflexivity |].
    split; [intros d H; exact (H eq_refl) | exact Hr].
  - destruct e as [now | bpm]; cbn [play forEach happen]; unfold bind.
    + destruct st as [f w]. cbn [self world] in *.
      destruct (@pass64_outcome W ready onStep onSchedule stepped scheduled
                  onStep_effect onSchedule_effect now fuel f w Hr)
        as [-> | (m & _ & -> & Hdue & Hstop & Hr1)]; [left; reflexivity |].
      destruct (advances_frame m f) as (_ & Fa & _).
      assert (Hk1 : (0 <= currentStep (advances m f) < 16)%Z).
      { rewrite advances_step by exact Hk. apply Z.mod_pos_bound. lia. }
      destruct (IH {| self := advances m f;
                      world := perform_all stepped scheduled (due_calls f m) w |} Hr1 Hk1)
        as [Hspin | (n & cs & st' & Hrun & Hw & Ho & Hs & Hd & Ha & Hl & Hr2)];
        [left; exact Hspin | right].
      cbn [self world] in *.
      exists (m + n)%nat, (due_calls f m ++ cs), st'.
      split; [exact Hrun |].
      split; [rewrite Hw, perform_all64_app; reflexivity |].
      split.
      { rewrite in_step_order_app. apply Forall2_app.
        - rewrite due_calls_in_step_order by exact Hk. apply same_step_refl.
        - apply (same_step_trans Ho).
          apply same_step_later; [exact Hk | apply advances_step; exact Hk]. }
      split.
      { rewrite Hs, advances_step by exact Hk. rewrite Zplus_mod_idemp_l. f_equal. lia. }
      split.
      { apply Forall_app. split.
        - apply (@scheduled_when_due_more [now]);
            [intros x [<- | []]; left; reflexivity |].
          apply due_calls_when_due. exact Hdue.
        - rewrite Fa in Hd. revert Hd.
          apply scheduled_when_due_more. intros x Hx. right. exact Hx. }
      split; [rewrite Ha; exact Fa |].
      split; [| exact Hr2].
      intros d _. cbn [readings].
      rewrite last_head.
      apply Hl. intros _. exact Hstop.
    + destruct st as [f w]. cbn [self world] in *.
      unfold setTempo, on_self, modify. cbn [self world].
      destruct (IH {| self := set_tempo bpm f; world := w |} Hr Hk)
        as [Hspin | (n & cs & st' & Hrun & Hw & Ho & Hs & Hd & Ha & Hl & Hr2)];
        [left; exact Hspin | right].
      cbn [self world] in *.
      exists n, cs, st'.
      split; [exact Hrun |]. split; [exact Hw |].
      split.
      { apply (same_step_trans Ho).
        apply (@same_step_later f (set_tempo bpm f) 0 n Hk).
        cbn. rewrite Z.add_0_r, Z.mod_small by exact Hk. reflexivity. }
      split; [exact Hs |]. split; [exact Hd |]. split; [exact Ha |].
      split; [| exact Hr2].
      intros d Hd0. apply Hl. exact Hd0.
Qed.

End Order64.

Section Sixteenth64.

Import Scheduler64.

Lemma nextNote64_advance (W : Type) (st : Store W) :
  nextNote st = Done tt {| self := advance (self st); world := world st |}.
Proof. destruct st as [f w]. reflexivity. Qed.

(** The sixteenth-note time of a whole tempo, against the exact quotient. *)
Lemma sixteenth_accurate (n : Z) :
  (60 <= n <= 180)%Z ->
  exists q,
    to_Q (calculateSixteenthNoteTime (of_Z n)) = Some q /\
    Qabs (q - 15 / inject_Z n) <= (15 / inject_Z n) * (1 # 9007199254740992).
Proof.
  intros Hn.
  set (ok := fun k : nat =>
               match to_Q (calculateSixteenthNoteTime (of_Z (Z.of_nat k))) with
               | Some q =>
                   Qle_bool (Qabs (q - 15 / inject_Z (Z.of_nat k)))
                            ((15 / inject_Z (Z.of_nat k)) * (1 # 9007199254740992))
               | None => false
               end).
  assert (Hall : forallb ok (seq 60 121) = true) by (vm_compute; reflexivity).
  rewrite forallb_forall in Hall.
  specialize (Hall (Z.to_nat n)).
  assert (Hin : In (Z.to_nat n) (seq 60 121)) by (apply in_seq; lia).
  specialize (Hall Hin). unfold ok in Hall. rewrite Z2Nat.id in Hall by lia.
  destruct (to_Q (calculateSixteenthNoteTime (of_Z n))) as [q |]; [| discriminate Hall].
  exists q. split; [reflexivity |]. apply Qle_bool_iff. exact Hall.
Qed.

End Sixteenth64.

Section StepsInOrder64.

Import PrimFloat.
Local Open Scope float_scope.
#[local] Set Warnings "-inexact-float".

(** C3.  In the arithmetic of the code, binary64: the sixteenth-note time is
    the quotient [(60 / bpm) / 4]; at 120 it is exactly 0.125, at 85 it is
    0.17647058823529413, which is 0.17647 up to three decimals, and for every
    whole tempo from 60 to 180 it is the exact value [15 / bpm] up to a
    relative error of [2^-53], one rounding.  A step advance ([nextNote()])
    returns normally, moves the step by one and makes [nextNoteTime] the
    sum, rounded once, of [nextNoteTime] and the sixteenth-note time of the
    tempo the scheduler holds at that moment: after [setTempo(bpm)], that of
    [bpm]. *)
Theorem C3_sixteenth_note_time :
  (forall bpm, Scheduler64.calculateSixteenthNoteTime bpm = (60 / bpm) / 4) /\
  Scheduler64.calculateSixteenthNoteTime 120 = 0.125 /\
  Scheduler64.calculateSixteenthNoteTime 85 = 0.17647058823529413 /\
  (exists q, Scheduler64.to_Q (Scheduler64.calculateSixteenthNoteTime 85) = Some q /\
             (Qabs (q - 0.17647) < 0.0005)%Q) /\
  (forall n : Z, (60 <= n <= 180)%Z ->
     exists q,
       Scheduler64.to_Q (Scheduler64.calculateSixteenthNoteTime (Scheduler64.of_Z n))
         = Some q /\
       (Qabs (q - 15 / inject_Z n) <= (15 / inject_Z n) * (1 # 9007199254740992))%Q) /\
  (forall (W : Type) (st : Scheduler64.Store W),
     exists st',
       Scheduler64.nextNote st = Done tt st' /\
       Scheduler64.nextNoteTime (Scheduler64.self st')
         = Scheduler64.nextNoteTime (Scheduler64.self st)
           + Scheduler64.calculateSixteenthNoteTime
               (Scheduler64.tempo (Scheduler64.self st)) /\
       Scheduler64.currentStep (Scheduler64.self st')
         = Z.rem (Scheduler64.currentStep (Scheduler64.self st) + 1) 16 /\
       Scheduler64.tempo (Scheduler64.self st') = Scheduler64.tempo (Scheduler64.self st) /\
       Scheduler64.world st' = Scheduler64.world st) /\
  (forall (bpm : float) (W : Type) (st : Scheduler64.Store W),
     exists st1 st2,
       Scheduler64.setTempo bpm st = Done tt st1 /\
       Scheduler64.nextNote st1 = Done tt st2 /\
       Scheduler64.nextNoteTime (Scheduler64.self st2)
         = Scheduler64.nextNoteTime (Scheduler64.self st)
           + Scheduler64.calculateSixteenthNoteTime bpm).
Proof.
  split; [intros bpm; reflexivity |].
  split; [vm_compute; reflexivity |].
  split; [vm_compute; reflexivity |].
  split.
  { eexists. split; [vm_compute; reflexivity |]. vm_compute. reflexivity. }
  split; [exact sixteenth_accurate |].
  split.
  - intros W st. eexists. rewrite nextNote64_advance.
    split; [reflexivity |]. repeat split.
  - intros bpm W st. do 2 eexists.
    split; [reflexivity |]. rewrite nextNote64_advance.
    split; reflexivity.
Qed.

Lemma C3_sixteenth_note_time_witness :
  exists st',
    Scheduler64.nextNote
      {| Scheduler64.self :=
           Scheduler64.set_nextNoteTime 0.3 (Scheduler64.constructor (Some 100));
         Scheduler64.world := tt |} = Done tt st' /\
    Scheduler64.nextNoteTime (Scheduler64.self st') = 0.44999999999999996 /\
    Scheduler64.currentStep (Scheduler64.self st') = 1%Z.
Proof.
  destruct (proj1 (proj2 (proj2 (proj2 (proj2 (proj2 C3_sixteenth_note_time)))))
              unit
              {| Scheduler64.self :=
                   Scheduler64.set_nextNoteTime 0.3 (Scheduler64.constructor (Some 100));
                 Scheduler64.world := tt |})
    as (st' & Hrun & Htime & Hstep & _).
  exists st'. split; [exact Hrun |]. split; [rewrite Htime | rewrite Hstep]; reflexivity.
Defined.

(** C1.  Let the callbacks return normally, and let the numbers be the
    binary64 values of the code.
    - One scheduling pass takes the steps in order: while the note at
      [nextNoteTime] is due ([nextNoteTime < now + scheduleAheadTime], as the
      code computes and compares them) it invokes [onStep] and then
      [onSchedule] for the current step, and advances.  If the notes of the
      first [m] advances are due and the next one is not, the pass returns
      having invoked the callbacks for the steps [k0], [k0+1], ...,
      [k0+m-1] modulo 16, each notified and then scheduled at the time
      [nextNoteTime] had for it, none skipped and none twice; if the notes
      stay due for ever, the pass never returns.  A pass that returns has
      emitted exactly the due notes: it is of the first kind for some [m].
    - A session of passes at arbitrary clock readings, with calls of
      [setTempo] in between, unless a pass of it never returns, has invoked
      the callbacks for the steps [k0], [k0+1], ... modulo 16, [onStep]
      before [onSchedule] for each, no step skipped and none repeated,
      however far apart the clock readings were; every note it scheduled was
      due at one of its passes, and none is left due at the clock reading of
      its last pass. *)
Theorem C1_steps_in_order
    (W : Type) (ready : W -> Prop)
    (onStep : Z -> M W unit) (onSchedule : Z -> float -> M W unit)
    (stepped : Z -> W -> W) (scheduled : Z -> float -> W -> W)
    (st : Scheduler64.Store W) :
  Scheduler64.step_effect ready onStep stepped ->
  Scheduler64.schedule_effect ready onSchedule scheduled ->
  ready (Scheduler64.world st) ->
  (0 <= Scheduler64.currentStep (Scheduler64.self st) < 16)%Z ->
  let f := Scheduler64.self st in
  (forall now m fuel,
     (forall i, (i < m)%nat -> Scheduler64.due now (Scheduler64.advances i f) = true) ->
     Scheduler64.due now (Scheduler64.advances m f) = false ->
     (m < fuel)%nat ->
     Scheduler64.scheduler onStep onSchedule fuel now st
     = Done tt {| Scheduler64.self := Scheduler64.advances m f;
                  Scheduler64.world :=
                    Scheduler64.perform_all stepped scheduled
                      (Scheduler64.in_step_order f m) (Scheduler64.world st) |} /\
     Scheduler64.currentStep (Scheduler64.advances m f)
       = ((Scheduler64.currentStep f + Z.of_nat m) mod 16)%Z) /\
  (forall now,
     (forall i, Scheduler64.due now (Scheduler64.advances i f) = true) ->
     forall fuel, Scheduler64.scheduler onStep onSchedule fuel now st = Spin) /\
  (forall now fuel st',
     Scheduler64.scheduler onStep onSchedule fuel now st = Done tt st' ->
     exists m,
       (forall i, (i < m)%nat -> Scheduler64.due now (Scheduler64.advances i f) = true) /\
       Scheduler64.due now (Scheduler64.advances m f) = false /\
       Scheduler64.self st' = Scheduler64.advances m f /\
       Scheduler64.world st'
         = Scheduler64.perform_all stepped scheduled
             (Scheduler64.in_step_order f m) (Scheduler64.world st)) /\
  (forall fuel session,
     Scheduler64.play onStep onSchedule fuel session st = Spin \/
     exists n cs st',
       Scheduler64.play onStep onSchedule fuel session st = Done tt st' /\
       Scheduler64.world st'
         = Scheduler64.perform_all stepped scheduled cs (Scheduler64.world st) /\
       Forall2 Scheduler64.same_step cs (Scheduler64.in_step_order f n) /\
       Scheduler64.currentStep (Scheduler64.self st')
         = ((Scheduler64.currentStep f + Z.of_nat n) mod 16)%Z /\
       Forall (Scheduler64.scheduled_when_due (Scheduler64.readings session)
                 (Scheduler64.scheduleAheadTime f)) cs /\
       (forall before now,
          Scheduler64.readings session = before ++ [now] ->
          Scheduler64.due now (Scheduler64.self st') = false)).
Proof.
  intros Hstep Hsched Hr Hk f. destruct st as [f0 w]. cbn [Scheduler64.self] in f, Hk.
  subst f. cbn [Scheduler64.self Scheduler64.world] in *.
  split; [| split; [| split]].
  - intros now m fuel Hdue Hstop Hfuel.
    destruct (@pass64_returns W ready onStep onSchedule stepped scheduled Hstep Hsched
                now m fuel f0 w Hr Hdue Hstop Hfuel) as [Hrun _].
    rewrite due_calls_in_step_order in Hrun by exact Hk.
    split; [exact Hrun | apply advances_step; exact Hk].
  - intros now Hdue fuel.
    apply (@pass64_spins W ready onStep onSchedule stepped scheduled Hstep Hsched
             now fuel f0 w Hr Hdue).
  - intros now fuel st' Hrun.
    destruct (@pass64_outcome W ready onStep onSchedule stepped scheduled Hstep Hsched
                now fuel f0 w Hr) as [Hspin | (m & _ & Hdone & Hdue & Hstop & _)].
    + rewrite Hspin in Hrun. discriminate Hrun.
    + rewrite Hdone in Hrun. injection Hrun as <-.
      exists m. split; [exact Hdue |]. split; [exact Hstop |].
      split; [reflexivity |].
      cbn [Scheduler64.world]. rewrite due_calls_in_step_order by exact Hk. reflexivity.
  - intros fuel session.
    destruct (@play64_outcome W ready onStep onSchedule stepped scheduled Hstep Hsched
                fuel session {| Scheduler64.self := f0; Scheduler64.world := w |} Hr Hk)
      as [Hspin | (n & cs & st' & Hrun & Hw & Ho & Hs & Hd & _ & Hl & _)];
      [left; exact Hspin | right].
    exists n, cs, st'.
    split; [exact Hrun |]. split; [exact Hw |]. split; [exact Ho |].
    split; [exact Hs |]. split; [exact Hd |].
    intros before now Hreadings.
    specialize (Hl now). rewrite Hreadings in Hl.
    rewrite last_last in Hl. apply Hl.
    intros H. destruct before; discriminate H.
Qed.

Lemma C1_steps_in_order_witness :
  Scheduler64.scheduler
    (Scheduler64.doStep Scheduler64.logStep)
    (Scheduler64.doSchedule Scheduler64.logSchedule) 4 0.2
    {| Scheduler64.self := Scheduler64.constructor (Some 100);
       Scheduler64.world := [] |}
  = Done tt
      {| Scheduler64.self :=
           Scheduler64.set_currentStep 3
             (Scheduler64.set_nextNoteTime 0.44999999999999996
                (Scheduler64.constructor (Some 100)));
         Scheduler64.world :=
           [Scheduler64.CallStep 0; Scheduler64.CallSchedule 0 0;
            Scheduler64.CallStep 1; Scheduler64.CallSchedule 1 0.15;
            Scheduler64.CallStep 2; Scheduler64.CallSchedule 2 0.3] |}.
Proof.
  refine (proj1 (proj1 (@C1_steps_in_order (list Scheduler64.Call) (fun _ => True)
            (Scheduler64.doStep Scheduler64.logStep)
            (Scheduler64.doSchedule Scheduler64.logSchedule)
            Scheduler64.logStep Scheduler64.logSchedule
            {| Scheduler64.self := Scheduler64.constructor (Some 100);
               Scheduler64.world := [] |}
            (fun k w _ => conj eq_refl I)
            (fun k t w _ => conj eq_refl I)
            I _) 0.2 3%nat 4%nat _ _ _)).
  - cbn. lia.
  - intros [| [| [| i]]] Hi; [vm_compute; reflexivity .. | lia].
  - vm_compute. reflexivity.
  - lia.
Defined.

End StepsInOrder64.

(** ** Starting and stopping *)

Section StartStop.

Import Scheduler.

Variable W : Type.
Variable ready : W -> Prop.
Variable onStep : Z -> M W unit.
Variable onSchedule : Z -> Q -> M W unit.
Variable stepped : Z -> W -> W.
Variable scheduled : Z -> Q -> W -> W.



Hypothesis onStep_ready : step_effect ready onStep stepped.
Hypothesis onSchedule_ready : schedule_effect ready onSchedule scheduled.

Lemma start_idle_result (now : Q) (st : Store W) :
  ready (world st) -> 0 < tempo (self st) -> 0 < scheduleAheadTime (self st) ->
  isPlaying (self st) = false ->
  exists n, (1 <= n)%nat /\
    scheduler onStep onSchedule now (prepare now st)
      = Done tt (rounds stepped scheduled n (prepare now st)) /\
    start onStep onSchedule now st
      = Done tt (arm (rounds stepped scheduled n (prepare now st))) /\
    world (arm (rounds stepped scheduled n (prepare now st)))
      = perform_all stepped scheduled
          (due_calls (currentStep (self st)) now
             (calculateSixteenthNoteTime (tempo (self st))) n)
          (world st) /\
    nextNoteTime (self (arm (rounds stepped scheduled n (prepare now st))))
      == now + inject_Z (Z.of_nat n) * calculateSixteenthNoteTime (tempo (self st)) /\
    isPlaying (self (arm (rounds stepped scheduled n (prepare now st)))) = true /\
    timerID (self (arm (rounds stepped scheduled n (prepare now st))))
      = Some (next_handle (timers st)) /\
    active (timers (arm (rounds stepped scheduled n (prepare now st))))
      = {| handle := next_handle (timers st); delay := lookahead (self st) |}
          :: active (timers st) /\
    armed (next_handle (timers st))
      (timers (arm (rounds stepped scheduled n (prepare now st)))) = true.
Proof.
  intros Hr Ht Ha Hp.
  destruct (@start_idle W onStep onSchedule stepped scheduled ready
              onStep_ready onSchedule_ready now st Hr Ht Ha Hp)
    as (n & Hn & Hpass & Hstart & _ & _).
  destruct (rounds_frame stepped scheduled n (prepare now st))
    as (F1 & F2 & F3 & F4 & F5 & F6).
  exists n. split; [exact Hn |].
  split; [exact Hpass |].
  split; [exact Hstart |].
  split; [apply (rounds_world stepped scheduled n (prepare now st)) |].
  split; [apply (rounds_time stepped scheduled n (prepare now st)) |].
  cbn [arm self timers set_timerID isPlaying timerID active].
  rewrite F2, F4, F6. cbn [prepare self timers set_nextNoteTime set_isPlaying
                           isPlaying lookahead].
  split; [reflexivity |]. split; [reflexivity |]. split; [reflexivity |].
  unfold armed. cbn [active existsb handle]. rewrite Pos.eqb_refl. reflexivity.
Qed.

End StartStop.



(** ** Tempo changes, stopping and resetting *)



(** C10. [stop()] returns normally and leaves [currentStep], [nextNoteTime],
    the tempo, the two scheduling constants and the world of the callbacks
    untouched; it clears the playing flag and the kept handle and cancels the
    timer of that handle (and no other), which then finds nothing to do if it
    fires.  A [start()] after it resumes with the step at which playback
    stopped; with a [reset()] in between it resumes with step 0. *)
Theorem C10_stop_keeps_position
    (W : Type) (ready : W -> Prop)
    (onStep : Z -> M W unit) (onSchedule : Z -> Q -> M W unit)
    (stepped : Z -> W -> W) (scheduled : Z -> Q -> W -> W)
    (st : Scheduler.Store W) :
  exists st1,
    Scheduler.stop st = Done tt st1 /\
    Scheduler.currentStep (Scheduler.self st1) = Scheduler.currentStep (Scheduler.self st) /\
    Scheduler.nextNoteTime (Scheduler.self st1) = Scheduler.nextNoteTime (Scheduler.self st) /\
    Scheduler.tempo (Scheduler.self st1) = Scheduler.tempo (Scheduler.self st) /\
    Scheduler.lookahead (Scheduler.self st1) = Scheduler.lookahead (Scheduler.self st) /\
    Scheduler.scheduleAheadTime (Scheduler.self st1)
      = Scheduler.scheduleAheadTime (Scheduler.self st) /\
    Scheduler.world st1 = Scheduler.world st /\
    Scheduler.isPlaying (Scheduler.self st1) = false /\
    Scheduler.timerID (Scheduler.self st1) = None /\
    (forall h, Scheduler.timerID (Scheduler.self st) = Some h ->
       armed h (Scheduler.timers st1) = false /\
       forall now, Scheduler.tick onStep onSchedule h now st1 = Done tt st1) /\
    (forall h, Scheduler.timerID (Scheduler.self st) <> Some h ->
       armed h (Scheduler.timers st1) = armed h (Scheduler.timers st)) /\
    (Scheduler.reachable onStep onSchedule st ->
     Scheduler.step_effect ready onStep stepped ->
     Scheduler.schedule_effect ready onSchedule scheduled ->
     ready (Scheduler.world st) ->
     0 < Scheduler.tempo (Scheduler.self st) ->
     forall now,
       (exists n st2,
          (1 <= n)%nat /\
          Scheduler.start onStep onSchedule now st1 = Done tt st2 /\
          Scheduler.world st2 =
            Scheduler.perform_all stepped scheduled
              (Scheduler.due_calls (Scheduler.currentStep (Scheduler.self st)) now
                 (Scheduler.calculateSixteenthNoteTime (Scheduler.tempo (Scheduler.self st))) n)
              (Scheduler.world st)) /\
       (exists n st1' st2,
          (1 <= n)%nat /\
          Scheduler.reset st1 = Done tt st1' /\
          Scheduler.start onStep onSchedule now st1' = Done tt st2 /\
          Scheduler.world st2 =
            Scheduler.perform_all stepped scheduled
              (Scheduler.due_calls 0%Z now
                 (Scheduler.calculateSixteenthNoteTime (Scheduler.tempo (Scheduler.self st))) n)
              (Scheduler.world st))).
Proof.
  destruct (stop_result st)
    as (st1 & Hstop & Hp1 & Hid1 & Ht1 & Hl1 & Ha1 & Hk1 & Hn1 & Hw1 & _ & Hclear & Hothers).
  exists st1. split; [exact Hstop |].
  split; [exact Hk1 |]. split; [exact Hn1 |]. split; [exact Ht1 |].
  split; [exact Hl1 |]. split; [exact Ha1 |].
  split; [exact Hw1 |]. split; [exact Hp1 |]. split; [exact Hid1 |].
  split; [| split; [exact Hothers |]].
  - intros h Hh. split; [apply Hclear, Hh |].
    intros now. apply tick_cleared. apply Hclear, Hh.
  - intros Hreach Hstep Hsched Hr Ht now.
    destruct (reachable_consistent Hreach) as (C1 & C2 & C3 & C4).
    assert (Ha : 0 < Scheduler.scheduleAheadTime (Scheduler.self st))
      by (rewrite C2; reflexivity).
    split.
    + destruct (@start_idle_result W ready onStep onSchedule stepped scheduled
                  Hstep Hsched now st1)
        as (n & Hn & _ & Hstart & Hw & _).
      * rewrite Hw1. exact Hr.
      * rewrite Ht1. exact Ht.
      * rewrite Ha1. exact Ha.
      * exact Hp1.
      * exists n, (Scheduler.arm (Scheduler.rounds stepped scheduled n
                                     (Scheduler.prepare now st1))).
        split; [exact Hn |]. split; [exact Hstart |].
        rewrite Hk1, Ht1, Hw1 in Hw. exact Hw.
    + set (st1' := {| Scheduler.self := Scheduler.set_currentStep 0%Z (Scheduler.self st1);
                      Scheduler.timers := Scheduler.timers st1;
                      Scheduler.world := Scheduler.world st1 |}).
      destruct (@start_idle_result W ready onStep onSchedule stepped scheduled
                  Hstep Hsched now st1')
        as (n & Hn & _ & Hstart & Hw & _).
      * cbn [st1' Scheduler.world]. rewrite Hw1. exact Hr.
      * cbn [st1' Scheduler.self Scheduler.set_currentStep Scheduler.tempo].
        rewrite Ht1. exact Ht.
      * cbn [st1' Scheduler.self Scheduler.set_currentStep Scheduler.scheduleAheadTime].
        rewrite Ha1. exact Ha.
      * exact Hp1.
      * exists n, st1', (Scheduler.arm (Scheduler.rounds stepped scheduled n
                                           (Scheduler.prepare now st1'))).
        split; [exact Hn |]. split; [reflexivity |]. split; [exact Hstart |].
        cbn [st1' Scheduler.self Scheduler.world Scheduler.set_currentStep
             Scheduler.currentStep Scheduler.tempo] in Hw.
        rewrite Ht1, Hw1 in Hw. exact Hw.
Qed.

Lemma C10_stop_keeps_position_witness :
  exists st1 n st2,
    Scheduler.stop
      {| Scheduler.self :=
           Scheduler.advance (Scheduler.advance (Scheduler.constructor (Some 120)));
         Scheduler.timers := no_timers;
         Scheduler.world := @nil Scheduler.Call |} = Done tt st1 /\
    Scheduler.start (Scheduler.doStep Scheduler.logStep)
      (Scheduler.doSchedule Scheduler.logSchedule) 7 st1 = Done tt st2 /\
    Scheduler.world st2 =
      Scheduler.perform_all Scheduler.logStep Scheduler.logSchedule
        (Scheduler.due_calls 2%Z 7 (Scheduler.calculateSixteenthNoteTime 120) n) [].
Proof.
  destruct (@C10_stop_keeps_position (list Scheduler.Call) (fun _ => True)
              (Scheduler.doStep Scheduler.logStep)
              (Scheduler.doSchedule Scheduler.logSchedule)
              Scheduler.logStep Scheduler.logSchedule
              {| Scheduler.self :=
                   Scheduler.advance (Scheduler.advance (Scheduler.constructor (Some 120)));
                 Scheduler.timers := no_timers;
                 Scheduler.world := @nil Scheduler.Call |})
    as (st1 & Hstop & _ & _ & _ & _ & _ & _ & _ & _ & _ & _ & Hresume).
  destruct (Hresume
              (Scheduler.reach_call Scheduler.CallNextNote
                 (Scheduler.reach_call Scheduler.CallNextNote
                    (Scheduler.reach_new _ _ (Some 120) no_timers []) eq_refl) eq_refl)
              (fun k w _ => conj eq_refl I)
              (fun k t w _ => conj eq_refl I)
              I eq_refl 7) as ((n & st2 & _ & Hstart & Hw) & _).
  exists st1, n, st2. split; [exact Hstop |]. split; [exact Hstart | exact Hw].
Defined.

(** C6. [reset()] of the scheduler returns normally, sets [currentStep] to 0
    and leaves every other field, the timers and the world of the callbacks as
    they were; [reset()] of the engine sets the engine's own [currentStep] to
    0, resets the scheduler in the same way when there is one, and changes
    nothing else. *)
Theorem C6_reset_frame :
  (forall (W : Type) (st : Scheduler.Store W),
     exists st',
       Scheduler.reset st = Done tt st' /\
       Scheduler.currentStep (Scheduler.self st') = 0%Z /\
       Scheduler.nextNoteTime (Scheduler.self st') = Scheduler.nextNoteTime (Scheduler.self st) /\
       Scheduler.isPlaying (Scheduler.self st') = Scheduler.isPlaying (Scheduler.self st) /\
       Scheduler.tempo (Scheduler.self st') = Scheduler.tempo (Scheduler.self st) /\
       Scheduler.timerID (Scheduler.self st') = Scheduler.timerID (Scheduler.self st) /\
       Scheduler.lookahead (Scheduler.self st') = Scheduler.lookahead (Scheduler.self st) /\
       Scheduler.scheduleAheadTime (Scheduler.self st')
         = Scheduler.scheduleAheadTime (Scheduler.self st) /\
       Scheduler.timers st' = Scheduler.timers st /\
       Scheduler.world st' = Scheduler.world st) /\
  (forall st : AudioEngine.Store,
     AudioEngine.reset st =
     Done tt
       {| AudioEngine.world :=
            {| AudioEngine.engine :=
                 AudioEngine.set_currentStep 0%Z
                   (AudioEngine.engine (AudioEngine.world st));
               AudioEngine.host := AudioEngine.host (AudioEngine.world st) |};
          AudioEngine.scheduler :=
            option_map (Scheduler.set_currentStep 0%Z) (AudioEngine.scheduler st);
          AudioEngine.timers := AudioEngine.timers st |}) /\
  (forall f : Scheduler.Fields,
     Scheduler.nextNoteTime (Scheduler.set_currentStep 0%Z f) = Scheduler.nextNoteTime f /\
     Scheduler.isPlaying (Scheduler.set_currentStep 0%Z f) = Scheduler.isPlaying f /\
     Scheduler.tempo (Scheduler.set_currentStep 0%Z f) = Scheduler.tempo f /\
     Scheduler.timerID (Scheduler.set_currentStep 0%Z f) = Scheduler.timerID f) /\
  (forall f : AudioEngine.Fields,
     AudioEngine.currentStep (AudioEngine.set_currentStep 0%Z f) = 0%Z /\
     AudioEngine.context (AudioEngine.set_currentStep 0%Z f) = AudioEngine.context f /\
     AudioEngine.masterGain (AudioEngine.set_currentStep 0%Z f) = AudioEngine.masterGain f /\
     AudioEngine.compressor (AudioEngine.set_currentStep 0%Z f) = AudioEngine.compressor f /\
     AudioEngine.tempo (AudioEngine.set_currentStep 0%Z f) = AudioEngine.tempo f /\
     AudioEngine.isPlaying (AudioEngine.set_currentStep 0%Z f) = AudioEngine.isPlaying f /\
     AudioEngine.pattern (AudioEngine.set_currentStep 0%Z f) = AudioEngine.pattern f).
Proof.
  split; [| split; [| split]].
  - intros W st. eexists. split; [reflexivity |].
    cbn. repeat (split; [reflexivity |]). reflexivity.
  - intros st. unfold AudioEngine.reset.
    cbv beta iota delta [bind gets AudioEngine.in_world zoom AudioEngine.on_engine modify].
    cbn [AudioEngine.world AudioEngine.scheduler AudioEngine.timers].
    destruct (AudioEngine.scheduler st) as [s |]; reflexivity.
  - intros f. repeat split.
  - intros f. repeat split.
Qed.

(* ------------------------------------------------------------------------- *)
(** ** Voices and the sounds of a step *)
(* ------------------------------------------------------------------------- *)

Section Voices.

Import WebAudio SoundGenerator.

Ltac run_voice :=
  cbv beta iota zeta delta
    [create createKick createSnare createHiHat createChord chordTone forEach
     createNoiseBuffer createOscillator createGain createBiquadFilter
     createBufferSource on_context fresh request draw record_trigger connect
     bind ret gets modify throw skip
     ops next_node random drawn strict_connect triggers].

Lemma create_available (v : Voice) (ctx : AudioContext) (t : Q) (g : Node) (h : Host) :
  exists h',
    create v (Some ctx) t (Some g) h = Done tt h' /\
    triggers h' = triggers h ++ [{| voice := v; at_time := t; into := Some g |}] /\
    strict_connect h' = strict_connect h /\
    random h' = random h /\
    (length (ops h) < length (ops h'))%nat.
Proof.
  destruct h as [o n r dr sc tr].
  destruct v; run_voice; (eexists; split; [reflexivity |]);
    cbn [ops next_node random drawn strict_connect triggers];
    (split; [reflexivity |]); (split; [reflexivity |]); (split; [reflexivity |]);
    rewrite !length_app; cbn [length]; lia.
Qed.

Lemma create_without_context (v : Voice) (t : Q) (dest : option Node) (h : Host) :
  exists h',
    create v None t dest h = Raise TypeError h' /\
    ops h' = ops h /\ next_node h' = next_node h /\ drawn h' = drawn h.
Proof.
  destruct h as [o n r dr sc tr].
  destruct v; run_voice; (eexists; split; [reflexivity |]); repeat split.
Qed.

Lemma create_without_destination (v : Voice) (ctx : AudioContext) (t : Q) (h : Host) :
  exists h',
    create v (Some ctx) t None h =
      (if strict_connect h then Raise TypeError h' else Done tt h') /\
    (length (ops h) < length (ops h'))%nat.
Proof.
  destruct h as [o n r dr [|] tr].
  all: destruct v; run_voice; (eexists; split; [reflexivity |]);
    cbn [ops]; rewrite !length_app; cbn [length]; lia.
Qed.

Ltac other_nodes :=
  repeat match goal with
  | |- context [Pos.eqb ?a ?b] =>
      first [ rewrite (Pos.eqb_refl a)
            | replace (Pos.eqb a b) with false by (symmetry; apply Pos.eqb_neq; lia) ]
  end.

Lemma create_requests (v : Voice) (ctx : AudioContext) (t : Q) (g : Node) (h : Host) :
  (g < next_node h)%positive ->
  exists h' added,
    create v (Some ctx) t (Some g) h = Done tt h' /\
    ops h' = ops h ++ added /\
    start_times added = repeat t (sources v) /\
    length (feeding g added) = sources v /\
    (next_node h <= next_node h')%positive.
Proof.
  destruct h as [o n r dr sc tr]. cbn [next_node]. intros Hg.
  destruct v; run_voice; (eexists; eexists; split; [reflexivity |]);
    cbn [ops next_node]; (split; [rewrite <- !app_assoc; cbn [app]; reflexivity |]);
    (split; [reflexivity |]); (split; [| lia]);
    cbn [feeding]; other_nodes; reflexivity.
Qed.

End Voices.

Section Sounds.

Import WebAudio AudioEngine.

Lemma sound_ready (v : Voice) (step : Z) (time : Q) (w : World)
    (p : Pattern) (ctx : AudioContext) (g : Node) :
  pattern (engine w) = Some p ->
  context (engine w) = Some ctx ->
  masterGain (engine w) = Some g ->
  exists w',
    sound (track_of v) (SoundGenerator.create v) step time w = Done tt w' /\
    engine w' = engine w /\
    triggers (host w') =
      triggers (host w) ++
      (if active_at (track_of v p) step
       then [{| voice := v; at_time := time; into := Some g |}] else []) /\
    strict_connect (host w') = strict_connect (host w) /\
    random (host w') = random (host w).
Proof.
  intros Hp Hc Hg. unfold sound, flag.
  cbv beta iota delta [bind this gets ret skip]. rewrite Hp.
  destruct (active_at (track_of v p) step).
  - rewrite Hc, Hg. unfold in_host, zoom.
    destruct (create_available v ctx time g (host w)) as (h' & Hrun & Ht & Hs & Hr & _).
    rewrite Hrun. eexists. split; [reflexivity |].
    cbn [engine host]. repeat split; assumption.
  - exists w. split; [reflexivity |]. rewrite app_nil_r. repeat split.
Qed.

Lemma triggers_at_unfold (p : Pattern) (g : option Node) (step : Z) (time : Q) :
  triggers_at p g step time =
    (if active_at (kick p) step
     then [{| voice := Kick; at_time := time; into := g |}] else []) ++
    (if active_at (snare p) step
     then [{| voice := Snare; at_time := time; into := g |}] else []) ++
    (if active_at (hihat p) step
     then [{| voice := HiHat; at_time := time; into := g |}] else []) ++
    (if active_at (chord p) step
     then [{| voice := Chord; at_time := time; into := g |}] else []).
Proof.
  unfold triggers_at, voices_at. cbn [filter track_of].
  destruct (active_at (kick p) step), (active_at (snare p) step),
    (active_at (hihat p) step), (active_at (chord p) step); reflexivity.
Qed.

Lemma scheduleStepSounds_ready (step : Z) (time : Q) (w : World)
    (p : Pattern) (ctx : AudioContext) (g : Node) :
  pattern (engine w) = Some p ->
  context (engine w) = Some ctx ->
  masterGain (engine w) = Some g ->
  exists w',
    scheduleStepSounds step time w = Done tt w' /\
    engine w' = engine w /\
    triggers (host w') = triggers (host w) ++ triggers_at p (Some g) step time /\
    strict_connect (host w') = strict_connect (host w) /\
    random (host w') = random (host w).
Proof.
  intros Hp Hc Hg. unfold scheduleStepSounds.
  unfold bind at 1, this at 1, gets at 1. rewrite Hp.
  destruct (@sound_ready Kick step time w p ctx g Hp Hc Hg)
    as (w1 & R1 & E1 & T1 & S1 & N1).
  rewrite <- E1 in Hp, Hc, Hg.
  destruct (@sound_ready Snare step time w1 p ctx g Hp Hc Hg)
    as (w2 & R2 & E2 & T2 & S2 & N2).
  rewrite <- E2 in Hp, Hc, Hg.
  destruct (@sound_ready HiHat step time w2 p ctx g Hp Hc Hg)
    as (w3 & R3 & E3 & T3 & S3 & N3).
  rewrite <- E3 in Hp, Hc, Hg.
  destruct (@sound_ready Chord step time w3 p ctx g Hp Hc Hg)
    as (w4 & R4 & E4 & T4 & S4 & N4).
  cbn [track_of SoundGenerator.create] in R1, R2, R3, R4.
  exists w4.
  split.
  { rewrite (@bind_done _ _ _ _ _ _ _ _ R1), (@bind_done _ _ _ _ _ _ _ _ R2), (@bind_done _ _ _ _ _ _ _ _ R3). exact R4. }
  split; [congruence |].
  split.
  { rewrite T4, T3, T2, T1, triggers_at_unfold. cbn [track_of].
    rewrite <- !app_assoc. reflexivity. }
  split; congruence.
Qed.

Lemma scheduleStepSounds_no_pattern (step : Z) (time : Q) (w : World) :
  pattern (engine w) = None -> scheduleStepSounds step time w = Done tt w.
Proof.
  intros Hp. unfold scheduleStepSounds, bind, this, gets. rewrite Hp. reflexivity.
Qed.

Lemma run_steps_ready (time_of : Z -> Q) (ks : list Z) (w : World)
    (p : Pattern) (ctx : AudioContext) (g : Node) :
  pattern (engine w) = Some p ->
  context (engine w) = Some ctx ->
  masterGain (engine w) = Some g ->
  exists w',
    forEach ks (fun k => onSchedule k (time_of k)) w = Done tt w' /\
    engine w' = engine w /\
    triggers (host w') =
      triggers (host w) ++ flat_map (fun k => triggers_at p (Some g) k (time_of k)) ks.
Proof.
  revert w. induction ks as [| k ks IH]; intros w Hp Hc Hg.
  - exists w. split; [reflexivity |]. split; [reflexivity |].
    cbn [flat_map]. rewrite app_nil_r. reflexivity.
  - destruct (@scheduleStepSounds_ready k (time_of k) w p ctx g Hp Hc Hg)
      as (w1 & R1 & E1 & T1 & _).
    rewrite <- E1 in Hp, Hc, Hg.
    destruct (IH w1 Hp Hc Hg) as (w2 & R2 & E2 & T2).
    exists w2. split.
    { cbn [forEach]. unfold onSchedule at 1.
      rewrite (@bind_done _ _ _ _ _ _ _ _ R1). exact R2. }
    split; [congruence |].
    rewrite T2, T1. cbn [flat_map]. rewrite <- app_assoc. reflexivity.
Qed.

Lemma triggers_at_four (p : Pattern) (g : option Node) (k : Z) (t : Q) :
  four_on_the_floor p -> (0 <= k < 16)%Z ->
  triggers_at p g k t =
    if ((k =? 0) || (k =? 4) || (k =? 8) || (k =? 12))%Z
    then [{| voice := Kick; at_time := t; into := g |}] else [].
Proof.
  intros Hfour Hk. destruct (Hfour k Hk) as (Hkick & Hsnare & Hhat & Hchord).
  rewrite triggers_at_unfold, Hkick, Hsnare, Hhat, Hchord.
  destruct ((k =? 0) || (k =? 4) || (k =? 8) || (k =? 12))%Z; reflexivity.
Qed.

End Sounds.

Section Requests.

Import WebAudio AudioEngine.

Lemma start_times_app (a b : list Op) :
  start_times (a ++ b) = start_times a ++ start_times b.
Proof.
  induction a as [| o a IH]; [reflexivity |].
  destruct o; cbn [app start_times]; rewrite ?IH; reflexivity.
Qed.

Lemma feeding_app (g : Node) (a b : list Op) :
  feeding g (a ++ b) = feeding g a ++ feeding g b.
Proof.
  induction a as [| o a IH]; [reflexivity |].
  destruct o as [| | | | | | | | | src [d |] | | | |]; cbn [app feeding]; rewrite ?IH;
    try reflexivity.
  destruct (Pos.eqb d g); reflexivity.
Qed.

Lemma sound_requests (v : Voice) (step : Z) (time : Q) (w : World)
    (p : Pattern) (ctx : AudioContext) (g : Node) :
  pattern (engine w) = Some p ->
  context (engine w) = Some ctx ->
  masterGain (engine w) = Some g ->
  (g < next_node (host w))%positive ->
  exists w' added,
    sound (track_of v) (SoundGenerator.create v) step time w = Done tt w' /\
    engine w' = engine w /\
    ops (host w') = ops (host w) ++ added /\
    start_times added
      = repeat time (if active_at (track_of v p) step then sources v else 0) /\
    length (feeding g added)
      = (if active_at (track_of v p) step then sources v else 0)%nat /\
    (g < next_node (host w'))%positive.
Proof.
  intros Hp Hc Hg Hlt. unfold sound, flag.
  cbv beta iota delta [bind this gets ret skip]. rewrite Hp.
  destruct (active_at (track_of v p) step).
  - rewrite Hc, Hg. unfold in_host, zoom.
    destruct (@create_requests v ctx time g (host w) Hlt)
      as (h' & added & Hrun & Ho & Hs & Hf & Hn).
    rewrite Hrun. eexists. exists added. split; [reflexivity |].
    cbn [engine host]. split; [reflexivity |]. split; [exact Ho |].
    split; [exact Hs |]. split; [exact Hf | lia].
  - exists w, []. split; [reflexivity |]. split; [reflexivity |].
    rewrite app_nil_r. repeat split. exact Hlt.
Qed.

Lemma sources_at_unfold (p : Pattern) (step : Z) :
  sources_at p step =
    ((if active_at (kick p) step then sources Kick else 0) +
     ((if active_at (snare p) step then sources Snare else 0) +
      ((if active_at (hihat p) step then sources HiHat else 0) +
       (if active_at (chord p) step then sources Chord else 0))))%nat.
Proof.
  unfold sources_at, voices_at. cbn [filter track_of].
  destruct (active_at (kick p) step), (active_at (snare p) step),
    (active_at (hihat p) step), (active_at (chord p) step); reflexivity.
Qed.

Lemma scheduleStepSounds_requests (step : Z) (time : Q) (w w' : World)
    (p : Pattern) (ctx : AudioContext) (g : Node) :
  pattern (engine w) = Some p ->
  context (engine w) = Some ctx ->
  masterGain (engine w) = Some g ->
  (g < next_node (host w))%positive ->
  scheduleStepSounds step time w = Done tt w' ->
  exists added,
    ops (host w') = ops (host w) ++ added /\
    start_times added = repeat time (sources_at p step) /\
    length (feeding g added) = sources_at p step.
Proof.
  intros Hp Hc Hg Hlt. unfold scheduleStepSounds.
  unfold bind at 1, this at 1, gets at 1. rewrite Hp.
  destruct (@sound_requests Kick step time w p ctx g Hp Hc Hg Hlt)
    as (w1 & a1 & R1 & E1 & O1 & S1 & F1 & L1).
  rewrite <- E1 in Hp, Hc, Hg.
  destruct (@sound_requests Snare step time w1 p ctx g Hp Hc Hg L1)
    as (w2 & a2 & R2 & E2 & O2 & S2 & F2 & L2).
  rewrite <- E2 in Hp, Hc, Hg.
  destruct (@sound_requests HiHat step time w2 p ctx g Hp Hc Hg L2)
    as (w3 & a3 & R3 & E3 & O3 & S3 & F3 & L3).
  rewrite <- E3 in Hp, Hc, Hg.
  destruct (@sound_requests Chord step time w3 p ctx g Hp Hc Hg L3)
    as (w4 & a4 & R4 & E4 & O4 & S4 & F4 & L4).
  cbn [track_of SoundGenerator.create] in R1, R2, R3, R4.
  rewrite (@bind_done _ _ _ _ _ _ _ _ R1), (@bind_done _ _ _ _ _ _ _ _ R2),
    (@bind_done _ _ _ _ _ _ _ _ R3), R4.
  intros [= <-].
  exists (a1 ++ a2 ++ a3 ++ a4).
  split; [rewrite O4, O3, O2, O1, <- !app_assoc; reflexivity |].
  rewrite sources_at_unfold. cbn [track_of] in S1, S2, S3, S4, F1, F2, F3, F4.
  split.
  - rewrite !start_times_app, S1, S2, S3, S4, <- !repeat_app. reflexivity.
  - rewrite !feeding_app, !length_app, F1, F2, F3, F4. reflexivity.
Qed.

End Requests.

(** C2. With a pattern set (and the context and master gain of an
    initialised engine), [scheduleStepSounds(step, time)] returns normally,
    leaves the engine's fields alone, and invokes exactly the voice functions
    of the tracks whose flag at [step] is active, in track order, each at
    [time] and into the master gain: the requests it adds to the host start
    sources at [time] and at no other time, one per source of those voices,
    and connect as many signal paths into the master gain (a node the host
    handed out before).  Over one run of the sixteen steps with a
    pattern that has the kick on steps 0, 4, 8, 12 and nothing else, the kick
    is triggered four times (at the times of those steps) and no other voice
    is.  With no pattern set the call returns normally and changes
    nothing. *)
Theorem C2_step_sounds :
  (forall (step : Z) (time : Q) (w : AudioEngine.World)
          (p : AudioEngine.Pattern) (ctx : WebAudio.AudioContext) (g : WebAudio.Node),
      AudioEngine.pattern (AudioEngine.engine w) = Some p ->
      AudioEngine.context (AudioEngine.engine w) = Some ctx ->
      AudioEngine.masterGain (AudioEngine.engine w) = Some g ->
      exists w',
        AudioEngine.scheduleStepSounds step time w = Done tt w' /\
        AudioEngine.engine w' = AudioEngine.engine w /\
        WebAudio.triggers (AudioEngine.host w') =
          WebAudio.triggers (AudioEngine.host w)
          ++ map (fun v => {| WebAudio.voice := v; WebAudio.at_time := time;
                              WebAudio.into := Some g |})
                 (AudioEngine.voices_at p step) /\
        (forall v, In v (AudioEngine.voices_at p step) <->
                   AudioEngine.active_at (AudioEngine.track_of v p) step = true) /\
        ((g < WebAudio.next_node (AudioEngine.host w))%positive ->
         exists added,
           WebAudio.ops (AudioEngine.host w')
             = WebAudio.ops (AudioEngine.host w) ++ added /\
           WebAudio.start_times added = repeat time (AudioEngine.sources_at p step) /\
           length (WebAudio.feeding g added) = AudioEngine.sources_at p step)) /\
  (forall (time_of : Z -> Q) (w : AudioEngine.World)
          (p : AudioEngine.Pattern) (ctx : WebAudio.AudioContext) (g : WebAudio.Node),
      AudioEngine.pattern (AudioEngine.engine w) = Some p ->
      AudioEngine.context (AudioEngine.engine w) = Some ctx ->
      AudioEngine.masterGain (AudioEngine.engine w) = Some g ->
      AudioEngine.four_on_the_floor p ->
      exists w' sounded,
        AudioEngine.full_run time_of w = Done tt w' /\
        WebAudio.triggers (AudioEngine.host w') =
          WebAudio.triggers (AudioEngine.host w) ++ sounded /\
        sounded =
          map (fun k => {| WebAudio.voice := WebAudio.Kick;
                           WebAudio.at_time := time_of k;
                           WebAudio.into := Some g |}) [0; 4; 8; 12]%Z /\
        AudioEngine.count_voice WebAudio.Kick sounded = 4%nat /\
        AudioEngine.count_voice WebAudio.Snare sounded = 0%nat /\
        AudioEngine.count_voice WebAudio.HiHat sounded = 0%nat /\
        AudioEngine.count_voice WebAudio.Chord sounded = 0%nat) /\
  (forall (step : Z) (time : Q) (w : AudioEngine.World),
      AudioEngine.pattern (AudioEngine.engine w) = None ->
      AudioEngine.scheduleStepSounds step time w = Done tt w).
Proof.
  split; [| split].
  - intros step time w p ctx g Hp Hc Hg.
    destruct (@scheduleStepSounds_ready step time w p ctx g Hp Hc Hg)
      as (w' & Hrun & He & Ht & _).
    exists w'. split; [exact Hrun |]. split; [exact He |]. split; [exact Ht |].
    split.
    + intros v. unfold AudioEngine.voices_at. rewrite filter_In.
      split; [intros [_ H]; exact H | intros H; split; [| exact H]].
      destruct v; cbn; tauto.
    + intros Hlt. apply (@scheduleStepSounds_requests step time w w' p ctx g Hp Hc Hg Hlt Hrun).
  - intros time_of w p ctx g Hp Hc Hg Hfour.
    destruct (@run_steps_ready time_of AudioEngine.sixteen_steps w p ctx g Hp Hc Hg)
      as (w' & Hrun & _ & Ht).
    exists w'. eexists. split; [exact Hrun |]. split; [exact Ht |].
    assert (Hs : flat_map (fun k => AudioEngine.triggers_at p (Some g) k (time_of k))
                   AudioEngine.sixteen_steps
                 = map (fun k => {| WebAudio.voice := WebAudio.Kick;
                                    WebAudio.at_time := time_of k;
                                    WebAudio.into := Some g |}) [0; 4; 8; 12]%Z).
    { unfold AudioEngine.sixteen_steps. cbn [seq map flat_map Z.of_nat Pos.of_succ_nat Pos.succ].
      rewrite !(@triggers_at_four p (Some g) _ _ Hfour) by lia.
      reflexivity. }
    rewrite Hs. repeat split.
  - intros step time w Hp. apply scheduleStepSounds_no_pattern. exact Hp.
Qed.


Lemma C2_step_sounds_witness :
  exists w' sounded,
    AudioEngine.full_run inject_Z
      {| AudioEngine.engine :=
           {| AudioEngine.context :=
                Some {| WebAudio.state := WebAudio.Running; WebAudio.sampleRate := 44100 |};
              AudioEngine.masterGain := Some 1%positive;
              AudioEngine.compressor := Some 2%positive;
              AudioEngine.tempo := 85;
              AudioEngine.isPlaying := false;
              AudioEngine.currentStep := 0%Z;
              AudioEngine.pattern :=
                Some {| AudioEngine.kick := [1;0;0;0;1;0;0;0;1;0;0;0;1;0;0;0]%Z;
                        AudioEngine.snare := repeat 0%Z 16;
                        AudioEngine.hihat := repeat 0%Z 16;
                        AudioEngine.chord := repeat 0%Z 16 |} |};
         AudioEngine.host := WebAudio.new_host (fun _ => 0) true |}
    = Done tt w' /\
    WebAudio.triggers (AudioEngine.host w') = sounded /\
    AudioEngine.count_voice WebAudio.Kick sounded = 4%nat /\
    AudioEngine.count_voice WebAudio.Snare sounded = 0%nat.
Proof.
  destruct (proj1 (proj2 C2_step_sounds) inject_Z
    {| AudioEngine.engine :=
         {| AudioEngine.context :=
              Some {| WebAudio.state := WebAudio.Running; WebAudio.sampleRate := 44100 |};
            AudioEngine.masterGain := Some 1%positive;
            AudioEngine.compressor := Some 2%positive;
            AudioEngine.tempo := 85;
            AudioEngine.isPlaying := false;
            AudioEngine.currentStep := 0%Z;
            AudioEngine.pattern :=
              Some {| AudioEngine.kick := [1;0;0;0;1;0;0;0;1;0;0;0;1;0;0;0]%Z;
                      AudioEngine.snare := repeat 0%Z 16;
                      AudioEngine.hihat := repeat 0%Z 16;
                      AudioEngine.chord := repeat 0%Z 16 |} |};
       AudioEngine.host := WebAudio.new_host (fun _ => 0) true |}
    _ _ _ eq_refl eq_refl eq_refl)
    as (w' & sounded & Hrun & Ht & _ & Hk & Hs & _).
  - intros k Hk.
    assert (Hcases : (k = 0 \/ k = 1 \/ k = 2 \/ k = 3 \/ k = 4 \/ k = 5 \/ k = 6 \/ k = 7 \/
                      k = 8 \/ k = 9 \/ k = 10 \/ k = 11 \/ k = 12 \/ k = 13 \/ k = 14 \/
                      k = 15)%Z) by lia.
    repeat (destruct Hcases as [-> | Hcases]; [repeat split |]).
    subst k. repeat split.
  - exists w', sounded. split; [exact Hrun |]. split; [exact Ht |].
    split; [exact Hk | exact Hs].
Defined.

(** The same through the whole engine: after [init()], [setPattern] with the
    kick on steps 0, 4, 8, 12, [start()] at clock reading 0 and the timer
    firing once at 2.6 s, the sixteen steps of the first bar have been
    scheduled (at 85 BPM the sixteenth step falls at 2.647 s, before the
    horizon of 2.7 s), the kick was triggered four times and nothing else
    was, the scheduler is back at step 0 and the engine shows step 15. *)
Example engine_plays_four_on_the_floor :
  let env := {| AudioEngine.has_AudioContext := true;
                AudioEngine.initial_state := WebAudio.Suspended;
                AudioEngine.hardware_rate := 44100;
                AudioEngine.resume := AudioEngine.Fulfilled |} in
  let pat := {| AudioEngine.kick := [1;0;0;0;1;0;0;0;1;0;0;0;1;0;0;0]%Z;
                AudioEngine.snare := repeat 0%Z 16;
                AudioEngine.hihat := repeat 0%Z 16;
                AudioEngine.chord := repeat 0%Z 16 |} in
  let session :=
    bind (AudioEngine.init env) (fun _ =>
    bind (AudioEngine.setPattern (Some pat)) (fun _ =>
    bind (AudioEngine.start 0) (fun _ =>
    AudioEngine.tick 1 2.6))) in
  option_map
    (fun st =>
       (map (fun t => (WebAudio.voice t, Qred (WebAudio.at_time t)))
            (WebAudio.triggers (AudioEngine.host (AudioEngine.world st))),
        option_map Scheduler.currentStep (AudioEngine.scheduler st),
        AudioEngine.currentStep (AudioEngine.engine (AudioEngine.world st)),
        AudioEngine.isPlaying (AudioEngine.engine (AudioEngine.world st))))
    (store_of
       (session (AudioEngine.new_engine (WebAudio.new_host (fun _ => 0) true) no_timers)))
  = Some ([(WebAudio.Kick, 0); (WebAudio.Kick, 12 # 17);
           (WebAudio.Kick, 24 # 17); (WebAudio.Kick, 36 # 17)],
          Some 0%Z, 15%Z, true).
Proof. vm_compute. reflexivity. Qed.

(* ------------------------------------------------------------------------- *)
(** ** The engine: callbacks and life cycle *)
(* ------------------------------------------------------------------------- *)

Section Callbacks.

Import WebAudio AudioEngine.

Lemma in_host_engine {A} (c : M Host A) (w w' : World) :
  store_of (in_host c w) = Some w' -> engine w' = engine w.
Proof.
  unfold in_host, zoom. destruct (c (host w)); cbn [store_of]; intros [= <-]; reflexivity.
Qed.

Lemma sound_engine (track : Pattern -> list Z)
    (cr : option AudioContext -> Q -> option Node -> M Host unit)
    (step : Z) (time : Q) (w w' : World) :
  store_of (sound track cr step time w) = Some w' -> engine w' = engine w.
Proof.
  unfold sound, flag. cbv beta iota delta [bind this gets ret skip throw].
  destruct (pattern (engine w)) as [p |]; [| intros [= <-]; reflexivity].
  destruct (active_at (track p) step); [| intros [= <-]; reflexivity].
  apply in_host_engine.
Qed.

Lemma scheduleStepSounds_engine (step : Z) (time : Q) (w w' : World) :
  store_of (scheduleStepSounds step time w) = Some w' -> engine w' = engine w.
Proof.
  unfold scheduleStepSounds. unfold bind at 1, this at 1, gets at 1.
  destruct (pattern (engine w)) as [p |]; [| intros [= <-]; reflexivity].
  intros H.
  apply bind_store in H. destruct H as [(a1 & w1 & R1 & H) | (e & R1)].
  2: { apply sound_engine with (track := kick) (cr := SoundGenerator.createKick)
         (step := step) (time := time). rewrite R1. reflexivity. }
  assert (E1 : engine w1 = engine w)
    by (eapply sound_engine; rewrite R1; reflexivity).
  apply bind_store in H. destruct H as [(a2 & w2 & R2 & H) | (e & R2)].
  2: { rewrite <- E1. eapply sound_engine. rewrite R2. reflexivity. }
  assert (E2 : engine w2 = engine w1)
    by (eapply sound_engine; rewrite R2; reflexivity).
  apply bind_store in H. destruct H as [(a3 & w3 & R3 & H) | (e & R3)].
  2: { rewrite <- E1, <- E2. eapply sound_engine. rewrite R3. reflexivity. }
  assert (E3 : engine w3 = engine w2)
    by (eapply sound_engine; rewrite R3; reflexivity).
  rewrite <- E1, <- E2, <- E3. eapply sound_engine. exact H.
Qed.

Lemma onStep_effect : Scheduler.step_effect ready onStep stepped.
Proof.
  intros k w Hr. split; [reflexivity | exact Hr].
Qed.

Lemma onSchedule_effect : Scheduler.schedule_effect ready onSchedule scheduled.
Proof.
  intros k t w [Hc Hg]. unfold onSchedule, scheduled.
  assert (Hdone : exists w', scheduleStepSounds k t w = Done tt w').
  { destruct (pattern (engine w)) as [p |] eqn:Hp.
    - destruct (context (engine w)) as [ctx |] eqn:Ec; [| congruence].
      destruct (masterGain (engine w)) as [g |] eqn:Eg; [| congruence].
      destruct (@scheduleStepSounds_ready k t w p ctx g Hp Ec Eg) as (w' & Hrun & _).
      exists w'. exact Hrun.
    - exists w. apply scheduleStepSounds_no_pattern. exact Hp. }
  destruct Hdone as (w' & Hrun). rewrite Hrun. cbn [store_of].
  split; [reflexivity |].
  assert (He : engine w' = engine w)
    by (apply (@scheduleStepSounds_engine k t); rewrite Hrun; reflexivity).
  unfold ready. rewrite He. split; assumption.
Qed.

End Callbacks.

Section Lifecycle.

Import WebAudio AudioEngine.

Ltac run_engine :=
  cbv beta iota zeta delta
    [init start stop toggle destroy reset setTempo setPattern new_engine constructor
     call_scheduler in_world in_host on_engine this set_scheduler setupMasterChain
     zoom bind ret gets modify throw skip
     createGain createDynamicsCompressor on_context fresh request connect
     world scheduler timers engine host
     context masterGain compressor tempo isPlaying currentStep pattern
     set_context set_masterGain set_compressor set_isPlaying set_currentStep
     set_tempo set_pattern set_state state sampleRate
     ops next_node random drawn strict_connect triggers
     has_AudioContext initial_state hardware_rate resume
     Scheduler.stop Scheduler.destroy Scheduler.reset Scheduler.setTempo
     Scheduler.on_self Scheduler.this Scheduler.in_timers
     Scheduler.self Scheduler.timers Scheduler.world
     Scheduler.set_isPlaying Scheduler.set_timerID Scheduler.set_tempo
     Scheduler.set_currentStep
     Scheduler.tempo Scheduler.lookahead Scheduler.scheduleAheadTime
     Scheduler.isPlaying Scheduler.currentStep Scheduler.nextNoteTime
     Scheduler.timerID
     clearInterval active next_handle].

Lemma stop_twice (st : Store) :
  exists st1, stop st = Done tt st1 /\ stop st1 = Done tt st1.
Proof.
  destruct st as [[[ctx mg comp tp pl cs pat] h] [[t l a p k n [id |]] |] tm];
    run_engine; (eexists; split; [reflexivity |]); run_engine; reflexivity.
Qed.

Lemma destroy_twice (st : Store) :
  exists st1, destroy st = Done tt st1 /\ destroy st1 = Done tt st1.
Proof.
  destruct st as [[[[ctx |] mg comp tp pl cs pat] h] [[t l a p k n [id |]] |] tm];
    run_engine; (eexists; split; [reflexivity |]); run_engine; reflexivity.
Qed.

Lemma destroy_new (h : Host) (tm : Timers) :
  destroy (new_engine h tm) = Done tt (new_engine h tm).
Proof. reflexivity. Qed.

Lemma playback_without_scheduler (st : Store) :
  scheduler st = None ->
  stop st = Done tt st /\
  forall now, start now st = Done tt st /\ toggle now st = Done tt st.
Proof.
  destruct st as [[[ctx mg comp tp pl cs pat] h] s tm]. cbn [scheduler].
  intros ->. split; [reflexivity |]. intros now. split; [reflexivity |].
  destruct pl; reflexivity.
Qed.

Lemma init_returns_true (env : Env) (st st' : Store) (b : bool) :
  init env st = Done b st' -> b = true.
Proof.
  unfold init. intros H.
  apply bind_inv_done in H. destruct H as (? & s1 & _ & H).
  apply bind_inv_done in H. destruct H as (? & s2 & _ & H).
  apply bind_inv_done in H. destruct H as (? & s3 & _ & H).
  apply bind_inv_done in H. destruct H as (? & s4 & _ & H).
  injection H as <- _. reflexivity.
Qed.

Lemma init_without_api (env : Env) (st : Store) :
  context (engine (world st)) = None -> has_AudioContext env = false ->
  init env st = Raise TypeError st.
Proof.
  destruct st as [[[ctx mg comp tp pl cs pat] h] s tm], env as [api ist rate res].
  cbn [world engine context has_AudioContext]. intros -> ->. reflexivity.
Qed.

Lemma init_failed_fresh (env : Env) (h : Host) (tm : Timers) (e : exn) (st' : Store) :
  init env (new_engine h tm) = Raise e st' ->
  scheduler st' = None /\
  masterGain (engine (world st')) = None /\
  isPlaying (engine (world st')) = false /\
  tempo (engine (world st')) = 85 /\
  host (world st') = h /\ timers st' = tm /\
  (has_AudioContext env = false /\ e = TypeError /\ st' = new_engine h tm \/
   has_AudioContext env = true /\ initial_state env = Suspended /\
   (resume env = Refused /\ e = Rejected \/ resume env = Pending /\ e = Unsettled) /\
   context (engine (world st'))
     = Some {| state := Suspended; sampleRate := hardware_rate env |}).
Proof.
  destruct env as [[|] [| |] rate [| |]], h as [o n r dr sc tr]; run_engine;
    intros H; try discriminate H; injection H as <- <-; cbn;
    repeat (split; [reflexivity |]);
    first [ left; repeat split; reflexivity
          | right; split; [reflexivity |]; split; [reflexivity |];
            split; [| reflexivity];
            first [left; split; reflexivity | right; split; reflexivity] ].
Qed.

Lemma onStep_keeps (e0 : Fields) (k : Z) (w w' : World) :
  set_currentStep 0%Z (engine w) = set_currentStep 0%Z e0 ->
  store_of (onStep k w) = Some w' ->
  set_currentStep 0%Z (engine w') = set_currentStep 0%Z e0.
Proof. intros H [= <-]. exact H. Qed.

Lemma onSchedule_keeps (e0 : Fields) (k : Z) (t : Q) (w w' : World) :
  set_currentStep 0%Z (engine w) = set_currentStep 0%Z e0 ->
  store_of (onSchedule k t w) = Some w' ->
  set_currentStep 0%Z (engine w') = set_currentStep 0%Z e0.
Proof.
  intros H Hrun. rewrite (scheduleStepSounds_engine _ _ _ Hrun). exact H.
Qed.

Lemma start_twice (now now' : Q) (st st1 : Store) :
  start now st = Done tt st1 -> start now' st1 = Done tt st1.
Proof.
  destruct st as [[e h] [s |] tm].
  2: { intros [= <-]. reflexivity. }
  destruct (context e) as [ctx |] eqn:Hctx.
  2: { unfold start. cbv beta iota delta [bind gets in_world zoom this].
       cbn [world scheduler engine]. rewrite Hctx. intros [= <-].
       cbn [world scheduler engine]. rewrite Hctx. reflexivity. }
  unfold start at 1. cbv beta iota delta [bind gets in_world zoom this on_engine modify].
  cbn [world scheduler engine timers host]. rewrite Hctx.
  unfold call_scheduler. cbn [world scheduler timers].
  destruct (Scheduler.start onStep onSchedule now _) as [[] r | |] eqn:Hrun;
    [| discriminate | discriminate].
  intros [= <-].
  cbn [engine host] in Hrun.
  destruct (@start_frame World onStep onSchedule
              (fun w => set_currentStep 0%Z (engine w)
                        = set_currentStep 0%Z (set_isPlaying true e))
              (@onStep_keeps (set_isPlaying true e))
              (@onSchedule_keeps (set_isPlaying true e))
              now
              {| Scheduler.self := s; Scheduler.timers := tm;
                 Scheduler.world := {| engine := set_isPlaying true e; host := h |} |}
              r) as (Hkeep & _ & Hplaying & _).
  { rewrite Hrun. reflexivity. }
  { reflexivity. }
  destruct r as [s' tm' [e' h']].
  cbn [Scheduler.self Scheduler.world engine] in Hkeep, Hplaying.
  assert (He : context e' = Some ctx /\ set_isPlaying true e' = e').
  { destruct e' as [c1 g1 k1 t1 p1 s1 pt1], e as [c0 g0 k0 t0 p0 s0 pt0].
    cbn in Hkeep, Hctx. injection Hkeep as -> -> -> -> -> ->. subst c0.
    split; reflexivity. }
  destruct He as [Hctx' Heta].
  unfold start. cbv beta iota delta [bind gets in_world zoom this on_engine modify].
  cbn [world scheduler engine timers host Scheduler.self Scheduler.world Scheduler.timers].
  rewrite Hctx'.
  cbn [world scheduler engine timers host]. rewrite Heta.
  unfold call_scheduler.
  cbn [world scheduler engine timers host Scheduler.self Scheduler.world Scheduler.timers].
  rewrite start_running by exact Hplaying. reflexivity.
Qed.

Lemma init_succeeds (env : Env) (st : Store) :
  scheduler st = None ->
  masterGain (engine (world st)) = None ->
  (context (engine (world st)) = None -> has_AudioContext env = true) ->
  resume env = Fulfilled ->
  exists st',
    init env st = Done true st' /\
    scheduler st' = Some (Scheduler.constructor (Some (tempo (engine (world st))))) /\
    ready (world st') /\
    isPlaying (engine (world st')) = isPlaying (engine (world st)) /\
    tempo (engine (world st')) = tempo (engine (world st)) /\
    pattern (engine (world st')) = pattern (engine (world st)) /\
    timers st' = timers st.
Proof.
  destruct st as [[[ctx mg comp tp pl cs pat] h] s tm], env as [api ist rate res].
  cbn [scheduler world engine masterGain context has_AudioContext resume].
  intros -> -> Hapi ->.
  destruct h as [o n r dr sc tr].
  destruct ctx as [[[| |] sr] |].
  4: rewrite (Hapi eq_refl); destruct ist.
  all: run_engine; (eexists; split; [reflexivity |]);
    cbn [scheduler world engine timers isPlaying tempo pattern];
    (split; [reflexivity |]);
    (split; [unfold ready; cbn [engine context masterGain]; split; discriminate |]);
    repeat split.
Qed.

Lemma engine_start_idle (now : Q) (st : Store) (s : Scheduler.Fields) :
  scheduler st = Some s -> ready (world st) ->
  Scheduler.isPlaying s = false ->
  0 < Scheduler.tempo s -> 0 < Scheduler.scheduleAheadTime s ->
  exists n st' s',
    (1 <= n)%nat /\
    start now st = Done tt st' /\
    isPlaying (engine (world st')) = true /\
    scheduler st' = Some s' /\
    Scheduler.isPlaying s' = true /\
    Scheduler.timerID s' = Some (next_handle (timers st)) /\
    armed (next_handle (timers st)) (timers st') = true /\
    world st' =
      Scheduler.perform_all stepped scheduled
        (Scheduler.due_calls (Scheduler.currentStep s) now
           (Scheduler.calculateSixteenthNoteTime (Scheduler.tempo s)) n)
        {| engine := set_isPlaying true (engine (world st)); host := host (world st) |}.
Proof.
  destruct st as [[e h] s0 tm]. cbn [scheduler world engine host timers].
  intros -> Hready Hidle Htempo Hahead.
  assert (Hctx : exists ctx, context e = Some ctx).
  { destruct Hready as [Hc _]. cbn [engine] in Hc.
    destruct (context e) as [ctx |]; [exists ctx; reflexivity | congruence]. }
  destruct Hctx as (ctx & Hctx).
  set (S0 := {| Scheduler.self := s; Scheduler.timers := tm;
                Scheduler.world := {| engine := set_isPlaying true e; host := h |} |}).
  assert (Hready0 : ready (Scheduler.world S0)).
  { destruct Hready as [Hc Hg]. split; cbn in *; assumption. }
  destruct (@start_idle_result World ready onStep onSchedule stepped scheduled
              onStep_effect onSchedule_effect now S0 Hready0 Htempo Hahead Hidle)
    as (n & Hn & Hpass & Hstart & Hw & _ & Hplay & Hid & _ & Harmed).
  set (R := Scheduler.rounds stepped scheduled n (Scheduler.prepare now S0)) in *.
  destruct (@pass_frame World onStep onSchedule
              (fun w => set_currentStep 0%Z (engine w)
                        = set_currentStep 0%Z (set_isPlaying true e))
              (@onStep_keeps (set_isPlaying true e))
              (@onSchedule_keeps (set_isPlaying true e))
              now (Scheduler.prepare now S0) R) as (_ & _ & Hkeep).
  { rewrite Hpass. reflexivity. }
  { reflexivity. }
  exists n.
  exists {| world := Scheduler.world (Scheduler.arm R);
            scheduler := Some (Scheduler.self (Scheduler.arm R));
            timers := Scheduler.timers (Scheduler.arm R) |}.
  exists (Scheduler.self (Scheduler.arm R)).
  split; [exact Hn |].
  split.
  { unfold start. cbv beta iota delta [bind gets in_world zoom this on_engine modify].
    cbn [world scheduler engine timers host]. rewrite Hctx.
    unfold call_scheduler. cbn [world scheduler engine timers host].
    fold S0. rewrite Hstart. reflexivity. }
  cbn [world scheduler timers].
  split.
  { cbn [Scheduler.arm Scheduler.world].
    apply (f_equal isPlaying) in Hkeep. exact Hkeep. }
  split; [reflexivity |]. split; [exact Hplay |]. split; [exact Hid |].
  split; [exact Harmed |]. exact Hw.
Qed.

Lemma start_while_playing (now : Q) (st : Store) (s : Scheduler.Fields) :
  scheduler st = Some s -> Scheduler.isPlaying s = true ->
  isPlaying (engine (world st)) = true ->
  start now st = Done tt st.
Proof.
  destruct st as [[[ctx mg comp tp pl cs pat] h] s0 tm].
  cbn [scheduler world engine isPlaying]. intros -> Hs ->.
  unfold start. cbv beta iota delta [bind gets in_world zoom this on_engine modify].
  cbn [world scheduler engine timers host context set_isPlaying
       masterGain compressor tempo isPlaying currentStep pattern].
  destruct ctx as [c |]; [| reflexivity].
  unfold call_scheduler. cbn [world scheduler timers].
  rewrite start_running by exact Hs. reflexivity.
Qed.

Lemma stop_while_stopped (st : Store) :
  isPlaying (engine (world st)) = false ->
  (forall s, scheduler st = Some s ->
     Scheduler.isPlaying s = false /\ Scheduler.timerID s = None) ->
  stop st = Done tt st.
Proof.
  destruct st as [[[ctx mg comp tp pl cs pat] h] [s |] tm];
    cbn [scheduler world engine isPlaying]; intros -> Hs; [| reflexivity].
  destruct (Hs s eq_refl) as [Hp Hid].
  destruct s as [t l a p k n id]. cbn in Hp, Hid. subst. reflexivity.
Qed.

End Lifecycle.

(* ------------------------------------------------------------------------- *)
(** ** Failures: a missing audio API, repeated calls, voices without context *)
(* ------------------------------------------------------------------------- *)

(** C7.  [init()] is documented to return whether initialisation succeeded,
    and its caller tests the value; the code has no path that returns
    [false].  Where the host has no [AudioContext] constructor, [init()] on a
    new engine does not return a failure indicator: it raises a [TypeError]
    (the promise of [init()] is rejected) and leaves the engine as
    constructed. *)
Lemma C7_init_raises :
  AudioEngine.init
    {| AudioEngine.has_AudioContext := false;
       AudioEngine.initial_state := WebAudio.Suspended;
       AudioEngine.hardware_rate := 44100;
       AudioEngine.resume := AudioEngine.Fulfilled |}
    (AudioEngine.new_engine (WebAudio.new_host (fun _ => 0) true) no_timers)
  = Raise TypeError
      (AudioEngine.new_engine (WebAudio.new_host (fun _ => 0) true) no_timers) /\
  ~ (exists b st',
       AudioEngine.init
         {| AudioEngine.has_AudioContext := false;
            AudioEngine.initial_state := WebAudio.Suspended;
            AudioEngine.hardware_rate := 44100;
            AudioEngine.resume := AudioEngine.Fulfilled |}
         (AudioEngine.new_engine (WebAudio.new_host (fun _ => 0) true) no_timers)
       = Done b st').
Proof.
  split; [reflexivity |]. intros (b & st' & H). discriminate H.
Qed.

(** What a failed [init()] leaves.  [init()] never returns [false]: it
    returns [true] or it does not return.  Where the audio API is missing, [init()] on a fresh
    engine raises a [TypeError] and leaves the engine as constructed.  An
    [init()] on a fresh engine fails only in this way or because the new
    context is suspended and its [resume()] is rejected or never settles.
    After any failed [init()] on a fresh engine there is no scheduler and no
    master chain, the engine is not playing, and [start()], [stop()] and
    [toggle()] return normally and change nothing; a later [init()] in an
    environment that has the API and lets the context resume returns [true],
    and [start()] then makes the engine play. *)
Lemma failed_init_leaves_engine_idle
    (env : AudioEngine.Env) (h : WebAudio.Host) (tm : Timers) :
  (forall st b st', AudioEngine.init env st = Done b st' -> b = true) /\
  (AudioEngine.has_AudioContext env = false ->
   AudioEngine.init env (AudioEngine.new_engine h tm)
     = Raise TypeError (AudioEngine.new_engine h tm)) /\
  (forall e st',
     AudioEngine.init env (AudioEngine.new_engine h tm) = Raise e st' ->
     (AudioEngine.has_AudioContext env = false /\ e = TypeError \/
      AudioEngine.has_AudioContext env = true /\
      AudioEngine.initial_state env = WebAudio.Suspended /\
      (AudioEngine.resume env = AudioEngine.Refused /\ e = Rejected \/
       AudioEngine.resume env = AudioEngine.Pending /\ e = Unsettled)) /\
     AudioEngine.scheduler st' = None /\
     AudioEngine.masterGain (AudioEngine.engine (AudioEngine.world st')) = None /\
     AudioEngine.isPlaying (AudioEngine.engine (AudioEngine.world st')) = false /\
     AudioEngine.stop st' = Done tt st' /\
     (forall now,
        AudioEngine.start now st' = Done tt st' /\
        AudioEngine.toggle now st' = Done tt st') /\
     (forall env',
        AudioEngine.has_AudioContext env' = true ->
        AudioEngine.resume env' = AudioEngine.Fulfilled ->
        exists st'',
          AudioEngine.init env' st' = Done true st'' /\
          forall now, exists st3,
            AudioEngine.start now st'' = Done tt st3 /\
            AudioEngine.isPlaying (AudioEngine.engine (AudioEngine.world st3)) = true)).
Proof.
  split; [| split].
  - intros st b st'. apply init_returns_true.
  - intros Hapi. apply init_without_api; [reflexivity | exact Hapi].
  - intros e st' Hfail.
    destruct (init_failed_fresh _ _ _ Hfail) as (Hs & Hg & Hp & Ht & _ & _ & Hwhy).
    destruct (playback_without_scheduler _ Hs) as (Hstop & Hstart).
    split.
    { destruct Hwhy as [(Ha & He & _) | (Ha & Hi & Hr & _)];
        [left; split; assumption | right; repeat split; assumption]. }
    split; [exact Hs |]. split; [exact Hg |]. split; [exact Hp |].
    split; [exact Hstop |]. split; [exact Hstart |].
    intros env' Hapi Hres.
    destruct (@init_succeeds env' st' Hs Hg (fun _ => Hapi) Hres)
      as (st'' & Hinit & Hsched & Hready & _).
    exists st''. split; [exact Hinit |].
    intros now.
    destruct (@engine_start_idle now st'' _ Hsched Hready)
      as (n & st3 & s3 & _ & Hstart3 & Hplay3 & _).
    + reflexivity.
    + cbn [Scheduler.constructor Scheduler.tempo]. rewrite Ht. reflexivity.
    + reflexivity.
    + exists st3. split; [exact Hstart3 | exact Hplay3].
Qed.

(** C8. For every store of the engine: [destroy()] returns normally, and a
    second [destroy()] returns normally and changes nothing more; [destroy()]
    on an engine whose [init()] was never called returns normally and changes
    nothing; [stop()] returns normally, and a second [stop()] returns
    normally and changes nothing more; after a [start()] that returned, a
    second [start()] returns normally and changes nothing.  Said of the
    flags: [stop()] on an engine that is not playing (nor is its scheduler, if
    it has one) changes nothing, and [start()] on an engine that plays, as
    does its scheduler, changes nothing. *)
Theorem C8_double_operations :
  (forall st, exists st1,
      AudioEngine.destroy st = Done tt st1 /\ AudioEngine.destroy st1 = Done tt st1) /\
  (forall h tm,
      AudioEngine.destroy (AudioEngine.new_engine h tm)
        = Done tt (AudioEngine.new_engine h tm)) /\
  (forall st, exists st1,
      AudioEngine.stop st = Done tt st1 /\ AudioEngine.stop st1 = Done tt st1) /\
  (forall now now' st st1,
      AudioEngine.start now st = Done tt st1 ->
      AudioEngine.start now' st1 = Done tt st1) /\
  (forall st,
      AudioEngine.isPlaying (AudioEngine.engine (AudioEngine.world st)) = false ->
      (forall s, AudioEngine.scheduler st = Some s ->
         Scheduler.isPlaying s = false /\ Scheduler.timerID s = None) ->
      AudioEngine.stop st = Done tt st) /\
  (forall now st s,
      AudioEngine.scheduler st = Some s ->
      Scheduler.isPlaying s = true ->
      AudioEngine.isPlaying (AudioEngine.engine (AudioEngine.world st)) = true ->
      AudioEngine.start now st = Done tt st).
Proof.
  split; [exact destroy_twice |]. split; [exact destroy_new |].
  split; [exact stop_twice |].
  split; [intros now now' st st1; apply start_twice |].
  split; [exact stop_while_stopped |].
  intros now st s. apply start_while_playing.
Qed.

Lemma C8_double_operations_witness :
  exists st st1,
    AudioEngine.start 0 st = Done tt st1 /\
    AudioEngine.isPlaying (AudioEngine.engine (AudioEngine.world st1)) = true /\
    AudioEngine.start 5 st1 = Done tt st1.
Proof.
  destruct (@init_succeeds
              {| AudioEngine.has_AudioContext := true;
                 AudioEngine.initial_state := WebAudio.Suspended;
                 AudioEngine.hardware_rate := 44100;
                 AudioEngine.resume := AudioEngine.Fulfilled |}
              (AudioEngine.new_engine (WebAudio.new_host (fun _ => 0) true) no_timers)
              eq_refl eq_refl (fun _ => eq_refl) eq_refl)
    as (st & _ & Hsched & Hready & _).
  destruct (@engine_start_idle 0 st _ Hsched Hready eq_refl eq_refl eq_refl)
    as (n & st1 & s1 & _ & Hstart & Hplay & _).
  exists st, st1. split; [exact Hstart |]. split; [exact Hplay |].
  exact (proj1 (proj2 (proj2 (proj2 C8_double_operations))) 0 5 st st1 Hstart).
Defined.

(** With a null context the kick voice raises a [TypeError] to its caller: it
    does not return. *)
Lemma C9_kick_without_context_raises :
  SoundGenerator.createKick None 0 (Some 1%positive) (WebAudio.new_host (fun _ => 0) true)
  = Raise TypeError
      {| WebAudio.ops := [];
         WebAudio.next_node := 1%positive;
         WebAudio.random := fun _ => 0;
         WebAudio.drawn := 0%nat;
         WebAudio.strict_connect := true;
         WebAudio.triggers :=
           [{| WebAudio.voice := WebAudio.Kick; WebAudio.at_time := 0;
               WebAudio.into := Some 1%positive |}] |} /\
  ~ (exists h',
       SoundGenerator.createKick None 0 (Some 1%positive)
         (WebAudio.new_host (fun _ => 0) true) = Done tt h').
Proof.
  split; [reflexivity |]. intros (h' & H). discriminate H.
Qed.

Section Propagation.

Import WebAudio AudioEngine.

Lemma sound_without_context (v : Voice) (step : Z) (time : Q) (w : World) (p : Pattern) :
  pattern (engine w) = Some p -> context (engine w) = None ->
  active_at (track_of v p) step = true ->
  exists w', sound (track_of v) (SoundGenerator.create v) step time w = Raise TypeError w'.
Proof.
  intros Hp Hc Ha. unfold sound, flag.
  cbv beta iota delta [bind this gets ret skip]. rewrite Hp, Ha, Hc.
  unfold in_host, zoom.
  destruct (create_without_context v time (masterGain (engine w)) (host w))
    as (h' & Hrun & _).
  rewrite Hrun. eexists. reflexivity.
Qed.

Lemma sound_inactive (v : Voice) (step : Z) (time : Q) (w : World) (p : Pattern) :
  pattern (engine w) = Some p ->
  active_at (track_of v p) step = false ->
  sound (track_of v) (SoundGenerator.create v) step time w = Done tt w.
Proof.
  intros Hp Ha. unfold sound, flag.
  cbv beta iota delta [bind this gets ret skip]. rewrite Hp, Ha. reflexivity.
Qed.

Lemma scheduleStepSounds_without_context (step : Z) (time : Q) (w : World) (p : Pattern) :
  pattern (engine w) = Some p -> context (engine w) = None ->
  voices_at p step <> [] ->
  exists w', scheduleStepSounds step time w = Raise TypeError w'.
Proof.
  intros Hp Hc Hv. unfold scheduleStepSounds.
  unfold bind at 1, this at 1, gets at 1. rewrite Hp.
  change (sound kick SoundGenerator.createKick)
    with (sound (track_of Kick) (SoundGenerator.create Kick)).
  change (sound snare SoundGenerator.createSnare)
    with (sound (track_of Snare) (SoundGenerator.create Snare)).
  change (sound hihat SoundGenerator.createHiHat)
    with (sound (track_of HiHat) (SoundGenerator.create HiHat)).
  change (sound chord SoundGenerator.createChord)
    with (sound (track_of Chord) (SoundGenerator.create Chord)).
  destruct (active_at (track_of Kick p) step) eqn:A1.
  { destruct (@sound_without_context Kick step time w p Hp Hc A1) as (w' & R).
    exists w'. apply bind_raise. exact R. }
  rewrite (@bind_done _ _ _ _ _ _ _ _ (@sound_inactive Kick step time w p Hp A1)).
  destruct (active_at (track_of Snare p) step) eqn:A2.
  { destruct (@sound_without_context Snare step time w p Hp Hc A2) as (w' & R).
    exists w'. apply bind_raise. exact R. }
  rewrite (@bind_done _ _ _ _ _ _ _ _ (@sound_inactive Snare step time w p Hp A2)).
  destruct (active_at (track_of HiHat p) step) eqn:A3.
  { destruct (@sound_without_context HiHat step time w p Hp Hc A3) as (w' & R).
    exists w'. apply bind_raise. exact R. }
  rewrite (@bind_done _ _ _ _ _ _ _ _ (@sound_inactive HiHat step time w p Hp A3)).
  destruct (active_at (track_of Chord p) step) eqn:A4.
  { apply (@sound_without_context Chord step time w p Hp Hc A4). }
  exfalso. apply Hv. unfold voices_at. cbn [filter]. rewrite A1, A2, A3, A4. reflexivity.
Qed.

End Propagation.

(** C9, amended.  For each of the four voice functions: with a null context
    the call raises a [TypeError] to its caller before any node is requested;
    with a context and a destination it returns normally, having requested
    its nodes; with a context but a null destination it requests nodes and
    then either raises (a host whose [connect] checks its argument) or
    returns (a host that does not) -- in no case is it a no-op.  The engine
    does not catch the exception either: [scheduleStepSounds] with a pattern
    that sounds at the step and no context raises the [TypeError] to the
    scheduler. *)
Theorem C9_voices_need_their_context
    (v : WebAudio.Voice) (time : Q) (h : WebAudio.Host) :
  (forall dest, exists h',
      SoundGenerator.create v None time dest h = Raise TypeError h' /\
      WebAudio.ops h' = WebAudio.ops h /\
      WebAudio.next_node h' = WebAudio.next_node h) /\
  (forall ctx g, exists h',
      SoundGenerator.create v (Some ctx) time (Some g) h = Done tt h' /\
      (length (WebAudio.ops h) < length (WebAudio.ops h'))%nat) /\
  (forall ctx, exists h',
      SoundGenerator.create v (Some ctx) time None h =
        (if WebAudio.strict_connect h then Raise TypeError h' else Done tt h') /\
      (length (WebAudio.ops h) < length (WebAudio.ops h'))%nat) /\
  (forall (step : Z) (w : AudioEngine.World) (p : AudioEngine.Pattern),
      AudioEngine.pattern (AudioEngine.engine w) = Some p ->
      AudioEngine.context (AudioEngine.engine w) = None ->
      AudioEngine.voices_at p step <> [] ->
      exists w', AudioEngine.scheduleStepSounds step time w = Raise TypeError w').
Proof.
  split; [| split; [| split]].
  - intros dest. destruct (create_without_context v time dest h) as (h' & H1 & H2 & H3 & _).
    exists h'. repeat split; assumption.
  - intros ctx g. destruct (create_available v ctx time g h) as (h' & H1 & _ & _ & _ & H5).
    exists h'. split; assumption.
  - intros ctx. apply create_without_destination.
  - intros step w p. apply scheduleStepSounds_without_context.
Qed.

Lemma C9_voices_need_their_context_witness :
  exists w',
    AudioEngine.scheduleStepSounds 0 0
      {| AudioEngine.engine :=
           AudioEngine.set_pattern
             (Some {| AudioEngine.kick := [1]%Z; AudioEngine.snare := [];
                      AudioEngine.hihat := []; AudioEngine.chord := [] |})
             AudioEngine.constructor;
         AudioEngine.host := WebAudio.new_host (fun _ => 0) true |}
    = Raise TypeError w'.
Proof.
  apply (proj2 (proj2 (proj2
    (C9_voices_need_their_context WebAudio.Kick 0 (WebAudio.new_host (fun _ => 0) true))))
    0%Z _
    {| AudioEngine.kick := [1]%Z; AudioEngine.snare := [];
       AudioEngine.hihat := []; AudioEngine.chord := [] |}).
  - reflexivity.
  - reflexivity.
  - discriminate.
Defined.

(* ------------------------------------------------------------------------- *)
(** ** A negative tempo, and what start() and stop() leave *)
(* ------------------------------------------------------------------------- *)

Section Passes.

Import Scheduler.
Open Scope Q_scope.

Variable W : Type.
Variable onStep : Z -> M W unit.
Variable onSchedule : Z -> Q -> M W unit.
Variable stepped : Z -> W -> W.
Variable scheduled : Z -> Q -> W -> W.
Variable ready : W -> Prop.

Hypothesis onStep_ready : step_effect ready onStep stepped.
Hypothesis onSchedule_ready : schedule_effect ready onSchedule scheduled.

Local Abbreviation loop := (scheduler_loop onStep onSchedule).
Local Abbreviation pass := (scheduler onStep onSchedule).
Local Abbreviation round := (round stepped scheduled).
Local Abbreviation rounds := (rounds stepped scheduled).

(** With callbacks that return, a pass returns after some rounds or is cut
    off; it never raises. *)
Lemma loop_outcome (fuel : nat) (now : Q) (st : Store W) :
  ready (world st) ->
  loop fuel now st = Spin \/
  exists m, (m < fuel)%nat /\ loop fuel now st = Done tt (rounds m st).
Proof.
  revert st. induction fuel as [| fuel IH]; intros st Hr; [left; reflexivity |].
  destruct (Qlt_le_dec (nextNoteTime (self st)) (now + scheduleAheadTime (self st)))
    as [Hdue | Hle].
  - rewrite (@loop_due W onStep onSchedule stepped scheduled ready
               onStep_ready onSchedule_ready fuel now st Hr Hdue).
    destruct (IH (round st)) as [Hspin | (m & Hm & Hrun)].
    + apply (@round_ready W onStep onSchedule stepped scheduled ready
               onStep_ready onSchedule_ready st Hr).
    + left. exact Hspin.
    + right. exists (S m). split; [lia | exact Hrun].
  - right. exists 0%nat. split; [lia |].
    apply (@loop_not_due W onStep onSchedule fuel now st Hle).
Qed.

Lemma round_due_again (now : Q) (st : Store W) :
  tempo (self st) < 0 ->
  nextNoteTime (self st) < now + scheduleAheadTime (self st) ->
  nextNoteTime (self (round st)) < now + scheduleAheadTime (self (round st)).
Proof.
  intros Ht Hdue.
  cbn [Scheduler.round self advance set_currentStep set_nextNoteTime
       nextNoteTime scheduleAheadTime].
  change (60 / tempo (self st) / 4) with (calculateSixteenthNoteTime (tempo (self st))).
  assert (Hd : calculateSixteenthNoteTime (tempo (self st)) < 0).
  { rewrite sixteenth_closed_form.
    assert (H : 0 < 15 / - tempo (self st)) by (apply Qlt_shift_div_l; lra).
    assert (E : 15 / - tempo (self st) == - (15 / tempo (self st))) by (field; lra).
    rewrite E in H. lra. }
  set (d := calculateSixteenthNoteTime (tempo (self st))) in *. lra.
Qed.

Lemma loop_hangs (fuel : nat) (now : Q) (st : Store W) :
  ready (world st) ->
  tempo (self st) < 0 ->
  nextNoteTime (self st) < now + scheduleAheadTime (self st) ->
  loop fuel now st = Spin.
Proof.
  revert st. induction fuel as [| fuel IH]; intros st Hr Ht Hdue; [reflexivity |].
  rewrite (@loop_due W onStep onSchedule stepped scheduled ready
             onStep_ready onSchedule_ready fuel now st Hr Hdue).
  apply IH.
  - apply (@round_ready W onStep onSchedule stepped scheduled ready
             onStep_ready onSchedule_ready st Hr).
  - exact Ht.
  - apply round_due_again; assumption.
Qed.

End Passes.

(** X2.  [setTempo] takes any number.  After [setTempo(bpm)] with a negative [bpm]
    a scheduling pass that finds a note due never returns: every advance
    moves [nextNoteTime] back, so the condition of the [while] loop stays
    true.  The timer callback, and [start()] on an idle scheduler, hang with
    it.  (Callbacks that return normally.) *)
Theorem X2_negative_tempo_never_returns
    (W : Type) (ready : W -> Prop)
    (onStep : Z -> M W unit) (onSchedule : Z -> Q -> M W unit)
    (stepped : Z -> W -> W) (scheduled : Z -> Q -> W -> W)
    (st : Scheduler.Store W) (bpm now : Q) :
  Scheduler.step_effect ready onStep stepped ->
  Scheduler.schedule_effect ready onSchedule scheduled ->
  ready (Scheduler.world st) ->
  bpm < 0 ->
  exists st1,
    Scheduler.setTempo bpm st = Done tt st1 /\
    (Scheduler.nextNoteTime (Scheduler.self st)
       < now + Scheduler.scheduleAheadTime (Scheduler.self st) ->
     (forall fuel, Scheduler.scheduler_loop onStep onSchedule fuel now st1 = Spin) /\
     Scheduler.scheduler onStep onSchedule now st1 = Spin /\
     (forall h, armed h (Scheduler.timers st) = true ->
        Scheduler.tick onStep onSchedule h now st1 = Spin)) /\
    (Scheduler.isPlaying (Scheduler.self st) = false ->
     0 < Scheduler.scheduleAheadTime (Scheduler.self st) ->
     Scheduler.start onStep onSchedule now st1 = Spin).
Proof.
  intros Hstep Hsched Hr Hneg.
  eexists. split; [reflexivity |].
  set (st1 := {| Scheduler.self := Scheduler.set_tempo bpm (Scheduler.self st);
                 Scheduler.timers := Scheduler.timers st;
                 Scheduler.world := Scheduler.world st |}).
  split.
  - intros Hdue.
    assert (Hall : forall fuel, Scheduler.scheduler_loop onStep onSchedule fuel now st1 = Spin).
    { intros fuel.
      apply (@loop_hangs W onStep onSchedule stepped scheduled ready Hstep Hsched
               fuel now st1 Hr Hneg Hdue). }
    split; [exact Hall |]. split; [apply Hall |].
    intros h Harmed. unfold Scheduler.tick, bind, gets.
    cbn [st1 Scheduler.timers]. rewrite Harmed. apply Hall.
  - intros Hidle Hahead.
    unfold Scheduler.start, bind at 1, Scheduler.this, gets.
    cbn [st1 Scheduler.self Scheduler.set_tempo Scheduler.isPlaying]. rewrite Hidle.
    unfold bind at 1 2 3. unfold Scheduler.on_self at 1 2. unfold modify at 1 2.
    cbn [Scheduler.self Scheduler.timers Scheduler.world].
    unfold Scheduler.scheduler.
    rewrite (@loop_hangs W onStep onSchedule stepped scheduled ready Hstep Hsched);
      [reflexivity | exact Hr | exact Hneg |].
    cbn [st1 Scheduler.self Scheduler.set_nextNoteTime Scheduler.set_isPlaying
         Scheduler.set_tempo Scheduler.nextNoteTime Scheduler.scheduleAheadTime].
    lra.
Qed.

Lemma X2_negative_tempo_never_returns_witness :
  Scheduler.start (Scheduler.doStep Scheduler.logStep)
    (Scheduler.doSchedule Scheduler.logSchedule) 0
    {| Scheduler.self := Scheduler.constructor (Some (-120));
       Scheduler.timers := no_timers;
       Scheduler.world := @nil Scheduler.Call |}
  = Spin.
Proof.
  destruct (@X2_negative_tempo_never_returns (list Scheduler.Call) (fun _ => True)
              (Scheduler.doStep Scheduler.logStep)
              (Scheduler.doSchedule Scheduler.logSchedule)
              Scheduler.logStep Scheduler.logSchedule
              {| Scheduler.self := Scheduler.constructor None;
                 Scheduler.timers := no_timers;
                 Scheduler.world := @nil Scheduler.Call |}
              (-120) 0
              (fun k w _ => conj eq_refl I)
              (fun k t w _ => conj eq_refl I)
              I eq_refl) as (st1 & Hset & _ & Hstart).
  injection Hset as <-.
  exact (Hstart eq_refl eq_refl).
Defined.

Section Interrupted.

Import Scheduler.
Open Scope Q_scope.

Variable W : Type.
Variable onStep : Z -> M W unit.
Variable onSchedule : Z -> Q -> M W unit.

Lemma loop_interrupted (fuel : nat) (now : Q) (st : Store W) (e : exn) (w' : W) :
  nextNoteTime (self st) < now + scheduleAheadTime (self st) ->
  onStep (currentStep (self st)) (world st) = Raise e w' \/
  (exists w1, onStep (currentStep (self st)) (world st) = Done tt w1 /\
              onSchedule (currentStep (self st)) (nextNoteTime (self st)) w1 = Raise e w') ->
  scheduler_loop onStep onSchedule (S fuel) now st
  = Raise e {| self := self st; timers := timers st; world := w' |}.
Proof.
  intros Hdue Hraise. cbn [scheduler_loop].
  cbv beta iota delta [bind this gets in_world zoom skip ret].
  cbn [self world timers].
  destruct (Qlt_le_dec _ _) as [_ | Hle]; [| exfalso; lra].
  destruct Hraise as [H1 | (w1 & H1 & H2)].
  - rewrite H1. reflexivity.
  - rewrite H1. cbn [self world timers]. rewrite H2. reflexivity.
Qed.

Lemma filter_other_handles (h : positive) (l : list Interval) :
  Forall (fun i => handle i <> h) l ->
  filter (fun i => negb (Pos.eqb (handle i) h)) l = l.
Proof.
  induction 1 as [| i l Hi _ IH]; [reflexivity |].
  cbn [filter]. apply Pos.eqb_neq in Hi. rewrite Hi. cbn [negb]. rewrite IH. reflexivity.
Qed.

End Interrupted.

(** X3.  An exception in the first pass of [start()].  If [onStep] or [onSchedule]
    raises for the first step of [start()] on an idle scheduler, the
    exception leaves [start()] after [isPlaying] was set and before the
    timer was made: the scheduler says it is playing and holds no timer, the
    step was not advanced, every further [start()] does nothing, and [stop()]
    makes the scheduler idle again. *)
Theorem X3_start_interrupted_stays_playing
    (W : Type) (onStep : Z -> M W unit) (onSchedule : Z -> Q -> M W unit)
    (st : Scheduler.Store W) (now : Q) (e : exn) (w' : W) :
  Scheduler.isPlaying (Scheduler.self st) = false ->
  0 < Scheduler.scheduleAheadTime (Scheduler.self st) ->
  onStep (Scheduler.currentStep (Scheduler.self st)) (Scheduler.world st) = Raise e w' \/
  (exists w1,
     onStep (Scheduler.currentStep (Scheduler.self st)) (Scheduler.world st) = Done tt w1 /\
     onSchedule (Scheduler.currentStep (Scheduler.self st)) now w1 = Raise e w') ->
  exists st',
    Scheduler.start onStep onSchedule now st = Raise e st' /\
    Scheduler.isPlaying (Scheduler.self st') = true /\
    Scheduler.timerID (Scheduler.self st') = Scheduler.timerID (Scheduler.self st) /\
    Scheduler.timers st' = Scheduler.timers st /\
    Scheduler.currentStep (Scheduler.self st') = Scheduler.currentStep (Scheduler.self st) /\
    Scheduler.nextNoteTime (Scheduler.self st') = now /\
    (forall now', Scheduler.start onStep onSchedule now' st' = Done tt st') /\
    (exists st'',
       Scheduler.stop st' = Done tt st'' /\
       Scheduler.isPlaying (Scheduler.self st'') = false /\
       Scheduler.world st'' = w').
Proof.
  intros Hidle Hahead Hraise.
  set (st0 := Scheduler.prepare now st).
  assert (Hrun : Scheduler.scheduler onStep onSchedule now st0
                 = Raise e {| Scheduler.self := Scheduler.self st0;
                              Scheduler.timers := Scheduler.timers st0;
                              Scheduler.world := w' |}).
  { unfold Scheduler.scheduler, Scheduler.pass_fuel.
    apply loop_interrupted.
    - cbn [st0 Scheduler.prepare Scheduler.self Scheduler.set_nextNoteTime
           Scheduler.set_isPlaying Scheduler.nextNoteTime Scheduler.scheduleAheadTime].
      lra.
    - exact Hraise. }
  eexists. split.
  { unfold Scheduler.start, bind at 1, Scheduler.this, gets. rewrite Hidle.
    unfold bind at 1 2 3. unfold Scheduler.on_self at 1 2. unfold modify at 1 2.
    cbn [Scheduler.self Scheduler.timers Scheduler.world].
    fold (Scheduler.prepare now st). fold st0. rewrite Hrun. reflexivity. }
  cbn [st0 Scheduler.prepare Scheduler.self Scheduler.timers Scheduler.world
       Scheduler.set_nextNoteTime Scheduler.set_isPlaying
       Scheduler.isPlaying Scheduler.timerID Scheduler.currentStep Scheduler.nextNoteTime].
  do 5 (split; [reflexivity |]).
  split.
  - intros now'. apply start_running. reflexivity.
  - destruct (stop_result
                {| Scheduler.self :=
                     Scheduler.set_nextNoteTime now
                       (Scheduler.set_isPlaying true (Scheduler.self st));
                   Scheduler.timers := Scheduler.timers st;
                   Scheduler.world := w' |})
      as (st'' & Hstop & Hp & _ & _ & _ & _ & _ & _ & Hw & _).
    exists st''. split; [exact Hstop |]. split; [exact Hp | exact Hw].
Qed.

Lemma X3_start_interrupted_stays_playing_witness :
  exists st',
    Scheduler.start (fun _ => throw TypeError) (Scheduler.doSchedule Scheduler.logSchedule) 3
      {| Scheduler.self := Scheduler.constructor (Some 120);
         Scheduler.timers := no_timers;
         Scheduler.world := @nil Scheduler.Call |}
    = Raise TypeError st' /\
    Scheduler.isPlaying (Scheduler.self st') = true /\
    Scheduler.timerID (Scheduler.self st') = None.
Proof.
  destruct (@X3_start_interrupted_stays_playing (list Scheduler.Call)
              (fun _ => throw TypeError) (Scheduler.doSchedule Scheduler.logSchedule)
              {| Scheduler.self := Scheduler.constructor (Some 120);
                 Scheduler.timers := no_timers;
                 Scheduler.world := @nil Scheduler.Call |}
              3 TypeError [] eq_refl eq_refl (or_introl eq_refl))
    as (st' & Hrun & Hp & Hid & _).
  exists st'. split; [exact Hrun |]. split; [exact Hp | exact Hid].
Defined.

(** X4.  [start()] then [stop()] gives the timer back.  On an idle scheduler with a
    positive tempo and callbacks that return, [start()] adds exactly one
    interval timer (the host hands out a handle that is not in use);
    [stop()], and [destroy()], which does the same, removes it again: the
    host's timers are those from before [start()], [timerID] is null, and the
    position reached by the first pass is kept. *)
Theorem X4_start_then_stop_releases_timer
    (W : Type) (ready : W -> Prop)
    (onStep : Z -> M W unit) (onSchedule : Z -> Q -> M W unit)
    (stepped : Z -> W -> W) (scheduled : Z -> Q -> W -> W)
    (st : Scheduler.Store W) (now : Q) :
  Scheduler.step_effect ready onStep stepped ->
  Scheduler.schedule_effect ready onSchedule scheduled ->
  ready (Scheduler.world st) ->
  0 < Scheduler.tempo (Scheduler.self st) ->
  0 < Scheduler.scheduleAheadTime (Scheduler.self st) ->
  Scheduler.isPlaying (Scheduler.self st) = false ->
  Forall (fun i => handle i <> next_handle (Scheduler.timers st))
         (active (Scheduler.timers st)) ->
  exists st1 st2,
    Scheduler.start onStep onSchedule now st = Done tt st1 /\
    length (active (Scheduler.timers st1)) = S (length (active (Scheduler.timers st))) /\
    Scheduler.stop st1 = Done tt st2 /\
    Scheduler.destroy st1 = Done tt st2 /\
    active (Scheduler.timers st2) = active (Scheduler.timers st) /\
    Scheduler.isPlaying (Scheduler.self st2) = false /\
    Scheduler.timerID (Scheduler.self st2) = None /\
    Scheduler.world st2 = Scheduler.world st1 /\
    Scheduler.currentStep (Scheduler.self st2) = Scheduler.currentStep (Scheduler.self st1) /\
    Scheduler.nextNoteTime (Scheduler.self st2) = Scheduler.nextNoteTime (Scheduler.self st1).
Proof.
  intros Hstep Hsched Hr Ht Ha Hidle Hfresh.
  destruct (@start_idle W onStep onSchedule stepped scheduled ready Hstep Hsched
              now st Hr Ht Ha Hidle) as (m & _ & _ & Hstart & _).
  set (R := Scheduler.rounds stepped scheduled m (Scheduler.prepare now st)) in *.
  destruct (rounds_frame stepped scheduled m (Scheduler.prepare now st))
    as (_ & _ & _ & _ & _ & Htm).
  fold R in Htm. cbn [Scheduler.prepare Scheduler.timers] in Htm.
  exists (Scheduler.arm R). eexists.
  split; [exact Hstart |].
  split; [cbn [Scheduler.arm Scheduler.timers active length]; rewrite Htm; reflexivity |].
  assert (Hstop : Scheduler.stop (Scheduler.arm R)
                  = Done tt {| Scheduler.self :=
                                 Scheduler.set_timerID None
                                   (Scheduler.set_isPlaying false
                                      (Scheduler.self (Scheduler.arm R)));
                               Scheduler.timers :=
                                 {| active := active (Scheduler.timers st);
                                    next_handle := Pos.succ (next_handle (Scheduler.timers st)) |};
                               Scheduler.world := Scheduler.world R |}).
  { unfold Scheduler.stop.
    cbv beta iota delta [bind Scheduler.this gets Scheduler.on_self modify
                         Scheduler.in_timers zoom clearInterval].
    cbn [Scheduler.arm Scheduler.self Scheduler.timers Scheduler.world
         Scheduler.set_isPlaying Scheduler.set_timerID Scheduler.timerID
         active next_handle filter handle].
    rewrite Htm, Pos.eqb_refl. cbn [negb].
    rewrite filter_other_handles by exact Hfresh. reflexivity. }
  split; [exact Hstop |]. split; [exact Hstop |].
  repeat split.
Qed.

Lemma X4_start_then_stop_releases_timer_witness :
  exists st1 st2,
    Scheduler.start (Scheduler.doStep Scheduler.logStep)
      (Scheduler.doSchedule Scheduler.logSchedule) 0
      {| Scheduler.self := Scheduler.constructor (Some 120);
         Scheduler.timers := {| active := [{| handle := 3; delay := 1000 |}];
                                next_handle := 7 |};
         Scheduler.world := @nil Scheduler.Call |} = Done tt st1 /\
    Scheduler.stop st1 = Done tt st2 /\
    active (Scheduler.timers st2) = [{| handle := 3; delay := 1000 |}].
Proof.
  destruct (@X4_start_then_stop_releases_timer (list Scheduler.Call) (fun _ => True)
              (Scheduler.doStep Scheduler.logStep)
              (Scheduler.doSchedule Scheduler.logSchedule)
              Scheduler.logStep Scheduler.logSchedule
              {| Scheduler.self := Scheduler.constructor (Some 120);
                 Scheduler.timers := {| active := [{| handle := 3; delay := 1000 |}];
                                        next_handle := 7 |};
                 Scheduler.world := @nil Scheduler.Call |}
              0
              (fun k w _ => conj eq_refl I)
              (fun k t w _ => conj eq_refl I)
              I eq_refl eq_refl eq_refl)
    as (st1 & st2 & Hstart & _ & Hstop & _ & Hact & _).
  - constructor; [cbn; discriminate | constructor].
  - exists st1, st2. split; [exact Hstart |]. split; [exact Hstop | exact Hact].
Defined.

(* ------------------------------------------------------------------------- *)
(** ** The engine under any sequence of calls *)
(* ------------------------------------------------------------------------- *)

Ltac engine_steps :=
  cbv beta iota zeta delta
    [EngineCalls.call AudioEngine.init AudioEngine.start AudioEngine.stop AudioEngine.toggle
     AudioEngine.destroy AudioEngine.reset AudioEngine.setTempo AudioEngine.setPattern
     AudioEngine.new_engine AudioEngine.constructor
     AudioEngine.call_scheduler AudioEngine.in_world AudioEngine.in_host
     AudioEngine.on_engine AudioEngine.this AudioEngine.set_scheduler
     AudioEngine.setupMasterChain
     zoom bind ret gets modify throw skip store_of
     WebAudio.createGain WebAudio.createDynamicsCompressor WebAudio.on_context
     WebAudio.fresh WebAudio.request WebAudio.connect
     AudioEngine.world AudioEngine.scheduler AudioEngine.timers
     AudioEngine.engine AudioEngine.host
     AudioEngine.context AudioEngine.masterGain AudioEngine.compressor AudioEngine.tempo
     AudioEngine.isPlaying AudioEngine.currentStep AudioEngine.pattern
     AudioEngine.set_context AudioEngine.set_masterGain AudioEngine.set_compressor
     AudioEngine.set_isPlaying AudioEngine.set_currentStep
     AudioEngine.set_tempo AudioEngine.set_pattern
     WebAudio.set_state WebAudio.state WebAudio.sampleRate
     WebAudio.ops WebAudio.next_node WebAudio.random WebAudio.drawn
     WebAudio.strict_connect WebAudio.triggers
     AudioEngine.has_AudioContext AudioEngine.initial_state AudioEngine.hardware_rate
     AudioEngine.resume
     Scheduler.stop Scheduler.destroy Scheduler.reset Scheduler.setTempo
     Scheduler.on_self Scheduler.this Scheduler.in_timers
     Scheduler.self Scheduler.timers Scheduler.world
     Scheduler.set_isPlaying Scheduler.set_timerID Scheduler.set_tempo
     Scheduler.set_currentStep
     Scheduler.tempo Scheduler.lookahead Scheduler.scheduleAheadTime
     Scheduler.isPlaying Scheduler.currentStep Scheduler.nextNoteTime
     Scheduler.timerID Scheduler.constructor Scheduler.consistent
     clearInterval active next_handle EngineCalls.coherent AudioEngine.ready].

Ltac coherent_cases :=
  repeat match goal with
         | H : _ /\ _ |- _ => destruct H
         | |- _ /\ _ => split
         end;
  try assumption; try discriminate; try reflexivity; try lia;
  try (symmetry; assumption).

Section EngineInvariant.

Import WebAudio AudioEngine EngineCalls.
Open Scope Q_scope.

Local Abbreviation rounds := (Scheduler.rounds stepped scheduled).

Lemma engine_scheduled (k : Z) (t : Q) (w : World) :
  engine (scheduled k t w) = engine w.
Proof.
  unfold scheduled.
  destruct (store_of (scheduleStepSounds k t w)) as [w' |] eqn:E; [| reflexivity].
  apply (scheduleStepSounds_engine _ _ _ E).
Qed.

(** What the rounds of a pass leave of the engine: every field but
    [currentStep], which holds a step index. *)
Lemma engine_rounds (m : nat) (X : Scheduler.Store World) :
  ready (Scheduler.world X) ->
  (0 <= Scheduler.currentStep (Scheduler.self X) < 16)%Z ->
  (0 <= currentStep (engine (Scheduler.world X)) < 16)%Z ->
  ready (Scheduler.world (rounds m X)) /\
  set_currentStep 0%Z (engine (Scheduler.world (rounds m X)))
    = set_currentStep 0%Z (engine (Scheduler.world X)) /\
  (0 <= currentStep (engine (Scheduler.world (rounds m X))) < 16)%Z /\
  (0 <= Scheduler.currentStep (Scheduler.self (rounds m X)) < 16)%Z.
Proof.
  revert X. induction m as [| m IH]; intros X Hr Hk He.
  - cbn [Scheduler.rounds]. split; [exact Hr |]. split; [reflexivity |]. split; assumption.
  - cbn [Scheduler.rounds].
    destruct (IH (Scheduler.round stepped scheduled X)) as (R1 & R2 & R3 & R4).
    + apply (@round_ready World onStep onSchedule stepped scheduled ready
               onStep_effect onSchedule_effect X Hr).
    + cbn [Scheduler.round Scheduler.self Scheduler.advance Scheduler.set_currentStep
           Scheduler.currentStep].
      rewrite Z.rem_mod_nonneg by lia. apply Z.mod_pos_bound. lia.
    + cbn [Scheduler.round Scheduler.world]. rewrite engine_scheduled.
      cbn [stepped engine set_currentStep currentStep]. exact Hk.
    + split; [exact R1 |]. split; [| split; assumption].
      rewrite R2. cbn [Scheduler.round Scheduler.world]. rewrite engine_scheduled.
      reflexivity.
Qed.

Lemma engine_pass (now : Q) (X : Scheduler.Store World) :
  ready (Scheduler.world X) ->
  Scheduler.scheduler onStep onSchedule now X = Spin /\ Scheduler.tempo (Scheduler.self X) <= 0 \/
  exists m, Scheduler.scheduler onStep onSchedule now X = Done tt (rounds m X).
Proof.
  intros Hr.
  destruct (Qlt_le_dec 0 (Scheduler.tempo (Scheduler.self X))) as [Hpos | Hneg].
  - right.
    destruct (@pass_rounds World onStep onSchedule stepped scheduled ready
                onStep_effect onSchedule_effect now X Hr Hpos) as (m & Hrun & _).
    exists m. exact Hrun.
  - unfold Scheduler.scheduler.
    destruct (@loop_outcome World onStep onSchedule stepped scheduled ready
                onStep_effect onSchedule_effect
                (Scheduler.pass_fuel now (Scheduler.self X)) now X Hr)
      as [Hspin | (m & _ & Hrun)].
    + left. split; [exact Hspin | exact Hneg].
    + right. exists m. exact Hrun.
Qed.

(** The fields of the engine apart from [currentStep]. *)
Lemma frame_fields (e e' : Fields) :
  set_currentStep 0%Z e' = set_currentStep 0%Z e ->
  context e' = context e /\ masterGain e' = masterGain e /\
  compressor e' = compressor e /\ tempo e' = tempo e /\
  isPlaying e' = isPlaying e /\ pattern e' = pattern e.
Proof.
  destruct e, e'. cbn. intros [= -> -> -> -> -> ->]. repeat split.
Qed.


Lemma start_unfold (W : Type) (onS : Z -> M W unit) (onC : Z -> Q -> M W unit)
    (now : Q) (X : Scheduler.Store W) :
  Scheduler.isPlaying (Scheduler.self X) = false ->
  Scheduler.start onS onC now X =
  match Scheduler.scheduler onS onC now (Scheduler.prepare now X) with
  | Done _ R => Done tt (Scheduler.arm R)
  | Raise e R => Raise e R
  | Spin => Spin
  end.
Proof.
  intros Hidle. unfold Scheduler.start, bind at 1, Scheduler.this, gets. rewrite Hidle.
  unfold bind at 1 2 3. unfold Scheduler.on_self at 1 2. unfold modify at 1 2.
  cbn [Scheduler.self Scheduler.timers Scheduler.world].
  fold (Scheduler.prepare now X).
  destruct (Scheduler.scheduler onS onC now (Scheduler.prepare now X)) as [[] R | e R |];
    reflexivity.
Qed.

(** The same agreement, said of the scheduler's view of the store. *)
Lemma coherent_view (s : Scheduler.Fields) (tm : Timers) (w : World) :
  coherent {| world := w; scheduler := Some s; timers := tm |} <->
  (0 <= currentStep (engine w) < 16)%Z /\ ready w /\
  Scheduler.tempo s = tempo (engine w) /\
  Scheduler.isPlaying s = isPlaying (engine w) /\
  Scheduler.consistent s.
Proof. unfold coherent. cbn [world scheduler]. tauto. Qed.

Lemma rounds_coherent (m : nat) (s : Scheduler.Fields) (tm : Timers) (w : World) :
  coherent {| world := w; scheduler := Some s; timers := tm |} ->
  coherent {| world := Scheduler.world
                         (rounds m {| Scheduler.self := s; Scheduler.timers := tm;
                                      Scheduler.world := w |});
              scheduler := Some (Scheduler.self
                         (rounds m {| Scheduler.self := s; Scheduler.timers := tm;
                                      Scheduler.world := w |}));
              timers := Scheduler.timers
                         (rounds m {| Scheduler.self := s; Scheduler.timers := tm;
                                      Scheduler.world := w |}) |}.
Proof.
  rewrite !coherent_view. intros (He & Hr & Ht & Hp & C1 & C2 & C3 & C4).
  set (X := {| Scheduler.self := s; Scheduler.timers := tm; Scheduler.world := w |}).
  destruct (@engine_rounds m X Hr C3 He) as (R1 & R2 & R3 & R4).
  destruct (frame_fields R2) as (_ & _ & _ & F4 & F5 & _).
  destruct (rounds_frame stepped scheduled m X) as (G1 & G2 & G3 & G4 & G5 & _).
  cbn [X Scheduler.self Scheduler.world] in F4, F5, G1, G2, G3, G4, G5.
  split; [exact R3 |]. split; [exact R1 |].
  split; [congruence |]. split; [congruence |].
  unfold Scheduler.consistent. rewrite G2, G3, G4, G5.
  split; [exact C1 |]. split; [exact C2 |]. split; [exact R4 | exact C4].
Qed.

Lemma rounds_settings (m : nat) (X : Scheduler.Store World) :
  ready (Scheduler.world X) ->
  (0 <= Scheduler.currentStep (Scheduler.self X) < 16)%Z ->
  (0 <= currentStep (engine (Scheduler.world X)) < 16)%Z ->
  same_settings (engine (Scheduler.world X)) (engine (Scheduler.world (rounds m X))) /\
  isPlaying (engine (Scheduler.world (rounds m X))) = isPlaying (engine (Scheduler.world X)) /\
  host (Scheduler.world (rounds 0 X)) = host (Scheduler.world X).
Proof.
  intros Hr Hk He. destruct (@engine_rounds m X Hr Hk He) as (_ & R2 & _).
  destruct (frame_fields R2) as (F1 & F2 & F3 & F4 & F5 & F6).
  split; [unfold same_settings; tauto |]. split; [exact F5 | reflexivity].
Qed.

Lemma tick_outcome (h : positive) (now : Q) (st : Store) :
  coherent st ->
  tick h now st = Spin /\ tempo (engine (world st)) <= 0 \/
  exists st',
    tick h now st = Done tt st' /\ coherent st' /\
    same_settings (engine (world st)) (engine (world st')) /\
    isPlaying (engine (world st')) = isPlaying (engine (world st)) /\
    (scheduler st = None <-> scheduler st' = None).
Proof.
  destruct st as [w [s |] tm]; unfold tick, bind, gets; cbn [scheduler].
  2: { intros Hc. right. exists {| world := w; scheduler := None; timers := tm |}.
       split; [reflexivity |]. split; [exact Hc |].
       split; [unfold same_settings; tauto |]. split; [reflexivity | tauto]. }
  intros Hc. unfold call_scheduler. cbn [scheduler world timers].
  unfold Scheduler.tick, bind, gets. cbn [Scheduler.timers].
  destruct (armed h tm).
  - set (X := {| Scheduler.self := s; Scheduler.timers := tm; Scheduler.world := w |}).
    pose proof (proj1 (coherent_view _ _ _) Hc) as (He & Hr & Ht & _ & _ & _ & Hk & _).
    destruct (@engine_pass now X Hr) as [(Hspin & Hneg) | (m & Hrun)].
    + left. rewrite Hspin. split; [reflexivity |].
      cbn [X Scheduler.self] in Hneg. rewrite <- Ht. exact Hneg.
    + right. rewrite Hrun. eexists. split; [reflexivity |].
      split; [apply rounds_coherent; exact Hc |].
      destruct (@rounds_settings m X Hr Hk He) as (S1 & S2 & _).
      cbn [world scheduler]. split; [exact S1 |]. split; [exact S2 |].
      split; intros H; discriminate H.
  - right. eexists. split; [reflexivity |]. split; [exact Hc |].
    split; [unfold same_settings; tauto |]. split; [reflexivity |].
    cbn [scheduler]. tauto.
Qed.

Lemma start_outcome (now : Q) (st : Store) :
  coherent st ->
  start now st = Spin /\ tempo (engine (world st)) <= 0 \/
  exists st',
    start now st = Done tt st' /\ coherent st' /\
    same_settings (engine (world st)) (engine (world st')) /\
    (scheduler st <> None ->
     scheduler st' <> None /\ isPlaying (engine (world st')) = true) /\
    (scheduler st = None -> st' = st).
Proof.
  destruct st as [[e h] [s |] tm].
  2: { intros Hc. right. eexists. split; [reflexivity |]. split; [exact Hc |].
       split; [unfold same_settings; tauto |].
       split; [intros H; exfalso; apply H; reflexivity | reflexivity]. }
  intros Hc. pose proof Hc as Hc0. apply (proj1 (coherent_view _ _ _)) in Hc0.
  destruct Hc0 as (He & Hr & Ht & Hp & C1 & C2 & C3 & C4).
  cbn [engine] in He, Ht, Hp.
  assert (Hctx : exists ctx, context e = Some ctx).
  { destruct Hr as [Hctx _]. cbn [engine] in Hctx.
    destruct (context e) as [ctx |]; [exists ctx; reflexivity | congruence]. }
  destruct Hctx as (ctx & Hctx).
  unfold start. cbv beta iota delta [bind gets in_world zoom this on_engine modify].
  cbn [world scheduler engine timers host]. rewrite Hctx.
  unfold call_scheduler. cbn [world scheduler timers engine host].
  set (w1 := {| engine := set_isPlaying true e; host := h |}).
  set (X := {| Scheduler.self := s; Scheduler.timers := tm; Scheduler.world := w1 |}).
  assert (Hr1 : ready w1) by (destruct Hr; split; assumption).
  destruct (Scheduler.isPlaying s) eqn:Hplay.
  - right. rewrite (@start_running World onStep onSchedule now X Hplay).
    eexists. split; [reflexivity |].
    split; [| split; [unfold same_settings; cbn; tauto
                     | split; [intros _; split; [discriminate | reflexivity]
                              | intros H; discriminate H]]].
    apply (proj2 (coherent_view _ _ _)).
    cbn [w1 engine set_isPlaying currentStep tempo isPlaying].
    split; [exact He |]. split; [exact Hr1 |]. split; [exact Ht |].
    split; [exact Hplay |].
    split; [exact C1 |]. split; [exact C2 |]. split; [exact C3 |].
    intros Hf. cbn [X Scheduler.self] in Hf. congruence.
  - rewrite (@start_unfold World onStep onSchedule now X Hplay).
    destruct (@engine_pass now (Scheduler.prepare now X) Hr1) as [(Hspin & Hneg) | (m & Hrun)].
    + left. rewrite Hspin. split; [reflexivity |].
      cbn [X Scheduler.prepare Scheduler.self Scheduler.set_nextNoteTime
           Scheduler.set_isPlaying Scheduler.tempo] in Hneg.
      rewrite <- Ht. exact Hneg.
    + right. rewrite Hrun. eexists. split; [reflexivity |].
      assert (Hcp : coherent {| world := w1;
                                scheduler := Some (Scheduler.self (Scheduler.prepare now X));
                                timers := tm |}).
      { apply (proj2 (coherent_view _ _ _)).
        cbn [w1 X Scheduler.prepare Scheduler.self engine set_isPlaying currentStep tempo
             isPlaying Scheduler.set_nextNoteTime Scheduler.set_isPlaying
             Scheduler.tempo Scheduler.isPlaying].
        split; [exact He |]. split; [exact Hr1 |]. split; [exact Ht |].
        split; [reflexivity |]. unfold Scheduler.consistent.
        cbn [Scheduler.lookahead Scheduler.scheduleAheadTime Scheduler.currentStep
             Scheduler.isPlaying Scheduler.timerID].
        split; [exact C1 |]. split; [exact C2 |]. split; [exact C3 | discriminate]. }
      pose proof (@rounds_coherent m _ tm w1 Hcp) as Hcr.
      change {| Scheduler.self := Scheduler.self (Scheduler.prepare now X);
                Scheduler.timers := tm; Scheduler.world := w1 |}
        with (Scheduler.prepare now X) in Hcr.
      set (R := rounds m (Scheduler.prepare now X)) in *.
      apply (proj1 (coherent_view _ _ _)) in Hcr.
      destruct Hcr as (Q1 & Q2 & Q3 & Q4 & D1 & D2 & D3 & D4).
      destruct (rounds_frame stepped scheduled m (Scheduler.prepare now X))
        as (_ & _ & _ & G4 & _).
      fold R in G4.
      cbn [X Scheduler.prepare Scheduler.self Scheduler.set_nextNoteTime
           Scheduler.set_isPlaying Scheduler.isPlaying] in G4.
      split.
      * apply (proj2 (coherent_view _ _ _)).
        cbn [Scheduler.arm Scheduler.world Scheduler.self Scheduler.set_timerID
             Scheduler.tempo Scheduler.isPlaying].
        split; [exact Q1 |]. split; [exact Q2 |]. split; [exact Q3 |]. split; [exact Q4 |].
        unfold Scheduler.consistent.
        cbn [Scheduler.lookahead Scheduler.scheduleAheadTime Scheduler.currentStep
             Scheduler.isPlaying Scheduler.timerID Scheduler.set_timerID].
        split; [exact D1 |]. split; [exact D2 |]. split; [exact D3 |].
        rewrite G4. discriminate.
      * split.
        -- destruct (@rounds_settings m (Scheduler.prepare now X) Hr1 C3 He)
             as ((S1 & S2 & S3 & S4 & S5) & _).
           fold R in S1, S2, S3, S4, S5.
           cbn [world Scheduler.arm Scheduler.world engine].
           cbn [X Scheduler.prepare Scheduler.world w1 engine set_isPlaying
                context masterGain compressor tempo pattern] in S1, S2, S3, S4, S5.
           unfold same_settings. tauto.
        -- split; [| intros H; discriminate H].
           intros _. split; [discriminate |].
           cbn [world Scheduler.arm Scheduler.world]. rewrite <- Q4. exact G4.
Qed.

Lemma start_coherent (now : Q) (st st' : Store) :
  coherent st -> store_of (start now st) = Some st' -> coherent st'.
Proof.
  intros Hc Hrun.
  destruct (@start_outcome now st Hc) as [(Hspin & _) | (st1 & Hdone & Hc1 & _)].
  - rewrite Hspin in Hrun. discriminate.
  - rewrite Hdone in Hrun. injection Hrun as <-. exact Hc1.
Qed.

Lemma tick_coherent (h : positive) (now : Q) (st st' : Store) :
  coherent st -> store_of (tick h now st) = Some st' -> coherent st'.
Proof.
  intros Hc Hrun.
  destruct (@tick_outcome h now st Hc) as [(Hspin & _) | (st1 & Hdone & Hc1 & _)].
  - rewrite Hspin in Hrun. discriminate.
  - rewrite Hdone in Hrun. injection Hrun as <-. exact Hc1.
Qed.

Lemma stop_coherent (st st' : Store) :
  coherent st -> store_of (stop st) = Some st' -> coherent st'.
Proof.
  destruct st as [[e h] [s |] tm].
  2: { intros Hc [= <-]. exact Hc. }
  intros Hc. apply (proj1 (coherent_view _ _ _)) in Hc.
  destruct Hc as (He & Hr & Ht & Hp & C1 & C2 & C3 & C4).
  unfold stop. cbv beta iota delta [bind gets in_world zoom this on_engine modify].
  cbn [world scheduler engine timers host].
  unfold call_scheduler. cbn [world scheduler timers engine host].
  set (w1 := {| engine := set_isPlaying false e; host := h |}).
  destruct (stop_result {| Scheduler.self := s; Scheduler.timers := tm; Scheduler.world := w1 |})
    as (R & Hstop & Hp1 & Hid1 & Ht1 & Hl1 & Ha1 & Hk1 & _ & Hw1 & _).
  rewrite Hstop. intros [= <-]. apply (proj2 (coherent_view _ _ _)).
  cbn [Scheduler.self Scheduler.world] in *. rewrite Hw1.
  cbn [w1 engine set_isPlaying currentStep tempo isPlaying] in *.
  split; [exact He |]. split; [destruct Hr; split; assumption |].
  split; [congruence |]. split; [exact Hp1 |].
  unfold Scheduler.consistent. rewrite Hl1, Ha1, Hk1.
  split; [exact C1 |]. split; [exact C2 |]. split; [exact C3 |]. intros _. exact Hid1.
Qed.


Lemma init_coherent (env : Env) (st st' : Store) :
  coherent st -> store_of (call (CallInit env) st) = Some st' -> coherent st'.
Proof.
  destruct st as [[[ctx mg comp tp pl cs pat] h] so tm], env as [api ist rate res].
  destruct h as [o n r dr sc tr].
  destruct ctx as [[cst sr] |], mg as [g |], so as [s |], api, res;
    try destruct cst; try destruct ist; engine_steps;
    intros Hc H; try discriminate H; injection H as <-; engine_steps;
    repeat match goal with
           | H : _ /\ _ |- _ => destruct H
           | |- _ /\ _ => split
           end;
    try assumption; try discriminate; try reflexivity; try lia;
    try (symmetry; assumption).
Qed.


Lemma coherent_same_engine (st st' : Store) :
  engine (world st') = engine (world st) -> scheduler st' = scheduler st ->
  coherent st -> coherent st'.
Proof.
  unfold coherent, ready. intros -> ->. tauto.
Qed.

Lemma simple_calls_coherent (m : Method) (st st' : Store) :
  match m with
  | CallSetupMasterChain | CallSetTempo _ | CallSetPattern _ | CallReset | CallDestroy
  | CallStop => True
  | _ => False
  end ->
  coherent st -> store_of (call m st) = Some st' -> coherent st'.
Proof.
  destruct st as [[[ctx mg comp tp pl cs pat] h] so tm].
  destruct h as [o n r dr sc tr].
  destruct m; intros []; destruct ctx as [[cst sr] |], so as [[t1 l1 a1 p1 k1 n1 [id |]] |];
    engine_steps; intros Hc H; try discriminate H; injection H as <-; engine_steps;
    coherent_cases.
Qed.

Lemma call_coherent (m : Method) (st st' : Store) :
  coherent st -> store_of (call m st) = Some st' -> coherent st'.
Proof.
  destruct m as [env | | step time | now | | now | t | p | | | h now];
    try (apply simple_calls_coherent; exact I).
  - apply init_coherent.
  - intros Hc Hrun. cbn [call] in Hrun. unfold in_world, zoom in Hrun.
    destruct (scheduleStepSounds step time (world st)) as [[] w' | e w' |] eqn:E;
      cbn [store_of] in Hrun; try discriminate Hrun; injection Hrun as <-;
      (apply (@coherent_same_engine st); [| reflexivity | exact Hc]);
      cbn [world]; apply (@scheduleStepSounds_engine step time); rewrite E; reflexivity.
  - apply start_coherent.
  - intros Hc. cbn [call]. unfold toggle, bind at 1, in_world at 1, zoom, this, gets.
    destruct (isPlaying (engine (world st))).
    + apply stop_coherent. exact Hc.
    + apply start_coherent. exact Hc.
  - apply tick_coherent.
Qed.


Lemma reachable_coherent (st : Store) : reachable st -> coherent st.
Proof.
  induction 1 as [h tm | st st' m _ IH Hcall | st tm _ IH].
  - unfold coherent. cbn. split; [lia | reflexivity].
  - apply (@call_coherent m st st' IH Hcall).
  - apply (@coherent_same_engine st); [reflexivity | reflexivity | exact IH].
Qed.

Lemma stop_outcome (st : Store) :
  exists st',
    stop st = Done tt st' /\
    same_settings (engine (world st)) (engine (world st')) /\
    currentStep (engine (world st')) = currentStep (engine (world st)) /\
    host (world st') = host (world st) /\
    (scheduler st <> None ->
     scheduler st' <> None /\ isPlaying (engine (world st')) = false) /\
    (scheduler st = None -> st' = st).
Proof.
  destruct st as [[[ctx mg comp tp pl cs pat] h] [[t1 l1 a1 p1 k1 n1 [id |]] |] tm];
    engine_steps; (eexists; split; [reflexivity |]); engine_steps;
    (split; [unfold same_settings; cbn; tauto |]);
    (split; [reflexivity |]); (split; [reflexivity |]);
    (split; [intros H; try (split; [discriminate | reflexivity]);
             exfalso; apply H; reflexivity |]);
    intros H; try discriminate H; reflexivity.
Qed.

Lemma init_done_facts (env : Env) (st st1 : Store) (b : bool) :
  init env st = Done b st1 ->
  (exists c, context (engine (world st1)) = Some c /\ state c <> Suspended) /\
  masterGain (engine (world st1)) <> None /\
  scheduler st1 <> None.
Proof.
  destruct st as [[[ctx mg comp tp pl cs pat] h] so tm], env as [api ist rate res].
  destruct h as [o n r dr sc tr].
  destruct ctx as [[cst sr] |], mg as [g |], so as [s |], api, res;
    try destruct cst; try destruct ist; engine_steps;
    intros H; try discriminate H; injection H as <- <-; engine_steps;
    (split; [eexists; split; [reflexivity | discriminate] |]); split; discriminate.
Qed.

Lemma init_again (env : Env) (st : Store) :
  (exists c, context (engine (world st)) = Some c /\ state c <> Suspended) ->
  masterGain (engine (world st)) <> None ->
  scheduler st <> None ->
  init env st = Done true st.
Proof.
  destruct st as [[[ctx mg comp tp pl cs pat] h] so tm].
  cbn [world engine context masterGain scheduler].
  intros (c & -> & Hc) Hg Hs.
  destruct mg as [g |]; [| congruence]. destruct so as [s |]; [| congruence].
  destruct c as [[| |] sr]; [exfalso; apply Hc; reflexivity | reflexivity | reflexivity].
Qed.

End EngineInvariant.

(** X6.  The engine and its scheduler never disagree.  In every store an engine
    can be brought to by calls of its methods and by timer callbacks, in any
    order and with any arguments: [currentStep] is in 0..15; without a
    scheduler the engine is not playing; with a scheduler, the context and
    the master gain exist, the scheduler holds the engine's tempo and
    playing state, its step is in 0..15, and an idle scheduler holds no
    timer. *)
Theorem X6_engine_and_scheduler_agree (st : AudioEngine.Store) :
  EngineCalls.reachable st ->
  (0 <= AudioEngine.currentStep (AudioEngine.engine (AudioEngine.world st)) < 16)%Z /\
  (AudioEngine.scheduler st = None ->
   AudioEngine.isPlaying (AudioEngine.engine (AudioEngine.world st)) = false) /\
  (forall s, AudioEngine.scheduler st = Some s ->
     AudioEngine.context (AudioEngine.engine (AudioEngine.world st)) <> None /\
     AudioEngine.masterGain (AudioEngine.engine (AudioEngine.world st)) <> None /\
     Scheduler.tempo s = AudioEngine.tempo (AudioEngine.engine (AudioEngine.world st)) /\
     Scheduler.isPlaying s
       = AudioEngine.isPlaying (AudioEngine.engine (AudioEngine.world st)) /\
     (0 <= Scheduler.currentStep s < 16)%Z /\
     (Scheduler.isPlaying s = false -> Scheduler.timerID s = None)).
Proof.
  intros Hreach. pose proof (reachable_coherent Hreach) as [He Hs].
  split; [exact He |].
  destruct (AudioEngine.scheduler st) as [s |].
  - split; [discriminate |]. intros s' [= <-].
    destruct Hs as ((Hc & Hg) & Ht & Hp & _ & _ & Hk & Hid).
    repeat (split; [assumption |]). exact Hid.
  - split; [intros _; exact Hs | discriminate].
Qed.

Lemma X6_engine_and_scheduler_agree_witness :
  exists st' s,
    AudioEngine.init
      {| AudioEngine.has_AudioContext := true;
         AudioEngine.initial_state := WebAudio.Suspended;
         AudioEngine.hardware_rate := 44100;
         AudioEngine.resume := AudioEngine.Fulfilled |}
      (AudioEngine.new_engine (WebAudio.new_host (fun _ => 0) true) no_timers)
      = Done true st' /\
    AudioEngine.scheduler st' = Some s /\
    Scheduler.tempo s = AudioEngine.tempo (AudioEngine.engine (AudioEngine.world st')).
Proof.
  destruct (@init_succeeds
              {| AudioEngine.has_AudioContext := true;
                 AudioEngine.initial_state := WebAudio.Suspended;
                 AudioEngine.hardware_rate := 44100;
                 AudioEngine.resume := AudioEngine.Fulfilled |}
              (AudioEngine.new_engine (WebAudio.new_host (fun _ => 0) true) no_timers)
              eq_refl eq_refl (fun _ => eq_refl) eq_refl)
    as (st' & Hinit & Hsched & _).
  exists st'. eexists. split; [exact Hinit |]. split; [exact Hsched |].
  refine (proj1 (proj2 (proj2 (proj2 (proj2 (@X6_engine_and_scheduler_agree st'
    (EngineCalls.reach_call
       (EngineCalls.CallInit
          {| AudioEngine.has_AudioContext := true;
             AudioEngine.initial_state := WebAudio.Suspended;
             AudioEngine.hardware_rate := 44100;
             AudioEngine.resume := AudioEngine.Fulfilled |})
       (EngineCalls.reach_new (WebAudio.new_host (fun _ => 0) true) no_timers)
       _))) _ Hsched)))).
  cbn [EngineCalls.call]. unfold bind. rewrite Hinit. reflexivity.
Defined.

Section EnginePlayback.

Import WebAudio AudioEngine EngineCalls.
Open Scope Q_scope.

Lemma toggle_unfold (now : Q) (st : Store) :
  toggle now st = if isPlaying (engine (world st)) then stop st else start now st.
Proof.
  destruct st as [w s tm]. unfold toggle, bind, in_world, zoom, this, gets.
  cbn [world]. destruct (isPlaying (engine w)); reflexivity.
Qed.

Lemma toggle_outcome (now : Q) (st : Store) :
  coherent st ->
  toggle now st = Spin /\ tempo (engine (world st)) <= 0 \/
  exists st',
    toggle now st = Done tt st' /\ coherent st' /\
    same_settings (engine (world st)) (engine (world st')) /\
    (scheduler st <> None ->
     scheduler st' <> None /\
     isPlaying (engine (world st')) = negb (isPlaying (engine (world st)))).
Proof.
  intros Hc. rewrite toggle_unfold.
  destruct (isPlaying (engine (world st))) eqn:Hp.
  - right. destruct (stop_outcome st) as (st' & Hstop & Ht & _ & _ & Hoff & _).
    exists st'. split; [exact Hstop |].
    split; [apply (@stop_coherent st st' Hc); rewrite Hstop; reflexivity |].
    split; [exact Ht | exact Hoff].
  - destruct (@start_outcome now st Hc) as [Hspin | (st' & Hstart & Hc' & Ht & Hon & _)].
    + left. exact Hspin.
    + right. exists st'. repeat (split; [assumption |]). exact Hon.
Qed.

End EnginePlayback.

(** [setPattern] writes the pattern, and that is all. *)
Lemma setPattern_outcome (p : option AudioEngine.Pattern) (st : AudioEngine.Store) :
  AudioEngine.setPattern p st =
  Done tt {| AudioEngine.world :=
               {| AudioEngine.engine :=
                    AudioEngine.set_pattern p (AudioEngine.engine (AudioEngine.world st));
                  AudioEngine.host := AudioEngine.host (AudioEngine.world st) |};
             AudioEngine.scheduler := AudioEngine.scheduler st;
             AudioEngine.timers := AudioEngine.timers st |}.
Proof. destruct st as [[f h] so tm]. reflexivity. Qed.

(** X7.  Once reachable, playback never raises.  The engine is handed
    patterns with the four tracks, or null (what it does with another object
    is not modelled).  In every store it can then be brought to, [start()],
    [toggle()] and the timer callback raise no exception, and
    [scheduleStepSounds] returns normally for every step and time once
    [init()] has made the scheduler. *)
Theorem X7_playback_never_raises (st : AudioEngine.Store) :
  EngineCalls.reachable st ->
  (forall now e st',
     AudioEngine.start now st <> Raise e st' /\
     AudioEngine.toggle now st <> Raise e st') /\
  (forall h now e st', AudioEngine.tick h now st <> Raise e st') /\
  (AudioEngine.scheduler st <> None ->
   forall step time, exists w',
     AudioEngine.scheduleStepSounds step time (AudioEngine.world st) = Done tt w').
Proof.
  intros Hreach. pose proof (reachable_coherent Hreach) as Hc.
  split; [| split].
  - intros now e st'. split.
    + destruct (@start_outcome now st Hc) as [(H & _) | (s1 & H & _)]; rewrite H; discriminate.
    + destruct (@toggle_outcome now st Hc) as [(H & _) | (s1 & H & _)]; rewrite H; discriminate.
  - intros h now e st'.
    destruct (@tick_outcome h now st Hc) as [(H & _) | (s1 & H & _)]; rewrite H; discriminate.
  - intros Hs step time. destruct Hc as [_ Hc].
    destruct (AudioEngine.scheduler st) as [s |]; [| congruence].
    destruct Hc as (Hr & _).
    destruct (onSchedule_effect step time Hr) as [Hrun _].
    eexists. exact Hrun.
Qed.

Lemma X7_playback_never_raises_witness :
  exists st3 w',
    EngineCalls.reachable st3 /\
    AudioEngine.isPlaying (AudioEngine.engine (AudioEngine.world st3)) = true /\
    AudioEngine.pattern (AudioEngine.engine (AudioEngine.world st3))
      = Some (Constants.to_engine Constants.loFiPreset) /\
    (forall h now e st', AudioEngine.tick h now st3 <> Raise e st') /\
    AudioEngine.scheduleStepSounds 4 (1 # 2) (AudioEngine.world st3) = Done tt w'.
Proof.
  destruct (@init_succeeds
              {| AudioEngine.has_AudioContext := true;
                 AudioEngine.initial_state := WebAudio.Running;
                 AudioEngine.hardware_rate := 44100;
                 AudioEngine.resume := AudioEngine.Fulfilled |}
              (AudioEngine.new_engine (WebAudio.new_host (fun _ => 0) true) no_timers)
              eq_refl eq_refl (fun _ => eq_refl) eq_refl)
    as (st1 & Hinit & Hsched1 & _ & _ & Htempo1 & _).
  assert (R1 : EngineCalls.reachable st1).
  { apply (@EngineCalls.reach_call _ st1
             (EngineCalls.CallInit
                {| AudioEngine.has_AudioContext := true;
                   AudioEngine.initial_state := WebAudio.Running;
                   AudioEngine.hardware_rate := 44100;
                   AudioEngine.resume := AudioEngine.Fulfilled |})
             (EngineCalls.reach_new (WebAudio.new_host (fun _ => 0) true) no_timers)).
    cbn [EngineCalls.call]. unfold bind. rewrite Hinit. reflexivity. }
  pose proof (setPattern_outcome (Some (Constants.to_engine Constants.loFiPreset)) st1)
    as Hset.
  set (st2 := {| AudioEngine.world := _; AudioEngine.scheduler := _;
                 AudioEngine.timers := _ |}) in Hset.
  assert (R2 : EngineCalls.reachable st2).
  { apply (@EngineCalls.reach_call _ st2
             (EngineCalls.CallSetPattern (Some (Constants.to_engine Constants.loFiPreset)))
             R1).
    cbn [EngineCalls.call]. rewrite Hset. reflexivity. }
  assert (Hsched2 : AudioEngine.scheduler st2 <> None).
  { cbn [st2 AudioEngine.scheduler]. rewrite Hsched1. discriminate. }
  destruct (@start_outcome 0 st2 (reachable_coherent R2))
    as [(_ & Hneg) | (st3 & Hstart & _ & (_ & _ & _ & _ & Hpat) & Hon & _)].
  { exfalso.
    assert (E : AudioEngine.tempo (AudioEngine.engine (AudioEngine.world st2)) = 85).
    { cbn [st2 AudioEngine.world AudioEngine.engine].
      destruct (AudioEngine.engine (AudioEngine.world st1)). exact Htempo1. }
    rewrite E in Hneg. lra. }
  destruct (Hon Hsched2) as [Hsched3 Hplay].
  assert (R3 : EngineCalls.reachable st3).
  { apply (@EngineCalls.reach_call _ st3 (EngineCalls.CallStart 0) R2).
    cbn [EngineCalls.call]. rewrite Hstart. reflexivity. }
  destruct (@X7_playback_never_raises st3 R3) as (_ & Htick & Hsound).
  destruct (Hsound Hsched3 4%Z (1 # 2)) as [w' Hw'].
  exists st3, w'. split; [exact R3 |]. split; [exact Hplay |].
  split.
  { rewrite Hpat. cbn [st2 AudioEngine.world AudioEngine.engine].
    destruct (AudioEngine.engine (AudioEngine.world st1)). reflexivity. }
  split; [exact Htick | exact Hw'].
Defined.

(** X8.  [toggle()] flips the playing state.  On a reachable, initialised engine
    with a positive tempo, [toggle()] negates [isPlaying] of the engine and
    of its scheduler together, and a second [toggle()] brings both back. *)
Theorem X8_toggle_flips_playing (st : AudioEngine.Store) (now now' : Q) :
  EngineCalls.reachable st ->
  AudioEngine.scheduler st <> None ->
  0 < AudioEngine.tempo (AudioEngine.engine (AudioEngine.world st)) ->
  exists st1 st2,
    AudioEngine.toggle now st = Done tt st1 /\
    AudioEngine.isPlaying (AudioEngine.engine (AudioEngine.world st1))
      = negb (AudioEngine.isPlaying (AudioEngine.engine (AudioEngine.world st))) /\
    option_map Scheduler.isPlaying (AudioEngine.scheduler st1)
      = Some (AudioEngine.isPlaying (AudioEngine.engine (AudioEngine.world st1))) /\
    AudioEngine.toggle now' st1 = Done tt st2 /\
    AudioEngine.isPlaying (AudioEngine.engine (AudioEngine.world st2))
      = AudioEngine.isPlaying (AudioEngine.engine (AudioEngine.world st)) /\
    option_map Scheduler.isPlaying (AudioEngine.scheduler st2)
      = Some (AudioEngine.isPlaying (AudioEngine.engine (AudioEngine.world st2))).
Proof.
  intros Hreach Hs Hpos. pose proof (reachable_coherent Hreach) as Hc.
  assert (Hagree : forall b, EngineCalls.coherent b -> AudioEngine.scheduler b <> None ->
            option_map Scheduler.isPlaying (AudioEngine.scheduler b)
              = Some (AudioEngine.isPlaying (AudioEngine.engine (AudioEngine.world b)))).
  { intros b [_ Hb] Hsb. destruct (AudioEngine.scheduler b) as [s |]; [| congruence].
    destruct Hb as (_ & _ & Hp & _). cbn [option_map]. rewrite Hp. reflexivity. }
  destruct (@toggle_outcome now st Hc) as [(_ & Hneg) | (st1 & H1 & Hc1 & Ht1 & Hflip1)];
    [exfalso; lra |].
  destruct (Hflip1 Hs) as [Hs1 Hp1].
  destruct (@toggle_outcome now' st1 Hc1) as [(_ & Hneg) | (st2 & H2 & Hc2 & Ht2 & Hflip2)];
    [exfalso; destruct Ht1 as (_ & _ & _ & Ht1 & _); rewrite Ht1 in Hneg; lra |].
  destruct (Hflip2 Hs1) as [Hs2 Hp2].
  exists st1, st2. split; [exact H1 |]. split; [exact Hp1 |].
  split; [exact (Hagree st1 Hc1 Hs1) |]. split; [exact H2 |].
  split; [| exact (Hagree st2 Hc2 Hs2)].
  rewrite Hp2, Hp1. apply negb_involutive.
Qed.

Lemma X8_toggle_flips_playing_witness :
  exists st st1 st2,
    AudioEngine.init
      {| AudioEngine.has_AudioContext := true;
         AudioEngine.initial_state := WebAudio.Suspended;
         AudioEngine.hardware_rate := 44100;
         AudioEngine.resume := AudioEngine.Fulfilled |}
      (AudioEngine.new_engine (WebAudio.new_host (fun _ => 0) true) no_timers)
      = Done true st /\
    AudioEngine.toggle 0 st = Done tt st1 /\
    AudioEngine.isPlaying (AudioEngine.engine (AudioEngine.world st1)) = true /\
    AudioEngine.toggle 1 st1 = Done tt st2 /\
    AudioEngine.isPlaying (AudioEngine.engine (AudioEngine.world st2)) = false.
Proof.
  destruct (@init_succeeds
              {| AudioEngine.has_AudioContext := true;
                 AudioEngine.initial_state := WebAudio.Suspended;
                 AudioEngine.hardware_rate := 44100;
                 AudioEngine.resume := AudioEngine.Fulfilled |}
              (AudioEngine.new_engine (WebAudio.new_host (fun _ => 0) true) no_timers)
              eq_refl eq_refl (fun _ => eq_refl) eq_refl)
    as (st & Hinit & Hsched & _ & Hplay & Htempo & _).
  assert (Hreach : EngineCalls.reachable st).
  { apply (EngineCalls.reach_call
             (EngineCalls.CallInit
                {| AudioEngine.has_AudioContext := true;
                   AudioEngine.initial_state := WebAudio.Suspended;
                   AudioEngine.hardware_rate := 44100;
                   AudioEngine.resume := AudioEngine.Fulfilled |})
             (EngineCalls.reach_new (WebAudio.new_host (fun _ => 0) true) no_timers)).
    cbn [EngineCalls.call]. unfold bind. rewrite Hinit. reflexivity. }
  destruct (@X8_toggle_flips_playing st 0 1 Hreach)
    as (st1 & st2 & H1 & P1 & _ & H2 & P2 & _).
  - rewrite Hsched. discriminate.
  - rewrite Htempo. reflexivity.
  - exists st, st1, st2. split; [exact Hinit |]. split; [exact H1 |].
    rewrite Hplay in P1, P2. split; [exact P1 |]. split; [exact H2 | exact P2].
Defined.

(** X9.  [init()] is idempotent.  Once [init()] has returned, a further [init()],
    in whatever environment, returns [true] and changes nothing: no second
    context, master chain or scheduler is made. *)
Theorem X9_init_is_idempotent (env env' : AudioEngine.Env) (st st1 : AudioEngine.Store) (b : bool) :
  AudioEngine.init env st = Done b st1 ->
  AudioEngine.init env' st1 = Done true st1.
Proof.
  intros Hinit.
  destruct (init_done_facts _ _ Hinit) as (Hctx & Hg & Hs).
  apply init_again; assumption.
Qed.

Lemma X9_init_is_idempotent_witness :
  exists st1,
    AudioEngine.init
      {| AudioEngine.has_AudioContext := true;
         AudioEngine.initial_state := WebAudio.Suspended;
         AudioEngine.hardware_rate := 44100;
         AudioEngine.resume := AudioEngine.Fulfilled |}
      (AudioEngine.new_engine (WebAudio.new_host (fun _ => 0) true) no_timers)
      = Done true st1 /\
    AudioEngine.init
      {| AudioEngine.has_AudioContext := false;
         AudioEngine.initial_state := WebAudio.Suspended;
         AudioEngine.hardware_rate := 48000;
         AudioEngine.resume := AudioEngine.Refused |} st1
      = Done true st1.
Proof.
  destruct (@init_succeeds
              {| AudioEngine.has_AudioContext := true;
                 AudioEngine.initial_state := WebAudio.Suspended;
                 AudioEngine.hardware_rate := 44100;
                 AudioEngine.resume := AudioEngine.Fulfilled |}
              (AudioEngine.new_engine (WebAudio.new_host (fun _ => 0) true) no_timers)
              eq_refl eq_refl (fun _ => eq_refl) eq_refl)
    as (st1 & Hinit & _).
  exists st1. split; [exact Hinit |].
  exact (@X9_init_is_idempotent _ _ _ _ _ Hinit).
Defined.

Section DestroyFinal.

Import WebAudio AudioEngine EngineCalls.

Lemma destroy_closes (st : Store) :
  exists st',
    destroy st = Done tt st' /\
    host (world st') = host (world st) /\
    masterGain (engine (world st')) = masterGain (engine (world st)) /\
    (scheduler st <> None -> scheduler st' <> None) /\
    isPlaying (engine (world st')) = (match scheduler st with Some _ => false | None => isPlaying (engine (world st)) end) /\
    (forall s', scheduler st' = Some s' ->
       Scheduler.isPlaying s' = false /\ Scheduler.timerID s' = None) /\
    (forall c, context (engine (world st)) = Some c ->
       context (engine (world st')) = Some (set_state Closed c)) /\
    (forall h, option_map Scheduler.timerID (scheduler st) = Some (Some h) ->
       armed h (timers st') = false).
Proof.
  destruct st as [[[[c |] mg comp tp pl cs pat] h] [[t1 l1 a1 p1 k1 n1 [id |]] |] [act nh]];
    engine_steps; (eexists; split; [reflexivity |]); engine_steps;
    (split; [reflexivity |]); (split; [reflexivity |]);
    (split; [intros H; try discriminate; exfalso; apply H; reflexivity |]);
    (split; [reflexivity |]);
    (split; [intros s' H; try discriminate H; injection H as <-; split; reflexivity |]);
    (split; [intros c' H; try discriminate H; injection H as <-; reflexivity |]);
    intros h' H; try discriminate H; injection H as <-.
  all: unfold armed; cbn [active];
    induction act as [| i l IH]; [reflexivity |];
    cbn [filter]; destruct (Pos.eqb (handle i) id) eqn:Eh; cbn [negb existsb];
    [exact IH | rewrite Eh; exact IH].
Qed.

End DestroyFinal.

(** X10.  [destroy()] is final.  After [destroy()] on an initialised engine the
    context is closed, engine and scheduler are not playing, the scheduler's
    timer is disarmed, and nothing was asked of the audio graph.  A later
    [init()] returns [true] and changes nothing: the engine stays on the
    closed context. *)
Theorem X10_destroy_is_final
    (env : AudioEngine.Env) (st st1 : AudioEngine.Store) (b : bool) :
  AudioEngine.init env st = Done b st1 ->
  exists st2 c,
    AudioEngine.destroy st1 = Done tt st2 /\
    AudioEngine.context (AudioEngine.engine (AudioEngine.world st2)) = Some c /\
    WebAudio.state c = WebAudio.Closed /\
    AudioEngine.isPlaying (AudioEngine.engine (AudioEngine.world st2)) = false /\
    AudioEngine.host (AudioEngine.world st2) = AudioEngine.host (AudioEngine.world st1) /\
    (forall s2, AudioEngine.scheduler st2 = Some s2 ->
       Scheduler.isPlaying s2 = false /\ Scheduler.timerID s2 = None) /\
    (forall h, option_map Scheduler.timerID (AudioEngine.scheduler st1) = Some (Some h) ->
       armed h (AudioEngine.timers st2) = false) /\
    (forall env', AudioEngine.init env' st2 = Done true st2).
Proof.
  intros Hinit.
  destruct (init_done_facts _ _ Hinit) as ((c & Hctx & Hstate) & Hg & Hs).
  destruct (destroy_closes st1) as (st2 & Hrun & Hhost & Hgain & Hsched & Hplay & Hidle & Hclose & Htimer).
  exists st2, (WebAudio.set_state WebAudio.Closed c).
  split; [exact Hrun |]. split; [exact (Hclose c Hctx) |]. split; [reflexivity |].
  split.
  { rewrite Hplay. destruct (AudioEngine.scheduler st1); [reflexivity | congruence]. }
  split; [exact Hhost |]. split; [exact Hidle |]. split; [exact Htimer |].
  intros env'. apply init_again.
  - exists (WebAudio.set_state WebAudio.Closed c). split; [exact (Hclose c Hctx) | discriminate].
  - rewrite Hgain. exact Hg.
  - exact (Hsched Hs).
Qed.

Lemma X10_destroy_is_final_witness :
  exists st1 st2,
    AudioEngine.init
      {| AudioEngine.has_AudioContext := true;
         AudioEngine.initial_state := WebAudio.Running;
         AudioEngine.hardware_rate := 44100;
         AudioEngine.resume := AudioEngine.Fulfilled |}
      (AudioEngine.new_engine (WebAudio.new_host (fun _ => 0) true) no_timers)
      = Done true st1 /\
    AudioEngine.destroy st1 = Done tt st2 /\
    AudioEngine.init
      {| AudioEngine.has_AudioContext := true;
         AudioEngine.initial_state := WebAudio.Running;
         AudioEngine.hardware_rate := 44100;
         AudioEngine.resume := AudioEngine.Fulfilled |} st2
      = Done true st2.
Proof.
  destruct (@init_succeeds
              {| AudioEngine.has_AudioContext := true;
                 AudioEngine.initial_state := WebAudio.Running;
                 AudioEngine.hardware_rate := 44100;
                 AudioEngine.resume := AudioEngine.Fulfilled |}
              (AudioEngine.new_engine (WebAudio.new_host (fun _ => 0) true) no_timers)
              eq_refl eq_refl (fun _ => eq_refl) eq_refl)
    as (st1 & Hinit & _).
  destruct (@X10_destroy_is_final _ _ _ _ Hinit)
    as (st2 & c & Hrun & _ & _ & _ & _ & _ & _ & Hagain).
  exists st1, st2. split; [exact Hinit |]. split; [exact Hrun | apply Hagain].
Defined.

Section BarCounts.

Import WebAudio AudioEngine.

Lemma count_voice_app (v : Voice) (a b : list Trigger) :
  count_voice v (a ++ b) = (count_voice v a + count_voice v b)%nat.
Proof. unfold count_voice. rewrite filter_app, length_app. reflexivity. Qed.

Lemma count_voice_step (v : Voice) (p : Pattern) (g : option Node) (k : Z) (t : Q) :
  count_voice v (triggers_at p g k t)
  = (if active_at (track_of v p) k then 1 else 0)%nat.
Proof.
  rewrite triggers_at_unfold.
  destruct v; cbn [track_of];
    destruct (active_at (kick p) k), (active_at (snare p) k),
      (active_at (hihat p) k), (active_at (chord p) k); reflexivity.
Qed.

Lemma count_voice_steps (v : Voice) (p : Pattern) (g : option Node)
    (time_of : Z -> Q) (ks : list Z) :
  count_voice v (flat_map (fun k => triggers_at p g k (time_of k)) ks)
  = length (filter (fun k => active_at (track_of v p) k) ks).
Proof.
  induction ks as [| k ks IH]; [reflexivity |].
  cbn [flat_map filter]. rewrite count_voice_app, count_voice_step, IH.
  destruct (active_at (track_of v p) k); reflexivity.
Qed.

End BarCounts.

(** X11.  A bar triggers every voice once per active step.  On an engine with a
    pattern, a context and a master gain, [scheduleStepSounds] run over the
    sixteen steps returns normally, leaves the engine's fields as they are
    and triggers each voice as often as its track has active steps among
    0..15: at most sixteen times, never for a silent track, always into the
    master gain and at the time of an active step. *)
Theorem X11_bar_triggers_each_active_step
    (time_of : Z -> Q) (w : AudioEngine.World)
    (p : AudioEngine.Pattern) (ctx : WebAudio.AudioContext) (g : WebAudio.Node) :
  AudioEngine.pattern (AudioEngine.engine w) = Some p ->
  AudioEngine.context (AudioEngine.engine w) = Some ctx ->
  AudioEngine.masterGain (AudioEngine.engine w) = Some g ->
  exists w' sounded,
    AudioEngine.full_run time_of w = Done tt w' /\
    AudioEngine.engine w' = AudioEngine.engine w /\
    WebAudio.triggers (AudioEngine.host w')
      = WebAudio.triggers (AudioEngine.host w) ++ sounded /\
    (forall v,
       AudioEngine.count_voice v sounded
       = length (filter (fun k => AudioEngine.active_at (AudioEngine.track_of v p) k)
                        AudioEngine.sixteen_steps)) /\
    (forall v,
       (AudioEngine.count_voice v sounded <= 16)%nat /\
       (AudioEngine.count_voice v sounded = 0%nat <->
        forall k, (0 <= k < 16)%Z ->
          AudioEngine.active_at (AudioEngine.track_of v p) k = false)) /\
    (forall t, In t sounded ->
       WebAudio.into t = Some g /\
       exists k, (0 <= k < 16)%Z /\ WebAudio.at_time t = time_of k /\
                 AudioEngine.active_at (AudioEngine.track_of (WebAudio.voice t) p) k = true).
Proof.
  intros Hp Hc Hg.
  destruct (@run_steps_ready time_of AudioEngine.sixteen_steps w p ctx g Hp Hc Hg)
    as (w' & Hrun & He & Ht).
  exists w'. eexists. split; [exact Hrun |]. split; [exact He |]. split; [exact Ht |].
  assert (Hsteps : forall k, In k AudioEngine.sixteen_steps <-> (0 <= k < 16)%Z).
  { intros k. unfold AudioEngine.sixteen_steps. rewrite in_map_iff. split.
    - intros (n & <- & Hn). apply in_seq in Hn. lia.
    - intros Hk. exists (Z.to_nat k). split; [lia |]. apply in_seq. lia. }
  split; [intros v; apply count_voice_steps |].
  split.
  - intros v. rewrite count_voice_steps. split.
    + etransitivity; [apply filter_length_le |]. reflexivity.
    + split.
      * intros Hzero k Hk.
        destruct (AudioEngine.active_at (AudioEngine.track_of v p) k) eqn:Ha; [| reflexivity].
        exfalso.
        assert (Hin : In k (filter (fun k => AudioEngine.active_at (AudioEngine.track_of v p) k)
                              AudioEngine.sixteen_steps)).
        { apply filter_In. split; [apply Hsteps, Hk | exact Ha]. }
        destruct (filter _ AudioEngine.sixteen_steps); [exact Hin | discriminate].
      * intros Hnone.
        destruct (filter _ AudioEngine.sixteen_steps) as [| k l] eqn:E; [reflexivity |].
        exfalso.
        assert (Hin : In k (filter (fun k => AudioEngine.active_at (AudioEngine.track_of v p) k)
                              AudioEngine.sixteen_steps)) by (rewrite E; left; reflexivity).
        apply filter_In in Hin. destruct Hin as [Hin Ha].
        rewrite (Hnone k (proj1 (Hsteps k) Hin)) in Ha. discriminate.
  - intros t Hin. apply in_flat_map in Hin. destruct Hin as (k & Hk & Hin).
    unfold AudioEngine.triggers_at in Hin. apply in_map_iff in Hin.
    destruct Hin as (v & <- & Hv). cbn [WebAudio.into WebAudio.at_time WebAudio.voice].
    split; [reflexivity |].
    exists k. split; [apply Hsteps, Hk |]. split; [reflexivity |].
    unfold AudioEngine.voices_at in Hv. apply filter_In in Hv. exact (proj2 Hv).
Qed.

Lemma X11_bar_triggers_each_active_step_witness :
  exists w' sounded,
    AudioEngine.full_run inject_Z
      {| AudioEngine.engine :=
           {| AudioEngine.context :=
                Some {| WebAudio.state := WebAudio.Running; WebAudio.sampleRate := 44100 |};
              AudioEngine.masterGain := Some 1%positive;
              AudioEngine.compressor := Some 2%positive;
              AudioEngine.tempo := 85;
              AudioEngine.isPlaying := false;
              AudioEngine.currentStep := 0%Z;
              AudioEngine.pattern :=
                Some {| AudioEngine.kick := [1;0;0;0;1;0;0;0;1;0;0;0;1;0;0;0]%Z;
                        AudioEngine.snare := [0;0;0;0;1;0;0;0;0;0;0;0;1;0;0;0]%Z;
                        AudioEngine.hihat := [0;0;1;0;0;0;1;0;0;0;1;0;0;0;1;0]%Z;
                        AudioEngine.chord := [1;0;0;0;0;0;0;0;1;0;0;0;0;0;0;0]%Z |} |};
         AudioEngine.host := WebAudio.new_host (fun _ => 0) true |}
    = Done tt w' /\
    WebAudio.triggers (AudioEngine.host w') = sounded /\
    AudioEngine.count_voice WebAudio.Snare sounded = 2%nat /\
    AudioEngine.count_voice WebAudio.HiHat sounded = 4%nat.
Proof.
  destruct (@X11_bar_triggers_each_active_step inject_Z
    {| AudioEngine.engine :=
         {| AudioEngine.context :=
              Some {| WebAudio.state := WebAudio.Running; WebAudio.sampleRate := 44100 |};
            AudioEngine.masterGain := Some 1%positive;
            AudioEngine.compressor := Some 2%positive;
            AudioEngine.tempo := 85;
            AudioEngine.isPlaying := false;
            AudioEngine.currentStep := 0%Z;
            AudioEngine.pattern :=
              Some {| AudioEngine.kick := [1;0;0;0;1;0;0;0;1;0;0;0;1;0;0;0]%Z;
                      AudioEngine.snare := [0;0;0;0;1;0;0;0;0;0;0;0;1;0;0;0]%Z;
                      AudioEngine.hihat := [0;0;1;0;0;0;1;0;0;0;1;0;0;0;1;0]%Z;
                      AudioEngine.chord := [1;0;0;0;0;0;0;0;1;0;0;0;0;0;0;0]%Z |} |};
       AudioEngine.host := WebAudio.new_host (fun _ => 0) true |}
    _ _ _ eq_refl eq_refl eq_refl)
    as (w' & sounded & Hrun & _ & Ht & Hcount & _).
  exists w', sounded. split; [exact Hrun |]. split; [exact Ht |].
  split; [exact (Hcount WebAudio.Snare) | exact (Hcount WebAudio.HiHat)].
Defined.

(* ------------------------------------------------------------------------- *)
(** ** What the voices ask of the host, and the bitcrusher *)
(* ------------------------------------------------------------------------- *)

Ltac voice_steps :=
  cbv beta iota zeta delta
    [SoundGenerator.create SoundGenerator.createKick SoundGenerator.createSnare
     SoundGenerator.createHiHat SoundGenerator.createChord SoundGenerator.chordTone forEach
     SoundGenerator.createNoiseBuffer WebAudio.createOscillator WebAudio.createGain
     WebAudio.createBiquadFilter WebAudio.createBufferSource WebAudio.on_context
     WebAudio.fresh WebAudio.request WebAudio.draw WebAudio.record_trigger WebAudio.connect
     bind ret gets modify throw skip
     WebAudio.ops WebAudio.next_node WebAudio.random WebAudio.drawn
     WebAudio.strict_connect WebAudio.triggers].

(** X12.  Every voice is finite and cleans up after itself.  Given a context and a
    destination, each of the four voice functions returns normally; every
    node it creates is disconnected by an [onended] handler and no other
    node is; every source it starts has such a handler, is started at the
    given time and is stopped later, at most 0.6 s after. *)
Theorem X12_voices_stop_and_release_their_nodes
    (v : WebAudio.Voice) (ctx : WebAudio.AudioContext) (t : Q) (g : WebAudio.Node)
    (h : WebAudio.Host) :
  exists h' added,
    SoundGenerator.create v (Some ctx) t (Some g) h = Done tt h' /\
    WebAudio.ops h' = WebAudio.ops h ++ added /\
    (forall n, In n (RequestLog.created added) <-> In n (RequestLog.released added)) /\
    length (RequestLog.created added) = length (RequestLog.released added) /\
    map fst (RequestLog.started added) = RequestLog.watched added /\
    length (RequestLog.started added) = WebAudio.sources v /\
    Forall2 (fun s e => fst s = fst e /\ snd s = t /\ t < snd e /\ snd e <= t + 0.6)
            (RequestLog.started added) (RequestLog.stopped added).
Proof.
  destruct h as [o n r dr sc tr].
  destruct v; voice_steps; (eexists; eexists; split; [reflexivity |]);
    cbn [WebAudio.ops];
    (split; [rewrite <- !app_assoc; cbn [app]; reflexivity |]);
    cbn [RequestLog.created RequestLog.released RequestLog.started RequestLog.stopped
         RequestLog.watched app map fst length WebAudio.sources];
    (split; [intros x; cbn [In]; tauto |]);
    (split; [reflexivity |]); (split; [reflexivity |]); (split; [reflexivity |]);
    repeat (constructor; [cbn [fst snd]; split; [reflexivity |]; split; [reflexivity |]; lra |]);
    constructor.
Qed.

(** X13.  The chord is detuned within five cents.  [createChord] draws three random
    numbers, one per oscillator, and detunes the oscillator by
    [random * 10 - 5] cents: with [Math.random()] in [0, 1) every detune is
    in [-5, 5).  The chord is made of six nodes. *)
Theorem X13_chord_detune_within_five_cents
    (ctx : WebAudio.AudioContext) (t : Q) (g : WebAudio.Node) (h : WebAudio.Host) :
  (forall i, 0 <= WebAudio.random h i < 1) ->
  exists h' added,
    SoundGenerator.createChord (Some ctx) t (Some g) h = Done tt h' /\
    WebAudio.ops h' = WebAudio.ops h ++ added /\
    WebAudio.drawn h' = (WebAudio.drawn h + 3)%nat /\
    RequestLog.detunes added
      = map (fun i => WebAudio.random h (WebAudio.drawn h + i)%nat * 10 - 5) [0; 1; 2]%nat /\
    Forall (fun d => -5 <= d < 5) (RequestLog.detunes added) /\
    length (RequestLog.created added) = 6%nat.
Proof.
  intros Hrandom.
  destruct h as [o n r dr sc tr]. cbn [WebAudio.random WebAudio.drawn] in *.
  voice_steps. eexists. eexists. split; [reflexivity |].
  cbn [WebAudio.ops WebAudio.drawn].
  split; [rewrite <- !app_assoc; cbn [app]; reflexivity |].
  split; [lia |].
  cbn [RequestLog.detunes RequestLog.created app map length].
  replace (dr + 1 + 1)%nat with (dr + 2)%nat by lia.
  replace (dr + 0)%nat with dr by lia.
  split; [reflexivity |].
  split; [| reflexivity].
  repeat (constructor;
          [match goal with
           | |- context [r ?i] =>
               pose proof (Hrandom i) as [? ?]; set (x := r i) in *; split; lra
           end |]).
  constructor.
Qed.

Lemma X13_chord_detune_within_five_cents_witness :
  exists h' added,
    SoundGenerator.createChord
      (Some {| WebAudio.state := WebAudio.Running; WebAudio.sampleRate := 44100 |})
      0 (Some 1%positive) (WebAudio.new_host (fun _ => 0.25) true) = Done tt h' /\
    WebAudio.ops h' = added /\
    RequestLog.detunes added = [0.25 * 10 - 5; 0.25 * 10 - 5; 0.25 * 10 - 5].
Proof.
  destruct (@X13_chord_detune_within_five_cents
              {| WebAudio.state := WebAudio.Running; WebAudio.sampleRate := 44100 |}
              0 1%positive (WebAudio.new_host (fun _ => 0.25) true))
    as (h' & added & Hrun & Hops & _ & Hd & _).
  - intros i. split; [discriminate | reflexivity].
  - exists h', added. split; [exact Hrun |]. split; [exact Hops | exact Hd].
Defined.

Section Bitcrusher.

Import LoFiEffect.
Open Scope Q_scope.

Lemma rem_two_even (s : Z) : (Z.rem s 2 =? 0)%Z = Z.even s.
Proof.
  destruct (Z.even s) eqn:E.
  - apply Z.even_spec in E. destruct E as (k & ->).
    apply Z.eqb_eq. rewrite Z.mul_comm. apply Z.rem_mul. lia.
  - apply Z.eqb_neq. intros H.
    apply Z.rem_divide in H; [| lia]. destruct H as (k & ->).
    rewrite Z.even_mul in E. rewrite orb_comm in E. discriminate E.
Qed.

Lemma crush_step (x : Q) (c : Closure) :
  crush x c =
  let y := if Z.even (step c + 1) then quantize x else lastSample c in
  Done y {| lastSample := y; step := (step c + 1)%Z |}.
Proof.
  unfold crush. cbv beta iota delta [bind modify gets skip ret set_step set_lastSample].
  cbn [step lastSample].
  change (Z.max 1 (Qfloor (1 / normFreq))) with 2%Z.
  rewrite rem_two_even.
  destruct (Z.even (step c + 1)); reflexivity.
Qed.

Lemma last_cons (A : Type) (l : list A) (y d : A) : last (y :: l) d = last l y.
Proof.
  revert y d. induction l as [| z l IH]; intros y d; [reflexivity |].
  change (last (y :: z :: l) d) with (last (z :: l) d).
  rewrite (IH z d), (IH z y). reflexivity.
Qed.

Lemma last_app_from (A : Type) (a b : list A) (d : A) :
  last (a ++ b) d = last b (last a d).
Proof.
  revert d. induction a as [| x a IH]; intros d; [reflexivity |].
  cbn [app]. rewrite !last_cons. apply IH.
Qed.

Lemma onaudioprocess_held (input : list Q) (c : Closure) :
  onaudioprocess input c =
  Done (held (lastSample c) (step c) input)
       {| lastSample := last (held (lastSample c) (step c) input) (lastSample c);
          step := (step c + Z.of_nat (length input))%Z |}.
Proof.
  revert c. induction input as [| x rest IH]; intros c.
  - cbn [onaudioprocess held length last]. unfold ret. destruct c as [l s]. cbn.
    rewrite Z.add_0_r. reflexivity.
  - cbn [onaudioprocess]. unfold bind at 1. rewrite crush_step. cbv zeta.
    unfold bind at 1. rewrite IH. unfold ret.
    cbn [held lastSample step length]. f_equal. f_equal.
    + rewrite last_cons. reflexivity.
    + lia.
Qed.

Lemma quantize_bounds (x : Q) :
  quantize x <= x /\ x < quantize x + 1 / 256.
Proof.
  unfold quantize.
  pose proof (Qfloor_le (x * 256)) as Hlo.
  pose proof (Qlt_floor (x * 256)) as Hhi.
  rewrite inject_Z_plus in Hhi. change (inject_Z 1) with 1 in Hhi.
  set (k := inject_Z (Qfloor (x * 256))) in *.
  assert (E : k / 256 == k * (1 # 256)) by (unfold Qdiv; reflexivity).
  rewrite E. change (1 / 256) with (1 # 256).
  split; lra.
Qed.

Lemma quantize_idempotent (x : Q) : quantize (quantize x) == quantize x.
Proof.
  unfold quantize at 1 3.
  assert (E : quantize x * 256 == inject_Z (Qfloor (x * 256))).
  { unfold quantize. field. }
  rewrite E, Qfloor_Z. reflexivity.
Qed.

Lemma held_length (last : Q) (n : Z) (input : list Q) :
  length (held last n input) = length input.
Proof.
  revert last n. induction input as [| x rest IH]; intros last n; [reflexivity |].
  cbn [held length]. rewrite IH. reflexivity.
Qed.

Lemma held_app (last : Q) (n : Z) (a b : list Q) :
  held last n (a ++ b)
  = held last n a
    ++ held (List.last (held last n a) last) (n + Z.of_nat (length a)) b.
Proof.
  revert last n. induction a as [| x a IH]; intros last n.
  - cbn [app held length List.last]. rewrite Z.add_0_r. reflexivity.
  - cbn [app held length]. f_equal. rewrite IH. f_equal.
    set (y := if Z.even (n + 1) then quantize x else last).
    f_equal.
    + rewrite last_cons. reflexivity.
    + lia.
Qed.

Lemma held_again (last last' : Q) (n : Z) (input : list Q) :
  last' == last ->
  Forall2 Qeq (held last' n (held last n input)) (held last n input).
Proof.
  revert last last' n. induction input as [| x rest IH]; intros last last' n E.
  - constructor.
  - cbn [held].
    assert (Ey : (if Z.even (n + 1)
                  then quantize (if Z.even (n + 1) then quantize x else last)
                  else last')
                 == (if Z.even (n + 1) then quantize x else last)).
    { destruct (Z.even (n + 1)); [apply quantize_idempotent | exact E]. }
    constructor; [exact Ey |]. apply IH. exact Ey.
Qed.

End Bitcrusher.

(** X14.  The bitcrusher takes every second sample, quantized to 8 bits.  The
    [onaudioprocess] handler writes as many samples as it reads.  Counting
    samples from the creation of the effect, an even-numbered sample is
    rounded down to a multiple of 1/256 (less than 1/256 below the input),
    and an odd-numbered one repeats the output before it (the value held
    from the previous buffer, at the start of a buffer). *)
Theorem X14_bitcrusher_quantizes_and_holds (input : list Q) (c : LoFiEffect.Closure) :
  exists output c',
    LoFiEffect.onaudioprocess input c = Done output c' /\
    output = LoFiEffect.held (LoFiEffect.lastSample c) (LoFiEffect.step c) input /\
    length output = length input /\
    LoFiEffect.step c' = (LoFiEffect.step c + Z.of_nat (length input))%Z /\
    LoFiEffect.lastSample c' = last output (LoFiEffect.lastSample c) /\
    (forall i x, nth_error input i = Some x ->
       exists y, nth_error output i = Some y /\
         if Z.even (LoFiEffect.step c + Z.of_nat i + 1)
         then y = LoFiEffect.quantize x /\ y <= x /\ x < y + 1 / 256 /\
              y * 256 == inject_Z (Qfloor (x * 256))
         else y = match i with
                  | O => LoFiEffect.lastSample c
                  | S j => nth j output 0
                  end).
Proof.
  exists (LoFiEffect.held (LoFiEffect.lastSample c) (LoFiEffect.step c) input). eexists.
  split; [apply onaudioprocess_held |]. split; [reflexivity |].
  split; [apply held_length |]. split; [reflexivity |]. split; [reflexivity |].
  destruct c as [l s]. cbn [LoFiEffect.lastSample LoFiEffect.step].
  revert l s. induction input as [| x0 rest IH]; intros l s i x Hx.
  - destruct i; discriminate Hx.
  - destruct i as [| i].
    + injection Hx as ->. cbn [LoFiEffect.held nth_error]. eexists. split; [reflexivity |].
      rewrite Z.add_0_r. destruct (Z.even (s + 1)); [| reflexivity].
      destruct (quantize_bounds x) as [Hlo Hhi].
      split; [reflexivity |]. split; [exact Hlo |]. split; [exact Hhi |].
      unfold LoFiEffect.quantize. field.
    + cbn [nth_error] in Hx. cbn [LoFiEffect.held nth_error].
      destruct (IH (if Z.even (s + 1) then LoFiEffect.quantize x0 else l) (s + 1)%Z i x Hx)
        as (y & Hy & Hcase).
      exists y. split; [exact Hy |].
      replace (s + Z.of_nat (S i) + 1)%Z with (s + 1 + Z.of_nat i + 1)%Z by lia.
      destruct (Z.even (s + 1 + Z.of_nat i + 1)); [exact Hcase |].
      destruct i as [| j]; rewrite Hcase; reflexivity.
Qed.

(** X15.  Buffer boundaries are not heard.  Handling a buffer [a] and then a buffer
    [b] writes the same samples, and leaves the same closure, as handling
    [a] followed by [b] in one buffer. *)
Theorem X15_bitcrusher_buffers_compose (a b : list Q) (c : LoFiEffect.Closure) :
  exists ya yb c1 c2,
    LoFiEffect.onaudioprocess a c = Done ya c1 /\
    LoFiEffect.onaudioprocess b c1 = Done yb c2 /\
    LoFiEffect.onaudioprocess (a ++ b) c = Done (ya ++ yb) c2.
Proof.
  do 4 eexists.
  split; [apply onaudioprocess_held |].
  split; [apply onaudioprocess_held |].
  rewrite onaudioprocess_held. cbn [LoFiEffect.lastSample LoFiEffect.step].
  rewrite held_app. f_equal. f_equal.
  - rewrite last_app_from. reflexivity.
  - rewrite length_app, Nat2Z.inj_add. lia.
Qed.

(** X16.  Crushing twice is crushing once.  The output of a fresh effect, fed to a
    second fresh effect, comes out as it went in. *)
Theorem X16_bitcrusher_is_idempotent (input : list Q) :
  exists once twice c1 c2,
    LoFiEffect.onaudioprocess input LoFiEffect.fresh_closure = Done once c1 /\
    LoFiEffect.onaudioprocess once LoFiEffect.fresh_closure = Done twice c2 /\
    Forall2 Qeq twice once /\
    LoFiEffect.step c2 = LoFiEffect.step c1.
Proof.
  do 4 eexists.
  split; [apply onaudioprocess_held |].
  split; [apply onaudioprocess_held |].
  split.
  - apply held_again. reflexivity.
  - cbn [LoFiEffect.step LoFiEffect.fresh_closure]. rewrite held_length. reflexivity.
Qed.

(* ------------------------------------------------------------------------- *)
(** ** Patterns: toggling, clearing, and what the engine plays *)
(* ------------------------------------------------------------------------- *)

Section Tracks.

Import Constants.

Lemma length_write (a : Track) (i : nat) (v : Z) :
  length (write a i v) = Nat.max (length a) (S i).
Proof.
  unfold write. destruct (i <? length a)%nat eqn:E.
  - apply Nat.ltb_lt in E.
    rewrite length_app, length_firstn. cbn [length]. rewrite length_skipn. lia.
  - apply Nat.ltb_ge in E.
    rewrite !length_app, repeat_length. cbn [length]. lia.
Qed.

Lemma read_write_same (a : Track) (i : nat) (v : Z) :
  read (write a i v) i = Some v.
Proof.
  unfold read, write. destruct (i <? length a)%nat eqn:E.
  - apply Nat.ltb_lt in E.
    rewrite app_nth2; rewrite length_firstn; [| lia].
    replace (i - Nat.min i (length a))%nat with 0%nat by lia. reflexivity.
  - apply Nat.ltb_ge in E.
    rewrite app_nth2 by lia.
    rewrite app_nth2; rewrite repeat_length; [| lia].
    replace (i - length a - (i - length a))%nat with 0%nat by lia. reflexivity.
Qed.

Lemma read_write_other (a : Track) (i j : nat) (v : Z) :
  j <> i -> read (write a i v) j = read a j.
Proof.
  intros Hne. unfold read, write. destruct (i <? length a)%nat eqn:E.
  - apply Nat.ltb_lt in E.
    destruct (Nat.lt_ge_cases j i) as [Hlt | Hge].
    + rewrite app_nth1 by (rewrite length_firstn; lia).
      rewrite nth_firstn.
      replace (j <? i)%nat with true by (symmetry; apply Nat.ltb_lt; exact Hlt).
      reflexivity.
    + rewrite app_nth2; rewrite length_firstn; [| lia].
      replace (Nat.min i (length a)) with i by lia.
      destruct (j - i)%nat as [| d] eqn:Ed; [lia |].
      cbn [nth]. rewrite nth_skipn. f_equal. lia.
  - apply Nat.ltb_ge in E.
    destruct (Nat.lt_ge_cases j (length a)) as [Hlt | Hge].
    + rewrite app_nth1 by exact Hlt. reflexivity.
    + rewrite app_nth2 by exact Hge.
      rewrite (nth_overflow a None Hge).
      destruct (Nat.lt_ge_cases j i) as [Hji | Hij].
      * rewrite app_nth1 by (rewrite repeat_length; lia).
        apply nth_repeat.
      * rewrite app_nth2; rewrite repeat_length; [| lia].
        destruct (j - length a - (i - length a))%nat as [| d] eqn:Ed; [lia |].
        cbn [nth]. destruct d; reflexivity.
Qed.

Lemma track_ext (a b : Track) :
  length a = length b -> (forall i, read a i = read b i) -> a = b.
Proof.
  intros Hlen Hread. apply (nth_ext a b None None Hlen). intros i _. apply Hread.
Qed.

Lemma get_put_same (p : Pattern) (track : TrackId) (t : Track) :
  get (put p track t) track = t.
Proof. destruct track; reflexivity. Qed.

Lemma get_put_other (p : Pattern) (track track' : TrackId) (t : Track) :
  track' <> track -> get (put p track t) track' = get p track'.
Proof. destruct track, track'; intros H; try reflexivity; exfalso; apply H; reflexivity. Qed.

Lemma pattern_ext (p q : Pattern) :
  (forall track, get p track = get q track) -> p = q.
Proof.
  intros H. destruct p as [k s h c], q as [k' s' h' c'].
  pose proof (H KickId) as H1. pose proof (H SnareId) as H2.
  pose proof (H HihatId) as H3. pose proof (H ChordId) as H4.
  cbn in H1, H2, H3, H4. subst. reflexivity.
Qed.

Lemma track_eq_dec (a b : TrackId) : {a = b} + {a <> b}.
Proof. decide equality. Qed.

Lemma toggleStep_get (p : Pattern) (track : TrackId) (step : nat) :
  get (toggleStep p track step) track
  = write (get p track) step (if truthy (read (get p track) step) then 0 else 1)%Z.
Proof.
  unfold toggleStep. rewrite get_put_same.
  destruct p, track; reflexivity.
Qed.

Lemma toggleStep_get_other (p : Pattern) (track track' : TrackId) (step : nat) :
  track' <> track -> get (toggleStep p track step) track' = get p track'.
Proof.
  intros H. unfold toggleStep. rewrite get_put_other by exact H.
  destruct p, track'; reflexivity.
Qed.

Lemma toggleStep_changes_one_cell_aux (p : Pattern) (track : TrackId) (step : nat) :
  read (get (toggleStep p track step) track) step
    = Some (if truthy (read (get p track) step) then 0 else 1)%Z /\
  (forall step', step' <> step ->
     read (get (toggleStep p track step) track) step' = read (get p track) step') /\
  length (get (toggleStep p track step) track) = Nat.max (length (get p track)) (S step).
Proof.
  rewrite toggleStep_get.
  split; [apply read_write_same |].
  split; [intros step' Hne; apply read_write_other; exact Hne | apply length_write].
Qed.

End Tracks.

(** X17.  [toggleStep] changes one cell.  In the pattern it returns, the cell
    [step] of [track] holds 0 if it was truthy and 1 otherwise; every other
    cell of the track and every other track is as before.  A step past the
    end of the track makes the array grow to [step + 1] cells, with holes in
    between. *)
Theorem X17_toggleStep_changes_one_cell
    (p : Constants.Pattern) (track : Constants.TrackId) (step : nat) :
  Constants.read (Constants.get (Constants.toggleStep p track step) track) step
    = Some (if Constants.truthy (Constants.read (Constants.get p track) step)
            then 0 else 1)%Z /\
  (forall step', step' <> step ->
     Constants.read (Constants.get (Constants.toggleStep p track step) track) step'
     = Constants.read (Constants.get p track) step') /\
  (forall track', track' <> track ->
     Constants.get (Constants.toggleStep p track step) track' = Constants.get p track') /\
  length (Constants.get (Constants.toggleStep p track step) track)
    = Nat.max (length (Constants.get p track)) (S step) /\
  ((length (Constants.get p track) <= step)%nat ->
   forall i, (length (Constants.get p track) <= i < step)%nat ->
     nth_error (Constants.get (Constants.toggleStep p track step) track) i = Some None).
Proof.
  rewrite toggleStep_get.
  split; [apply read_write_same |].
  split; [intros step' Hne; apply read_write_other; exact Hne |].
  split; [intros track' Hne; apply toggleStep_get_other; exact Hne |].
  split; [apply length_write |].
  intros Hout i Hi.
  assert (Hlen : (i < length (Constants.write (Constants.get p track) step
                               (if Constants.truthy (Constants.read (Constants.get p track) step)
                                then 0 else 1)%Z))%nat)
    by (rewrite length_write; lia).
  rewrite (nth_error_nth' _ None Hlen). f_equal.
  change (nth i ?a None) with (Constants.read a i).
  rewrite read_write_other by lia.
  apply nth_overflow. lia.
Qed.

(** X18.  Toggling a step twice restores the pattern, for a cell that holds 0 or 1. *)
Theorem X18_toggleStep_twice
    (p : Constants.Pattern) (track : Constants.TrackId) (step : nat) (v : Z) :
  nth_error (Constants.get p track) step = Some (Some v) ->
  v = 0%Z \/ v = 1%Z ->
  Constants.toggleStep (Constants.toggleStep p track step) track step = p.
Proof.
  intros Hcell Hv.
  assert (Hlt : (step < length (Constants.get p track))%nat)
    by (apply nth_error_Some; rewrite Hcell; discriminate).
  assert (Hread : Constants.read (Constants.get p track) step = Some v).
  { unfold Constants.read. apply nth_error_nth. exact Hcell. }
  apply pattern_ext. intros track'.
  destruct (track_eq_dec track' track) as [-> | Hne].
  2: { rewrite !toggleStep_get_other by exact Hne. reflexivity. }
  rewrite toggleStep_get. rewrite !toggleStep_get.
  rewrite read_write_same, Hread.
  apply track_ext.
  - rewrite !length_write. lia.
  - intros i. destruct (Nat.eq_dec i step) as [-> | Hi].
    + rewrite read_write_same, Hread. destruct Hv as [-> | ->]; reflexivity.
    + rewrite !read_write_other by exact Hi. reflexivity.
Qed.

Lemma X18_toggleStep_twice_witness :
  Constants.toggleStep (Constants.toggleStep Constants.loFiPreset Constants.SnareId 4)
    Constants.SnareId 4
  = Constants.loFiPreset.
Proof.
  apply (@X18_toggleStep_twice Constants.loFiPreset Constants.SnareId 4 1).
  - reflexivity.
  - right. reflexivity.
Defined.

(** X19.  Toggles of different cells commute, for cells that lie within their
    tracks: the pattern does not depend on the order in which the two were
    toggled.  (A toggle past the end of a track leaves holes, which the next
    copy turns into cells that hold [undefined]; the two orders then differ
    in that, which a pattern here does not record.) *)
Theorem X19_toggleStep_commutes
    (p : Constants.Pattern) (t1 t2 : Constants.TrackId) (s1 s2 : nat) :
  t1 <> t2 \/ s1 <> s2 ->
  (s1 < length (Constants.get p t1))%nat ->
  (s2 < length (Constants.get p t2))%nat ->
  Constants.toggleStep (Constants.toggleStep p t1 s1) t2 s2
  = Constants.toggleStep (Constants.toggleStep p t2 s2) t1 s1.
Proof.
  intros Hdiff _ _. apply pattern_ext. intros track.
  destruct (track_eq_dec t1 t2) as [<- | Ht].
  - assert (Hs : s1 <> s2) by (destruct Hdiff as [H | H]; [congruence | exact H]).
    destruct (track_eq_dec track t1) as [-> | Hne].
    2: { rewrite !toggleStep_get_other by exact Hne. reflexivity. }
    rewrite !toggleStep_get.
    rewrite (@read_write_other _ s1 s2) by congruence.
    rewrite (@read_write_other _ s2 s1) by congruence.
    apply track_ext.
    + rewrite !length_write. lia.
    + intros i.
      destruct (Nat.eq_dec i s1) as [E1 | H1]; destruct (Nat.eq_dec i s2) as [E2 | H2].
      * congruence.
      * subst i. rewrite (@read_write_other _ s2 s1) by exact H2.
        rewrite !read_write_same. reflexivity.
      * subst i. rewrite (@read_write_other _ s1 s2) by exact H1.
        rewrite !read_write_same. reflexivity.
      * rewrite !read_write_other by assumption. reflexivity.
  - destruct (track_eq_dec track t1) as [-> | H1].
    + rewrite (@toggleStep_get_other _ t2 t1) by exact Ht.
      rewrite !toggleStep_get.
      rewrite (@toggleStep_get_other _ t2 t1) by exact Ht. reflexivity.
    + destruct (track_eq_dec track t2) as [-> | H2].
      * rewrite (@toggleStep_get_other _ t1 t2) by congruence.
        rewrite !toggleStep_get.
        rewrite (@toggleStep_get_other _ t1 t2) by congruence. reflexivity.
      * rewrite !toggleStep_get_other by assumption. reflexivity.
Qed.

Lemma X19_toggleStep_commutes_witness :
  Constants.toggleStep (Constants.toggleStep Constants.loFiPreset Constants.KickId 0)
    Constants.KickId 5
  = Constants.toggleStep (Constants.toggleStep Constants.loFiPreset Constants.KickId 5)
      Constants.KickId 0.
Proof.
  apply (@X19_toggleStep_commutes Constants.loFiPreset Constants.KickId Constants.KickId 0 5).
  - right. discriminate.
  - cbn. lia.
  - cbn. lia.
Defined.

Section Grid.

Import Constants.

Lemma write_binary (a : Track) (i : nat) (v : Z) :
  (i < length a)%nat -> Forall binary a -> binary (Some v) -> Forall binary (write a i v).
Proof.
  intros Hlt Ha Hv. apply Forall_nth. intros j d Hj.
  rewrite length_write in Hj.
  rewrite (nth_indep _ d None) by (rewrite length_write; exact Hj).
  change (nth j (write a i v) None) with (read (write a i v) j).
  destruct (Nat.eq_dec j i) as [-> | Hne].
  - rewrite read_write_same. exact Hv.
  - rewrite read_write_other by exact Hne.
    rewrite Forall_nth in Ha. apply Ha. lia.
Qed.

Lemma preset_grid (key : String.string) (p : Pattern) : presets key = Own p -> grid p.
Proof.
  unfold presets.
  repeat match goal with
         | |- context [String.eqb key ?k] => destruct (String.eqb key k)
         end;
    try destruct (existsb _ _); intros H; try discriminate H; injection H as <-;
    intros track; destruct track; (split; [reflexivity |]);
    repeat (constructor; [first [left; reflexivity | right; reflexivity] |]); constructor.
Qed.

Lemma get_clone (p : Pattern) (track : TrackId) : get (clonePattern p) track = get p track.
Proof. destruct p, track; reflexivity. Qed.

Lemma clear_grid : grid clearPattern.
Proof.
  intros track; destruct track; (split; [reflexivity |]);
    repeat (constructor; [left; reflexivity |]); constructor.
Qed.

Lemma clone_grid (p : Pattern) : grid p -> grid (clonePattern p).
Proof. intros H track. rewrite get_clone. apply H. Qed.

Lemma toggleStep_grid (p : Pattern) (track : TrackId) (step : nat) :
  grid p -> (step < 16)%nat -> grid (toggleStep p track step).
Proof.
  intros Hg Hstep track'. destruct (track_eq_dec track' track) as [-> | Hne].
  - rewrite toggleStep_get. destruct (Hg track) as [Hlen Hcells]. split.
    + rewrite length_write, Hlen. lia.
    + apply write_binary; [lia | exact Hcells |].
      destruct (truthy _); [left | right]; reflexivity.
  - rewrite toggleStep_get_other by exact Hne. apply Hg.
Qed.

Lemma made_grid (p : Pattern) : made p -> grid p.
Proof.
  induction 1 as [key p Hkey | p _ IH | | p track step _ IH Hstep].
  - apply (preset_grid _ Hkey).
  - apply clone_grid, IH.
  - apply clear_grid.
  - apply toggleStep_grid; assumption.
Qed.

Lemma active_flags (a : Track) (i : nat) :
  AudioEngine.active_at (flags a) (Z.of_nat i) = truthy (read a i).
Proof.
  unfold AudioEngine.active_at, flags, read.
  replace (Z.of_nat i <? 0)%Z with false by (symmetry; apply Z.ltb_ge; lia).
  rewrite Nat2Z.id, nth_error_map.
  destruct (nth_error a i) as [c |] eqn:E.
  - rewrite (nth_error_nth _ _ None E). destruct c as [v |]; reflexivity.
  - apply nth_error_None in E. rewrite (nth_overflow a None E). reflexivity.
Qed.

Lemma active_to_engine (p : Pattern) (track : TrackId) (i : nat) :
  AudioEngine.active_at (AudioEngine.track_of (voice_of track) (to_engine p)) (Z.of_nat i)
  = truthy (read (get p track) i).
Proof. destruct track; cbn [voice_of AudioEngine.track_of to_engine]; apply active_flags. Qed.

Lemma in_voices_at (p : AudioEngine.Pattern) (v : WebAudio.Voice) (k : Z) :
  In v (AudioEngine.voices_at p k)
  <-> AudioEngine.active_at (AudioEngine.track_of v p) k = true.
Proof.
  unfold AudioEngine.voices_at. rewrite filter_In.
  split; [intros [_ H]; exact H | intros H; split; [| exact H]].
  destruct v; cbn; tauto.
Qed.

End Grid.

(** X20.  The patterns the sequencer makes are grids.  Every pattern made from the
    presets by [clonePattern], [clearPattern] and [toggleStep] with a step
    below 16 has, in each of its four tracks, sixteen cells that hold 0 or 1
    and nothing beyond them. *)
Theorem X20_made_patterns_are_grids (p : Constants.Pattern) :
  Constants.made p ->
  forall track,
    length (Constants.get p track) = 16%nat /\
    (forall step, (step < 16)%nat ->
       Constants.read (Constants.get p track) step = Some 0%Z \/
       Constants.read (Constants.get p track) step = Some 1%Z) /\
    (forall step, (16 <= step)%nat -> Constants.read (Constants.get p track) step = None).
Proof.
  intros Hmade track. destruct (made_grid Hmade track) as [Hlen Hcells].
  split; [exact Hlen |]. split.
  - intros step Hstep. rewrite Forall_forall in Hcells. apply Hcells.
    unfold Constants.read. apply nth_In. lia.
  - intros step Hstep. unfold Constants.read. apply nth_overflow. lia.
Qed.

Lemma X20_made_patterns_are_grids_witness :
  length (Constants.get
            (Constants.toggleStep (Constants.toggleStep Constants.clearPattern
                                     Constants.HihatId 15) Constants.KickId 0)
            Constants.HihatId) = 16%nat.
Proof.
  refine (proj1 (@X20_made_patterns_are_grids _
    (Constants.made_toggle Constants.KickId
       (Constants.made_toggle Constants.HihatId Constants.made_clear _) _)
    Constants.HihatId)); lia.
Defined.

(** X21.  A toggled step sounds, or is silenced, and nothing else changes.  With the
    pattern [toggleStep] returns, the engine triggers the voice of the
    toggled track at that step iff it did not before, and at any other track
    or step it triggers what it did before.  The cleared pattern triggers
    nothing. *)
Theorem X21_toggleStep_toggles_the_voice
    (p : Constants.Pattern) (track : Constants.TrackId) (step : nat) :
  (In (Constants.voice_of track)
      (AudioEngine.voices_at (Constants.to_engine (Constants.toggleStep p track step))
         (Z.of_nat step))
   <-> ~ In (Constants.voice_of track)
           (AudioEngine.voices_at (Constants.to_engine p) (Z.of_nat step))) /\
  (forall track' step', track' <> track \/ step' <> step ->
     (In (Constants.voice_of track')
         (AudioEngine.voices_at (Constants.to_engine (Constants.toggleStep p track step))
            (Z.of_nat step'))
      <-> In (Constants.voice_of track')
            (AudioEngine.voices_at (Constants.to_engine p) (Z.of_nat step')))) /\
  (forall k, AudioEngine.voices_at (Constants.to_engine Constants.clearPattern) k = []).
Proof.
  split; [| split].
  - rewrite !in_voices_at, !active_to_engine.
    destruct (toggleStep_changes_one_cell_aux p track step) as [Hsame _].
    rewrite Hsame.
    destruct (Constants.truthy (Constants.read (Constants.get p track) step));
      cbn [Constants.truthy Z.eqb negb]; split; intros H; try discriminate H; congruence.
  - intros track' step' Hdiff. rewrite !in_voices_at, !active_to_engine.
    destruct (track_eq_dec track' track) as [-> | Hne].
    + destruct (toggleStep_changes_one_cell_aux p track step) as (_ & Hother & _).
      rewrite Hother; [reflexivity |].
      destruct Hdiff as [H | H]; [congruence | exact H].
    + rewrite toggleStep_get_other by exact Hne. reflexivity.
  - intros k. unfold AudioEngine.voices_at. cbn [filter AudioEngine.track_of].
    assert (Hsilent : forall k, AudioEngine.active_at (repeat 0%Z 16) k = false).
    { intros j. unfold AudioEngine.active_at. destruct (j <? 0)%Z; [reflexivity |].
      destruct (nth_error (repeat 0%Z 16) (Z.to_nat j)) as [v |] eqn:E; [| reflexivity].
      apply nth_error_In, repeat_spec in E. subst v. reflexivity. }
    change (AudioEngine.kick (Constants.to_engine Constants.clearPattern)) with (repeat 0%Z 16).
    change (AudioEngine.snare (Constants.to_engine Constants.clearPattern)) with (repeat 0%Z 16).
    change (AudioEngine.hihat (Constants.to_engine Constants.clearPattern)) with (repeat 0%Z 16).
    change (AudioEngine.chord (Constants.to_engine Constants.clearPattern)) with (repeat 0%Z 16).
    rewrite !Hsilent. reflexivity.
Qed.

(* ------------------------------------------------------------------------- *)
(** ** The component: what its handlers keep *)
(* ------------------------------------------------------------------------- *)

Section AppHandlers.

Import App.
Open Scope Q_scope.

(** The store after the state and the engine were given the pattern [p]. *)
Lemma coherent_settings (e e' : AudioEngine.Fields) (h h' : WebAudio.Host)
    (s : option Scheduler.Fields) (tm tm' : Timers) :
  AudioEngine.context e' = AudioEngine.context e ->
  AudioEngine.masterGain e' = AudioEngine.masterGain e ->
  AudioEngine.tempo e' = AudioEngine.tempo e ->
  AudioEngine.isPlaying e' = AudioEngine.isPlaying e ->
  AudioEngine.currentStep e' = AudioEngine.currentStep e ->
  EngineCalls.coherent
    {| AudioEngine.world := {| AudioEngine.engine := e; AudioEngine.host := h |};
       AudioEngine.scheduler := s; AudioEngine.timers := tm |} ->
  EngineCalls.coherent
    {| AudioEngine.world := {| AudioEngine.engine := e'; AudioEngine.host := h' |};
       AudioEngine.scheduler := s; AudioEngine.timers := tm' |}.
Proof.
  unfold EngineCalls.coherent, AudioEngine.ready.
  cbn [AudioEngine.world AudioEngine.engine AudioEngine.scheduler].
  intros -> -> -> -> ->. tauto.
Qed.

Lemma update_pattern (p : Constants.Pattern) (st : Store) :
  bind (on_state (setPattern p))
       (fun _ => if_current (AudioEngine.setPattern (Some (Constants.to_engine p)))) st
  = Done tt (with_pattern p st).
Proof. destruct st as [s [[f so] |] h tm wt]; reflexivity. Qed.

Lemma toggle_pattern (p : Constants.Pattern) (st : Store) :
  bind (if_current (AudioEngine.setPattern (Some (Constants.to_engine p))))
       (fun _ => on_state (setPattern p)) st
  = Done tt (with_pattern p st).
Proof. destruct st as [s [[f so] |] h tm wt]; reflexivity. Qed.

Lemma mirrored_with_pattern (p : Constants.Pattern) (st : Store) :
  mirrored st -> Constants.grid p -> mirrored (with_pattern p st).
Proof.
  destruct st as [[pat pl tp cs ai sel] [[f so] |] h tm wt]; unfold mirrored, with_pattern;
    cbn [state audioEngineRef host timers option_map setPattern pattern isPlaying tempo
         currentStep audioInitialized selectedStep fields scheduler engine_store].
  - intros (Hs & _ & Ht & Hk & Hc & Htempo & Hplay & Hsched & Hctx) Hg.
    split; [exact Hs |]. split; [exact Hg |]. split; [exact Ht |]. split; [exact Hk |].
    split; [revert Hc; apply coherent_settings; reflexivity |].
    split; [exact Htempo |]. split; [exact Hplay |]. split; [exact Hsched | exact Hctx].
  - intros (Hs & _ & Ht & Hk & Hnone) Hg.
    split; [exact Hs |]. split; [exact Hg |]. split; [exact Ht |]. split; [exact Hk | exact Hnone].
Qed.

Lemma with_pattern_in_sync (p : Constants.Pattern) (st : Store) :
  audioEngineRef st <> None -> in_sync (with_pattern p st).
Proof.
  destruct st as [s [[f so] |] h tm wt]; intros H; [| exfalso; apply H; reflexivity].
  unfold in_sync, engine_pattern, with_pattern.
  cbn [audioEngineRef option_map fields state setPattern pattern].
  destruct f, s. reflexivity.
Qed.

Lemma in_sync_engine (st : Store) : in_sync st -> audioEngineRef st <> None.
Proof.
  unfold in_sync, engine_pattern. destruct (audioEngineRef st); intros H; [| discriminate H].
  discriminate.
Qed.

Lemma in_sync_same (st st' : Store) :
  engine_pattern st' = engine_pattern st ->
  pattern (state st') = pattern (state st) ->
  in_sync st -> in_sync st'.
Proof. unfold in_sync. intros -> ->. exact (fun H => H). Qed.

End AppHandlers.

Section AppOutcomes.

Import App.
Open Scope Q_scope.

Lemma current_some {A} (m : M AudioEngine.Store A) (st : Store) (e : EngineObject) :
  audioEngineRef st = Some e ->
  current m st =
  match m (engine_store e st) with
  | Done a r => Done a (app_store r st)
  | Raise x r => Raise x (app_store r st)
  | Spin => Spin
  end.
Proof. intros H. unfold current. rewrite H. reflexivity. Qed.

(** The engine part of [mirrored], for the store [r] the engine was left in. *)
Lemma mirrored_engine (s : State) (r : AudioEngine.Store) (wt : list Constants.Pattern) :
  in_grid (selectedStep s) ->
  Constants.grid (pattern s) ->
  60 <= tempo s <= 180 ->
  (0 <= currentStep s < 16)%Z ->
  EngineCalls.coherent r ->
  AudioEngine.tempo (AudioEngine.engine (AudioEngine.world r)) = tempo s ->
  AudioEngine.isPlaying (AudioEngine.engine (AudioEngine.world r)) = isPlaying s ->
  (if audioInitialized s then AudioEngine.scheduler r <> None
   else AudioEngine.scheduler r = None) ->
  (wt = [] \/ AudioEngine.context (AudioEngine.engine (AudioEngine.world r)) <> None) ->
  mirrored {| state := s;
              audioEngineRef :=
                Some {| fields := AudioEngine.engine (AudioEngine.world r);
                        scheduler := AudioEngine.scheduler r |};
              host := AudioEngine.host (AudioEngine.world r);
              timers := AudioEngine.timers r;
              waiting := wt |}.
Proof.
  intros Hs Hg Ht Hk Hc Htempo Hplay Hsched Hctx. unfold mirrored.
  cbn [state audioEngineRef host timers fields scheduler engine_store].
  split; [exact Hs |]. split; [exact Hg |]. split; [exact Ht |]. split; [exact Hk |].
  split.
  { destruct r as [[e h] so tm]. exact Hc. }
  split; [exact Htempo |]. split; [exact Hplay |]. split; [exact Hsched | exact Hctx].
Qed.

Lemma handlePlayStop_outcome (now : Q) (st : Store) :
  mirrored st -> audioInitialized (state st) = true ->
  exists st',
    handlePlayStop now st = Done tt st' /\ mirrored st' /\
    isPlaying (state st') = negb (isPlaying (state st)) /\
    pattern (state st') = pattern (state st) /\
    tempo (state st') = tempo (state st) /\
    audioInitialized (state st') = true /\
    selectedStep (state st') = selectedStep (state st) /\
    engine_pattern st' = engine_pattern st.
Proof.
  destruct st as [[pat pl tp cs ai sel] ref h tm wt].
  cbn [state audioInitialized]. intros Hm ->.
  destruct Hm as (Hs & Hg & Ht & Hk & He).
  cbn [state audioEngineRef selectedStep pattern tempo currentStep isPlaying
       audioInitialized] in *.
  destruct ref as [e |]; [| destruct He as [He _]; discriminate He].
  destruct He as (Hc & Htempo & Hplay & Hsched & Hctx).
  set (st := {| state := _; audioEngineRef := Some e; host := h; timers := tm; waiting := wt |}) in *.
  assert (Hsched' : AudioEngine.scheduler (engine_store e st) <> None) by exact Hsched.
  unfold handlePlayStop, bind at 1, gets at 1. cbn [st audioEngineRef]. fold st.
  unfold bind at 1, the, gets. cbn [st state isPlaying]. fold st.
  destruct pl.
  - destruct (AudioEngine.stop (engine_store e st)) as [[] r | |] eqn:Hrun.
    2, 3: destruct (stop_outcome (engine_store e st)) as (r' & H' & _);
          rewrite H' in Hrun; discriminate Hrun.
    destruct (stop_outcome (engine_store e st))
      as (r' & H' & (S1 & _ & _ & S4 & S5) & _ & _ & Hoff & _).
    rewrite Hrun in H'. injection H' as <-.
    destruct (Hoff Hsched') as [Hs1 Hp1].
    unfold bind. rewrite (@current_some _ AudioEngine.stop st e eq_refl), Hrun.
    eexists. split; [reflexivity |].
    cbv beta iota delta [on_state modify app_store].
    cbn [state audioEngineRef host timers setIsPlaying pattern isPlaying tempo
         currentStep audioInitialized selectedStep st negb].
    split; [| do 5 (split; [reflexivity |]);
              unfold engine_pattern; cbn [audioEngineRef option_map fields];
              rewrite S5; reflexivity].
    apply mirrored_engine;
      cbn [setIsPlaying pattern isPlaying tempo currentStep audioInitialized selectedStep];
      try assumption.
    + apply (@stop_coherent (engine_store e st) r Hc). rewrite Hrun. reflexivity.
    + rewrite S4. exact Htempo.
    + rewrite S1. exact Hctx.
  - assert (Hpos : 0 < AudioEngine.tempo (AudioEngine.engine
                                            (AudioEngine.world (engine_store e st)))).
    { cbn [engine_store AudioEngine.world AudioEngine.engine]. rewrite Htempo. lra. }
    destruct (@start_outcome now (engine_store e st) Hc)
      as [(_ & Hneg) | (r & Hrun & Hc' & (S1 & _ & _ & S4 & S5) & Hon & _)];
      [exfalso; lra |].
    destruct (Hon Hsched') as [Hs1 Hp1].
    unfold bind. rewrite (@current_some _ (AudioEngine.start now) st e eq_refl), Hrun.
    eexists. split; [reflexivity |].
    cbv beta iota delta [on_state modify app_store].
    cbn [state audioEngineRef host timers setIsPlaying pattern isPlaying tempo
         currentStep audioInitialized selectedStep st negb].
    split; [| do 5 (split; [reflexivity |]);
              unfold engine_pattern; cbn [audioEngineRef option_map fields];
              rewrite S5; reflexivity].
    apply mirrored_engine;
      cbn [setIsPlaying pattern isPlaying tempo currentStep audioInitialized selectedStep];
      try assumption.
    + rewrite S4. exact Htempo.
    + rewrite S1. exact Hctx.
Qed.


Lemma if_current_some (m : M AudioEngine.Store unit) (st : Store) (e : EngineObject) :
  audioEngineRef st = Some e ->
  if_current m st =
  match m (engine_store e st) with
  | Done a r => Done a (app_store r st)
  | Raise x r => Raise x (app_store r st)
  | Spin => Spin
  end.
Proof.
  intros H. unfold if_current, bind, gets. rewrite H. apply current_some, H.
Qed.

Lemma setTempo_outcome (value : Q) (st : AudioEngine.Store) :
  exists st',
    AudioEngine.setTempo value st = Done tt st' /\
    AudioEngine.engine (AudioEngine.world st')
      = AudioEngine.set_tempo value (AudioEngine.engine (AudioEngine.world st)) /\
    (AudioEngine.scheduler st' = None <-> AudioEngine.scheduler st = None).
Proof.
  destruct st as [[f h] [s |] tm]; eexists; (split; [reflexivity |]);
    (split; [reflexivity |]); cbn; split; intros H; try discriminate H; reflexivity.
Qed.

Lemma handleTempoChange_outcome (value : Q) (st : Store) :
  mirrored st -> audioInitialized (state st) = true -> 60 <= value <= 180 ->
  exists st',
    handleTempoChange value st = Done tt st' /\ mirrored st' /\
    tempo (state st') = value /\
    pattern (state st') = pattern (state st) /\
    isPlaying (state st') = isPlaying (state st) /\
    audioInitialized (state st') = audioInitialized (state st) /\
    selectedStep (state st') = selectedStep (state st) /\
    engine_pattern st' = engine_pattern st.
Proof.
  destruct st as [[pat pl tp cs ai sel] ref h tm wt]; intros Hm Hai Hv;
    destruct Hm as (Hs & Hg & Ht & Hk & He);
    cbn [state audioEngineRef selectedStep pattern tempo currentStep isPlaying
         audioInitialized] in *.
  set (s' := {| pattern := pat; isPlaying := pl; tempo := value; currentStep := cs;
                audioInitialized := ai; selectedStep := sel |}).
  set (st1 := {| state := s'; audioEngineRef := ref; host := h; timers := tm; waiting := wt |}).
  assert (Hstep : handleTempoChange value
                    {| state := {| pattern := pat; isPlaying := pl; tempo := tp;
                                   currentStep := cs; audioInitialized := ai;
                                   selectedStep := sel |};
                       audioEngineRef := ref; host := h; timers := tm; waiting := wt |}
                  = if_current (AudioEngine.setTempo value) st1) by reflexivity.
  rewrite Hstep. clear Hstep.
  destruct ref as [e |].
  2: { destruct He as [He _]. congruence. }
  destruct He as (Hc & Htempo & Hplay & Hsched & Hctx).
  destruct (setTempo_outcome value (engine_store e st1)) as (r & Hrun & Hf & Hso).
  assert (Hc' : EngineCalls.coherent r).
  { apply (@call_coherent (EngineCalls.CallSetTempo value) (engine_store e st1) r Hc).
    cbn [EngineCalls.call]. rewrite Hrun. reflexivity. }
  exists (app_store r st1). split.
  { rewrite (@if_current_some _ st1 e eq_refl), Hrun. reflexivity. }
  cbn [engine_store AudioEngine.world AudioEngine.engine AudioEngine.scheduler] in Hf, Hso.
  split; [| do 5 (split; [reflexivity |]);
            unfold engine_pattern, app_store; cbn [audioEngineRef option_map fields];
            rewrite Hf; destruct (fields e); reflexivity].
  unfold app_store. cbn [st1 state].
  apply mirrored_engine; cbn [s' pattern isPlaying tempo currentStep audioInitialized
                              selectedStep]; try assumption.
  - rewrite Hf. reflexivity.
  - rewrite Hf. exact Hplay.
  - destruct ai.
    + intros H. apply Hsched, Hso, H.
    + apply Hso, Hsched.
  - rewrite Hf. exact Hctx.
Qed.

Lemma updateStep_outcome (st : Store) :
  mirrored st ->
  exists st',
    updateStep st = Done tt st' /\ mirrored st' /\
    pattern (state st') = pattern (state st) /\
    isPlaying (state st') = isPlaying (state st) /\
    tempo (state st') = tempo (state st) /\
    audioInitialized (state st') = audioInitialized (state st) /\
    selectedStep (state st') = selectedStep (state st) /\
    (forall e, audioEngineRef st = Some e ->
       currentStep (state st') = AudioEngine.currentStep (fields e)) /\
    engine_pattern st' = engine_pattern st.
Proof.
  destruct st as [[pat pl tp cs ai sel] [[f so] |] h tm wt]; intros Hm;
    (eexists; split; [reflexivity |]);
    destruct Hm as (Hs & Hg & Ht & Hk & He);
    cbn [state audioEngineRef selectedStep pattern tempo currentStep isPlaying
         audioInitialized fields scheduler setCurrentStep] in *.
  - split; [| repeat split; try (intros e [= <-]); reflexivity].
    destruct He as (Hc & He).
    unfold mirrored. cbn [state audioEngineRef selectedStep pattern tempo currentStep
      isPlaying audioInitialized fields scheduler setCurrentStep engine_store host timers].
    split; [exact Hs |]. split; [exact Hg |]. split; [exact Ht |].
    split; [exact (proj1 Hc) |]. split; [exact Hc | exact He].
  - split; [| repeat split; try (intros e [=])].
    unfold mirrored. cbn. tauto.
Qed.

Lemma timerFires_outcome (hd : positive) (now : Q) (st : Store) :
  mirrored st ->
  exists st',
    timerFires hd now st = Done tt st' /\ mirrored st' /\
    state st' = state st /\
    engine_pattern st' = engine_pattern st.
Proof.
  destruct st as [s [e |] h tm wt]; intros Hm.
  2: { eexists. split; [reflexivity |]. split; [exact Hm | split; reflexivity]. }
  destruct Hm as (Hs & Hg & Ht & Hk & Hc & Htempo & Hplay & Hsched & Hctx).
  cbn [state audioEngineRef] in *.
  set (st := {| state := s; audioEngineRef := Some e; host := h; timers := tm; waiting := wt |}) in *.
  destruct (@tick_outcome hd now (engine_store e st) Hc)
    as [(_ & Hneg) | (r & Hrun & Hc' & (S1 & _ & _ & S4 & S5) & Hp & Hso)].
  { exfalso. cbn [engine_store AudioEngine.world AudioEngine.engine] in Hneg.
    rewrite Htempo in Hneg. lra. }
  exists (app_store r st). split.
  { unfold timerFires. rewrite (@if_current_some _ st e eq_refl), Hrun. reflexivity. }
  cbn [engine_store AudioEngine.world AudioEngine.engine AudioEngine.scheduler]
    in S1, S4, S5, Hp, Hso.
  split; [| split; [reflexivity |];
            unfold engine_pattern, app_store; cbn [audioEngineRef option_map fields];
            rewrite S5; reflexivity].
  unfold app_store. cbn [st state].
  apply mirrored_engine; try assumption.
  - rewrite S4. exact Htempo.
  - rewrite Hp. exact Hplay.
  - destruct (audioInitialized s).
    + intros H. apply Hsched, Hso, H.
    + apply Hso, Hsched.
  - rewrite S1. exact Hctx.
Qed.


(** [init()] is its part up to the [await], and then, where it waits, the
    part from the [await] on. *)
Lemma init_in_two (env : AudioEngine.Env) (st : AudioEngine.Store) :
  AudioEngine.init env st =
  match init_to_await env st with
  | Done (Some b) r => Done b r
  | Done None r =>
      match AudioEngine.resume env with
      | AudioEngine.Fulfilled => init_from_await true r
      | AudioEngine.Refused => init_from_await false r
      | AudioEngine.Pending => Raise Unsettled r
      end
  | Raise x r => Raise x r
  | Spin => Spin
  end.
Proof.
  destruct st as [[[ctx mg comp tp pl cs pat] h] so tm], env as [api ist rate res].
  destruct h as [o n r dr sc tr].
  unfold init_to_await, init_from_await, init_rest.
  destruct ctx as [[cst sr] |], mg as [g |], so as [s |], api, res;
    try destruct cst; try destruct ist; engine_steps; reflexivity.
Qed.

Lemma init_to_await_outcome (env : AudioEngine.Env) (st : AudioEngine.Store) :
  EngineCalls.coherent st -> AudioEngine.scheduler st = None ->
  exists st',
    (init_to_await env st = Done (Some true) st' /\ AudioEngine.scheduler st' <> None \/
     init_to_await env st = Done None st' /\ AudioEngine.scheduler st' = None /\
     AudioEngine.context (AudioEngine.engine (AudioEngine.world st')) <> None \/
     init_to_await env st = Raise TypeError st' /\ st' = st /\
     AudioEngine.has_AudioContext env = false /\
     AudioEngine.context (AudioEngine.engine (AudioEngine.world st)) = None) /\
    EngineCalls.coherent st' /\
    AudioEngine.tempo (AudioEngine.engine (AudioEngine.world st'))
      = AudioEngine.tempo (AudioEngine.engine (AudioEngine.world st)) /\
    AudioEngine.isPlaying (AudioEngine.engine (AudioEngine.world st'))
      = AudioEngine.isPlaying (AudioEngine.engine (AudioEngine.world st)) /\
    AudioEngine.pattern (AudioEngine.engine (AudioEngine.world st'))
      = AudioEngine.pattern (AudioEngine.engine (AudioEngine.world st)) /\
    (AudioEngine.context (AudioEngine.engine (AudioEngine.world st)) <> None ->
     AudioEngine.context (AudioEngine.engine (AudioEngine.world st')) <> None).
Proof.
  destruct st as [[[ctx mg comp tp pl cs pat] h] so tm], env as [api ist rate res].
  destruct h as [o n r dr sc tr].
  cbn [AudioEngine.scheduler]. intros Hc ->.
  unfold init_to_await, init_rest.
  destruct ctx as [[cst sr] |], mg as [g |], api;
    try destruct cst; try destruct ist; engine_steps;
    unfold EngineCalls.coherent, AudioEngine.ready in Hc;
    cbn [AudioEngine.world AudioEngine.engine AudioEngine.scheduler AudioEngine.currentStep
         AudioEngine.isPlaying AudioEngine.context AudioEngine.masterGain] in Hc;
    eexists;
    (split;
     [first [left; split; [reflexivity | discriminate]
            | right; left; split; [reflexivity | split; [reflexivity | discriminate]]
            | right; right; split; [reflexivity | repeat split; reflexivity]] |]);
    engine_steps; coherent_cases.
Qed.

Lemma init_from_await_outcome (st : AudioEngine.Store) :
  EngineCalls.coherent st ->
  AudioEngine.context (AudioEngine.engine (AudioEngine.world st)) <> None ->
  init_from_await false st = Raise Rejected st /\
  exists st',
    init_from_await true st = Done true st' /\
    AudioEngine.scheduler st' <> None /\
    EngineCalls.coherent st' /\
    AudioEngine.tempo (AudioEngine.engine (AudioEngine.world st'))
      = AudioEngine.tempo (AudioEngine.engine (AudioEngine.world st)) /\
    AudioEngine.isPlaying (AudioEngine.engine (AudioEngine.world st'))
      = AudioEngine.isPlaying (AudioEngine.engine (AudioEngine.world st)) /\
    AudioEngine.pattern (AudioEngine.engine (AudioEngine.world st'))
      = AudioEngine.pattern (AudioEngine.engine (AudioEngine.world st)) /\
    AudioEngine.context (AudioEngine.engine (AudioEngine.world st')) <> None.
Proof.
  destruct st as [[[ctx mg comp tp pl cs pat] h] so tm].
  destruct h as [o n r dr sc tr].
  cbn [AudioEngine.world AudioEngine.engine AudioEngine.context]. intros Hc Hctx.
  split; [reflexivity |].
  unfold init_from_await, init_rest.
  destruct ctx as [[cst sr] |]; [| congruence].
  destruct mg as [g |], so as [[t1 l1 a1 p1 k1 n1 id1] |]; engine_steps;
    unfold EngineCalls.coherent, AudioEngine.ready, Scheduler.consistent in Hc;
    cbn [AudioEngine.world AudioEngine.engine AudioEngine.scheduler AudioEngine.currentStep
         AudioEngine.isPlaying AudioEngine.context AudioEngine.masterGain AudioEngine.tempo
         Scheduler.tempo Scheduler.isPlaying Scheduler.lookahead Scheduler.scheduleAheadTime
         Scheduler.currentStep Scheduler.timerID] in Hc;
    eexists; (split; [reflexivity |]); (split; [discriminate |]);
    engine_steps; coherent_cases.
Qed.

(** [initAudio], until it returns or waits. *)
Lemma initAudio_outcome (env : AudioEngine.Env) (st : Store) :
  mirrored st -> audioInitialized (state st) = false ->
  exists st',
    mirrored st' /\
    pattern (state st') = pattern (state st) /\
    tempo (state st') = tempo (state st) /\
    isPlaying (state st') = isPlaying (state st) /\
    currentStep (state st') = currentStep (state st) /\
    selectedStep (state st') = selectedStep (state st) /\
    audioEngineRef st' <> None /\
    (in_sync st -> in_sync st') /\
    (initAudio env st = Done tt st' /\ audioInitialized (state st') = true /\
     in_sync st' /\ waiting st' = waiting st \/
     initAudio env st = Done tt st' /\ audioInitialized (state st') = false /\
     waiting st' = waiting st ++ [pattern (state st)] \/
     initAudio env st = Raise TypeError st' /\ audioInitialized (state st') = false /\
     waiting st' = waiting st /\ AudioEngine.has_AudioContext env = false).
Proof.
  destruct st as [[pat pl tp cs ai sel] ref h tm wt].
  cbn [state audioInitialized]. intros Hm ->.
  destruct Hm as (Hs & Hg & Ht & Hk & He).
  cbn [state audioEngineRef selectedStep pattern tempo currentStep isPlaying
       audioInitialized waiting] in *.
  set (s := {| pattern := pat; isPlaying := pl; tempo := tp; currentStep := cs;
               audioInitialized := false; selectedStep := sel |}).
  (* the engine object init() runs on *)
  set (e0 := match ref with
             | Some e => e
             | None => {| fields := AudioEngine.constructor; scheduler := None |}
             end).
  set (st0 := {| state := s; audioEngineRef := Some e0; host := h; timers := tm;
                 waiting := wt |}).
  assert (Hfirst :
            initAudio env {| state := s; audioEngineRef := ref; host := h; timers := tm;
                             waiting := wt |}
            = bind (current (init_to_await env))
                (fun r : option bool =>
                   match r with
                   | Some success => initAudio_then pat success
                   | None =>
                       modify (fun st =>
                         {| state := state st; audioEngineRef := audioEngineRef st;
                            host := host st; timers := timers st;
                            waiting := waiting st ++ [pat] |})
                   end) st0).
  { unfold st0, e0. destruct ref; reflexivity. }
  rewrite Hfirst. clear Hfirst.
  assert (He0 : EngineCalls.coherent (engine_store e0 st0) /\
                AudioEngine.tempo (fields e0) = tp /\
                AudioEngine.isPlaying (fields e0) = pl /\
                scheduler e0 = None /\
                (wt = [] \/ AudioEngine.context (fields e0) <> None)).
  { unfold e0, st0. destruct ref as [e |].
    - destruct He as (Hc & H1 & H2 & H4 & H5).
      split; [exact Hc |]. split; [exact H1 |]. split; [exact H2 |].
      split; [exact H4 | exact H5].
    - destruct He as (_ & Hpl & Htp & Hwt). subst pl tp.
      split; [| repeat split; left; exact Hwt].
      unfold EngineCalls.coherent. cbn. split; [lia | reflexivity]. }
  destruct He0 as (Hc & Htempo & Hplay & Hsched & Hctx).
  destruct (@init_to_await_outcome env (engine_store e0 st0) Hc Hsched)
    as (r & Hrun & Hc' & R1 & R2 & R4 & R6).
  cbn [engine_store AudioEngine.world AudioEngine.engine AudioEngine.scheduler
       AudioEngine.timers] in R1, R2, R4, R6.
  assert (Hkeep : in_sync {| state := s; audioEngineRef := ref; host := h; timers := tm;
                             waiting := wt |} ->
                  Some (AudioEngine.pattern (AudioEngine.engine (AudioEngine.world r)))
                  = Some (Some (Constants.to_engine pat))).
  { unfold in_sync, engine_pattern. cbn [audioEngineRef state s pattern].
    destruct ref as [e |]; cbn [option_map]; intros H; [| discriminate H].
    rewrite R4. exact H. }
  assert (Hctx' : forall w : list Constants.Pattern,
             w = wt ->
             w = [] \/ AudioEngine.context (AudioEngine.engine (AudioEngine.world r)) <> None).
  { intros w ->. destruct Hctx as [H | H]; [left; exact H | right; exact (R6 H)]. }
  destruct Hrun as [[Hrun Hso] | [(Hrun & Hso & Hc6) | (Hrun & -> & Hapi & _)]].
  - (* init() returned true *)
    set (r' := {| AudioEngine.world :=
                    {| AudioEngine.engine :=
                         AudioEngine.set_pattern (Some (Constants.to_engine pat))
                           (AudioEngine.engine (AudioEngine.world r));
                       AudioEngine.host := AudioEngine.host (AudioEngine.world r) |};
                  AudioEngine.scheduler := AudioEngine.scheduler r;
                  AudioEngine.timers := AudioEngine.timers r |}).
    exists {| state := setAudioInitialized true s;
              audioEngineRef :=
                Some {| fields := AudioEngine.engine (AudioEngine.world r');
                        scheduler := AudioEngine.scheduler r' |};
              host := AudioEngine.host (AudioEngine.world r');
              timers := AudioEngine.timers r';
              waiting := wt |}.
    split.
    { apply (@mirrored_engine (setAudioInitialized true s) r' wt);
        cbn [s setAudioInitialized pattern isPlaying tempo currentStep audioInitialized
             selectedStep r' AudioEngine.world AudioEngine.engine AudioEngine.scheduler];
        try assumption.
      + destruct (AudioEngine.engine (AudioEngine.world r)). cbn in *. congruence.
      + destruct (AudioEngine.engine (AudioEngine.world r)). cbn in *. congruence.
      + destruct (Hctx' wt eq_refl) as [H | H]; [left; exact H | right].
        destruct (AudioEngine.engine (AudioEngine.world r)). exact H. }
    do 5 (split; [reflexivity |]). split; [discriminate |].
    assert (Hsync : in_sync
                      {| state := setAudioInitialized true s;
                         audioEngineRef :=
                           Some {| fields := AudioEngine.engine (AudioEngine.world r');
                                   scheduler := AudioEngine.scheduler r' |};
                         host := AudioEngine.host (AudioEngine.world r');
                         timers := AudioEngine.timers r';
                         waiting := wt |}).
    { unfold in_sync, engine_pattern.
      cbn [audioEngineRef option_map fields r' AudioEngine.world AudioEngine.engine state
           setAudioInitialized pattern s].
      destruct (AudioEngine.engine (AudioEngine.world r)). reflexivity. }
    split; [intros _; exact Hsync |].
    left. split; [| split; [reflexivity | split; [exact Hsync | reflexivity]]].
    unfold bind at 1. rewrite (@current_some _ (init_to_await env) st0 e0 eq_refl), Hrun.
    unfold initAudio_then, bind, on_state, modify.
    rewrite (@current_some _ _ (app_store r st0) _ eq_refl), setPattern_outcome.
    reflexivity.
  - (* init() waits for resume() *)
    exists {| state := s;
              audioEngineRef :=
                Some {| fields := AudioEngine.engine (AudioEngine.world r);
                        scheduler := AudioEngine.scheduler r |};
              host := AudioEngine.host (AudioEngine.world r);
              timers := AudioEngine.timers r;
              waiting := wt ++ [pat] |}.
    split.
    { apply (@mirrored_engine s r (wt ++ [pat]));
        cbn [s pattern isPlaying tempo currentStep audioInitialized selectedStep];
        try assumption.
      + congruence.
      + congruence.
      + right. exact Hc6. }
    do 5 (split; [reflexivity |]). split; [discriminate |].
    split; [exact Hkeep |].
    right. left. split; [| split; reflexivity].
    unfold bind at 1. rewrite (@current_some _ (init_to_await env) st0 e0 eq_refl), Hrun.
    reflexivity.
  - (* no AudioContext constructor *)
    exists (app_store (engine_store e0 st0) st0). split.
    { unfold app_store. cbn [st0 state waiting].
      apply (@mirrored_engine s (engine_store e0 st0) wt);
        cbn [s pattern isPlaying tempo currentStep audioInitialized selectedStep];
        try assumption. }
    do 5 (split; [reflexivity |]). split; [discriminate |].
    split; [exact Hkeep |].
    right. right. split; [| split; [reflexivity | split; [reflexivity | exact Hapi]]].
    unfold bind at 1. rewrite (@current_some _ (init_to_await env) st0 e0 eq_refl), Hrun.
    reflexivity.
Qed.

(** A waiting call of [initAudio] goes on. *)
Lemma initAudio_resumed_outcome (i : nat) (fulfilled : bool) (st : Store) :
  mirrored st -> (i < length (waiting st))%nat ->
  exists p e st',
    nth_error (waiting st) i = Some p /\
    audioEngineRef st = Some e /\
    mirrored st' /\
    waiting st' = firstn i (waiting st) ++ skipn (S i) (waiting st) /\
    pattern (state st') = pattern (state st) /\
    tempo (state st') = tempo (state st) /\
    isPlaying (state st') = isPlaying (state st) /\
    currentStep (state st') = currentStep (state st) /\
    selectedStep (state st') = selectedStep (state st) /\
    (if fulfilled
     then initAudio_resumed i fulfilled st = Done tt st' /\
          audioInitialized (state st') = true /\
          exists e', audioEngineRef st' = Some e' /\
                     AudioEngine.pattern (fields e') = Some (Constants.to_engine p)
     else initAudio_resumed i fulfilled st = Raise Rejected st' /\
          state st' = state st /\ audioEngineRef st' = audioEngineRef st).
Proof.
  destruct st as [[pat pl tp cs ai sel] ref h tm wt].
  cbn [state waiting audioEngineRef]. intros Hm Hi.
  destruct (nth_error wt i) as [p |] eqn:Hp; [| apply nth_error_None in Hp; lia].
  destruct Hm as (Hs & Hg & Ht & Hk & He).
  cbn [state audioEngineRef selectedStep pattern tempo currentStep isPlaying
       audioInitialized waiting] in *.
  destruct ref as [e |].
  2: { destruct He as (_ & _ & _ & Hwt). subst wt. destruct i; discriminate Hp. }
  destruct He as (Hc & Htempo & Hplay & Hsched & Hctx).
  assert (Hctx1 : AudioEngine.context (fields e) <> None).
  { destruct Hctx as [H | H]; [subst wt; destruct i; discriminate Hp | exact H]. }
  set (s := {| pattern := pat; isPlaying := pl; tempo := tp; currentStep := cs;
               audioInitialized := ai; selectedStep := sel |}).
  set (wt' := firstn i wt ++ skipn (S i) wt).
  set (st0 := {| state := s; audioEngineRef := Some e; host := h; timers := tm;
                 waiting := wt' |}).
  assert (Hfirst :
            initAudio_resumed i fulfilled
              {| state := s; audioEngineRef := Some e; host := h; timers := tm;
                 waiting := wt |}
            = bind (current (init_from_await fulfilled))
                (fun success => initAudio_then p success) st0).
  { unfold initAudio_resumed, bind at 1, gets. cbn [waiting]. rewrite Hp. reflexivity. }
  rewrite Hfirst. clear Hfirst.
  destruct (@init_from_await_outcome (engine_store e st0) Hc Hctx1)
    as (Hno & r & Hrun & Hso & Hc' & R1 & R2 & R4 & R6).
  cbn [engine_store AudioEngine.world AudioEngine.engine AudioEngine.scheduler
       AudioEngine.timers] in R1, R2, R4, R6.
  exists p, e. destruct fulfilled.
  - set (r' := {| AudioEngine.world :=
                    {| AudioEngine.engine :=
                         AudioEngine.set_pattern (Some (Constants.to_engine p))
                           (AudioEngine.engine (AudioEngine.world r));
                       AudioEngine.host := AudioEngine.host (AudioEngine.world r) |};
                  AudioEngine.scheduler := AudioEngine.scheduler r;
                  AudioEngine.timers := AudioEngine.timers r |}).
    exists {| state := setAudioInitialized true s;
              audioEngineRef :=
                Some {| fields := AudioEngine.engine (AudioEngine.world r');
                        scheduler := AudioEngine.scheduler r' |};
              host := AudioEngine.host (AudioEngine.world r');
              timers := AudioEngine.timers r';
              waiting := wt' |}.
    split; [reflexivity |]. split; [reflexivity |].
    split.
    { apply (@mirrored_engine (setAudioInitialized true s) r' wt');
        cbn [s setAudioInitialized pattern isPlaying tempo currentStep audioInitialized
             selectedStep r' AudioEngine.world AudioEngine.engine AudioEngine.scheduler];
        try assumption.
      + destruct (AudioEngine.engine (AudioEngine.world r)). cbn in *. congruence.
      + destruct (AudioEngine.engine (AudioEngine.world r)). cbn in *. congruence.
      + right. destruct (AudioEngine.engine (AudioEngine.world r)). exact R6. }
    do 6 (split; [reflexivity |]).
    split; [| split; [reflexivity |]].
    + unfold bind at 1. rewrite (@current_some _ (init_from_await true) st0 e eq_refl), Hrun.
      unfold initAudio_then, bind, on_state, modify.
      rewrite (@current_some _ _ (app_store r st0) _ eq_refl), setPattern_outcome.
      reflexivity.
    + eexists. split; [reflexivity |].
      cbn [fields r' AudioEngine.world AudioEngine.engine].
      destruct (AudioEngine.engine (AudioEngine.world r)). reflexivity.
  - exists st0.
    split; [reflexivity |]. split; [reflexivity |].
    split.
    { unfold mirrored, st0. cbn [state audioEngineRef waiting s selectedStep pattern tempo
                                  currentStep isPlaying audioInitialized].
      split; [exact Hs |]. split; [exact Hg |]. split; [exact Ht |]. split; [exact Hk |].
      split; [exact Hc |]. split; [exact Htempo |]. split; [exact Hplay |].
      split; [exact Hsched | right; exact Hctx1]. }
    do 6 (split; [reflexivity |]).
    split; [| split; reflexivity].
    unfold bind at 1. rewrite (@current_some _ (init_from_await false) st0 e eq_refl), Hno.
    unfold app_store, st0, engine_store.
    cbn [AudioEngine.world AudioEngine.engine AudioEngine.host AudioEngine.scheduler
         AudioEngine.timers state audioEngineRef host timers waiting].
    destruct e. reflexivity.
Qed.

Lemma handleClear_outcome (st : Store) :
  handleClear st = Done tt (with_pattern Constants.clearPattern st).
Proof. apply update_pattern. Qed.

Lemma handleToggleStep_outcome (track : Constants.TrackId) (step : Z) (st : Store) :
  handleToggleStep track step st
  = Done tt (with_pattern (toggled (pattern (state st)) track step) st).
Proof.
  unfold handleToggleStep, bind at 1, the, gets.
  apply (toggle_pattern (toggled (pattern (state st)) track step) st).
Qed.

Lemma toggled_grid (p : Constants.Pattern) (track : Constants.TrackId) (step : Z) :
  Constants.grid p -> (step < 16)%Z -> Constants.grid (toggled p track step).
Proof.
  intros Hg Hstep. unfold toggled. destruct (step <? 0)%Z eqn:E.
  - apply clone_grid, Hg.
  - apply Z.ltb_ge in E. apply toggleStep_grid; [exact Hg | lia].
Qed.

Lemma handlePresetChange_outcome (presetName : String.string) (st : Store) :
  match Constants.presets presetName with
  | Constants.Own p =>
      handlePresetChange presetName st = Done tt (with_pattern (Constants.clonePattern p) st)
  | Constants.Inherited => handlePresetChange presetName st = Raise TypeError st
  | Constants.Undefined => handlePresetChange presetName st = Done tt st
  end.
Proof.
  unfold handlePresetChange. destruct (Constants.presets presetName) as [p | |].
  - apply (update_pattern (Constants.clonePattern p) st).
  - reflexivity.
  - reflexivity.
Qed.

Lemma offered_preset (value : String.string) (st : Store) :
  offered (SelectPreset value) st = true ->
  exists p, Constants.presets value = Constants.Own p.
Proof.
  unfold offered. intros H. apply andb_prop in H. destruct H as [_ H]. revert H.
  cbn [existsb]. unfold Constants.presets.
  repeat match goal with
         | |- context [String.eqb value ?k] => destruct (String.eqb value k)
         end; cbn [orb]; intros H; try discriminate H; eexists; reflexivity.
Qed.

Lemma on_selection_outcome (f : Selection -> Selection) (st : Store) :
  mirrored st ->
  (forall s, in_grid s -> in_grid (f s)) ->
  exists st',
    on_state (setSelectedStep f) st = Done tt st' /\ mirrored st' /\
    (in_sync st -> in_sync st').
Proof.
  destruct st as [[pat pl tp cs ai sel] ref h tm wt]. intros Hm Hf.
  eexists. split; [reflexivity |].
  destruct Hm as (Hs & Hrest). split; [split; [apply Hf, Hs | exact Hrest] |].
  exact (fun H => H).
Qed.

Lemma track_at_row (i : Z) :
  (0 <= i <= 3)%Z -> exists info, track_at i = Some info.
Proof.
  intros H. assert (Hi : i = 0%Z \/ i = 1%Z \/ i = 2%Z \/ i = 3%Z) by lia.
  destruct Hi as [-> | [-> | [-> | ->]]]; eexists; reflexivity.
Qed.

Lemma handleKeyDown_outcome (tagName key : String.string) (now : Q) (st : Store) :
  mirrored st ->
  exists st',
    handleKeyDown tagName key now st = Done tt st' /\ mirrored st' /\
    (in_sync st -> in_sync st').
Proof.
  intros Hm. unfold handleKeyDown.
  repeat lazymatch goal with
         | |- exists st', (if ?c then _ else _) _ = _ /\ _ => destruct c
         end.
  - exists st. split; [reflexivity | split; [exact Hm | exact (fun H => H)]].
  - unfold bind at 1, the, gets.
    destruct (audioInitialized (state st)) eqn:Hai.
    + destruct (handlePlayStop_outcome now Hm Hai)
        as (st' & Hrun & Hm' & _ & Hp & _ & _ & _ & Hep).
      exists st'. split; [exact Hrun | split; [exact Hm' | exact (@in_sync_same _ _ Hep Hp)]].
    + exists st. split; [reflexivity | split; [exact Hm | exact (fun H => H)]].
  - rewrite handleClear_outcome. eexists. split; [reflexivity |]. split.
    + apply mirrored_with_pattern; [exact Hm | apply clear_grid].
    + intros H. apply with_pattern_in_sync, in_sync_engine, H.
  - apply on_selection_outcome; [exact Hm |].
    intros s [Hr Hc]. split; cbn [row col]; [lia | exact Hc].
  - apply on_selection_outcome; [exact Hm |].
    intros s [Hr Hc]. split; cbn [row col]; [lia | exact Hc].
  - apply on_selection_outcome; [exact Hm |].
    intros s [Hr Hc]. split; cbn [row col]; [exact Hr | lia].
  - apply on_selection_outcome; [exact Hm |].
    intros s [Hr Hc]. split; cbn [row col]; [exact Hr | lia].
  - unfold bind at 1, the, gets.
    destruct Hm as (Hs & Hm). destruct (track_at_row (proj1 Hs)) as [info Hinfo].
    rewrite Hinfo, handleToggleStep_outcome. eexists. split; [reflexivity |]. split.
    + apply mirrored_with_pattern; [split; assumption |].
      apply toggled_grid; [apply Hm | destruct Hs as [_ Hc]; lia].
    + intros H. apply with_pattern_in_sync, in_sync_engine, H.
  - exists st. split; [reflexivity | split; [exact Hm | exact (fun H => H)]].
Qed.

End AppOutcomes.

Section AppInvariant.

Import App.
Open Scope Q_scope.

Lemma mirrored_mount (h : WebAudio.Host) (tm : Timers) : mirrored (mount h tm).
Proof.
  unfold mirrored, mount. cbn [state audioEngineRef selectedStep pattern tempo currentStep
                               isPlaying audioInitialized waiting].
  split; [split; cbn [row col]; lia |].
  split; [exact clear_grid |].
  split; [split; discriminate |].
  split; [lia |]. repeat split.
Qed.

Lemma handle_outcome (e : Event) (st : Store) :
  mirrored st -> offered e st = true ->
  exists st',
    mirrored st' /\
    (in_sync st -> in_sync st') /\
    (edits e = true -> audioEngineRef st <> None -> in_sync st') /\
    (handle e st = Done tt st' \/
     exists env,
       e = ClickInitAudio env /\ handle e st = Raise TypeError st' /\
       audioInitialized (state st') = false).
Proof.
  intros Hm Hoff. destruct e as [env | now | value | value | | track index | tag key now | | hd now];
    cbn [handle offered edits] in *.
  - apply negb_true_iff in Hoff.
    destruct (initAudio_outcome env Hm Hoff)
      as (st' & Hm' & _ & _ & _ & _ & _ & _ & Hsync &
          [(Hrun & _) | [(Hrun & _) | (Hrun & Hai & _)]]);
      exists st'; (split; [exact Hm' |]); (split; [exact Hsync |]);
      (split; [intros H; discriminate H |]).
    + left. exact Hrun.
    + left. exact Hrun.
    + right. exists env. repeat split; assumption.
  - destruct (handlePlayStop_outcome now Hm Hoff)
      as (st' & Hrun & Hm' & _ & Hp & _ & _ & _ & Hep).
    exists st'. split; [exact Hm' |]. split; [exact (@in_sync_same _ _ Hep Hp) |].
    split; [intros H; discriminate H | left; exact Hrun].
  - apply andb_prop in Hoff. destruct Hoff as [Hoff Hhi].
    apply andb_prop in Hoff. destruct Hoff as [Hai Hlo].
    apply Qle_bool_iff in Hlo, Hhi. cbn [Constants.minTempo Constants.maxTempo
                                          Constants.defaults] in Hlo, Hhi.
    destruct (handleTempoChange_outcome Hm Hai (conj Hlo Hhi))
      as (st' & Hrun & Hm' & _ & Hp & _ & _ & _ & Hep).
    exists st'. split; [exact Hm' |]. split; [exact (@in_sync_same _ _ Hep Hp) |].
    split; [intros H; discriminate H | left; exact Hrun].
  - destruct (offered_preset _ _ Hoff) as [p Hp].
    pose proof (handlePresetChange_outcome value st) as Hrun. rewrite Hp in Hrun.
    eexists. split; [| split; [| split; [| left; exact Hrun]]].
    + apply mirrored_with_pattern; [exact Hm |]. apply clone_grid, (preset_grid _ Hp).
    + intros H. apply with_pattern_in_sync, in_sync_engine, H.
    + intros _ H. apply with_pattern_in_sync, H.
  - eexists. split; [| split; [| split; [| left; apply handleClear_outcome]]].
    + apply mirrored_with_pattern; [exact Hm | apply clear_grid].
    + intros H. apply with_pattern_in_sync, in_sync_engine, H.
    + intros _ H. apply with_pattern_in_sync, H.
  - eexists. split; [| split; [| split; [| left; apply handleToggleStep_outcome]]].
    + apply mirrored_with_pattern; [exact Hm |].
      apply toggled_grid; [apply Hm |].
      apply Nat.ltb_lt in Hoff.
      destruct Hm as (_ & Hg & _). destruct (Hg track) as [Hlen _]. lia.
    + intros H. apply with_pattern_in_sync, in_sync_engine, H.
    + intros _ H. apply with_pattern_in_sync, H.
  - destruct (handleKeyDown_outcome tag key now Hm) as (st' & Hrun & Hm' & Hsync).
    exists st'. split; [exact Hm' |]. split; [exact Hsync |].
    split; [intros H; discriminate H | left; exact Hrun].
  - destruct (updateStep_outcome Hm) as (st' & Hrun & Hm' & Hp & _ & _ & _ & _ & _ & Hep).
    exists st'. split; [exact Hm' |]. split; [exact (@in_sync_same _ _ Hep Hp) |].
    split; [intros H; discriminate H | left; exact Hrun].
  - destruct (timerFires_outcome hd now Hm) as (st' & Hrun & Hm' & Hst & Hep).
    exists st'. split; [exact Hm' |].
    split; [apply (@in_sync_same _ _ Hep); rewrite Hst; reflexivity |].
    split; [intros H; discriminate H | left; exact Hrun].
Qed.

Lemma reachable_mirrored (st : Store) : reachable st -> mirrored st.
Proof.
  induction 1 as [h tm | st st' e _ IH Hoff Hrun | st st' i fulfilled _ IH Hi Hrun].
  - apply mirrored_mount.
  - destruct (handle_outcome e IH Hoff) as (st2 & Hm & _ & _ & [H | (env & _ & H & _)]);
      rewrite H in Hrun; injection Hrun as <-; exact Hm.
  - destruct (initAudio_resumed_outcome fulfilled IH Hi)
      as (p & e & st2 & _ & _ & Hm & _ & _ & _ & _ & _ & _ & H).
    destruct fulfilled; destruct H as [H _];
      rewrite H in Hrun; injection Hrun as <-; exact Hm.
Qed.

End AppInvariant.

(** A mounted component whose audio was initialised by a click, on a host
    with an [AudioContext] that runs from its construction. *)
Lemma initialised_app :
  exists st,
    store_of (App.handle
                (App.ClickInitAudio
                   {| AudioEngine.has_AudioContext := true;
                      AudioEngine.initial_state := WebAudio.Running;
                      AudioEngine.hardware_rate := 44100;
                      AudioEngine.resume := AudioEngine.Fulfilled |})
                (App.mount (WebAudio.new_host (fun _ => 0) true) no_timers)) = Some st /\
    App.reachable st /\
    App.audioInitialized (App.state st) = true.
Proof.
  assert (H : exists st,
             store_of (App.handle
                (App.ClickInitAudio
                   {| AudioEngine.has_AudioContext := true;
                      AudioEngine.initial_state := WebAudio.Running;
                      AudioEngine.hardware_rate := 44100;
                      AudioEngine.resume := AudioEngine.Fulfilled |})
                (App.mount (WebAudio.new_host (fun _ => 0) true) no_timers)) = Some st /\
             App.audioInitialized (App.state st) = true).
  { eexists. split; vm_compute; reflexivity. }
  destruct H as (st & Hstore & Hai).
  exists st. split; [exact Hstore |]. split; [| exact Hai].
  refine (@App.reach_event _ _ _ (App.reach_mount _ _) _ Hstore). reflexivity.
Qed.

(** X22.  The state of the interface stays in range.  Whatever the user does with
    the mounted component (the events its controls offer, keys, animation
    frames and timer callbacks, in any order), the pattern is a grid of four
    tracks with sixteen cells of 0 or 1, the tempo is within 60..180, the
    keyboard selection is within rows 0..3 and columns 0..15, the step shown
    is within 0..15, and the component does not say it plays before audio is
    initialised. *)
Theorem X22_app_state_stays_in_range (st : App.Store) :
  App.reachable st ->
  Constants.grid (App.pattern (App.state st)) /\
  60 <= App.tempo (App.state st) <= 180 /\
  (0 <= App.row (App.selectedStep (App.state st)) <= 3)%Z /\
  (0 <= App.col (App.selectedStep (App.state st)) <= 15)%Z /\
  (0 <= App.currentStep (App.state st) < 16)%Z /\
  (App.audioInitialized (App.state st) = false -> App.isPlaying (App.state st) = false).
Proof.
  intros Hr. apply reachable_mirrored in Hr.
  destruct Hr as ([Hrow Hcol] & Hg & Ht & Hk & He).
  split; [exact Hg |]. split; [exact Ht |]. split; [exact Hrow |]. split; [exact Hcol |].
  split; [exact Hk |]. intros Hai.
  destruct (App.audioEngineRef st) as [e |].
  - destruct He as ((_ & Hc) & _ & Hplay & Hsched & _). rewrite Hai in Hsched.
    cbn [App.engine_store AudioEngine.scheduler AudioEngine.world AudioEngine.engine] in Hc.
    rewrite Hsched in Hc. congruence.
  - apply He.
Qed.

Lemma X22_app_state_stays_in_range_witness :
  exists st,
    store_of (App.handle (App.ClickStep Constants.HihatId 15)
                (App.mount (WebAudio.new_host (fun _ => 0) true) no_timers)) = Some st /\
    Constants.grid (App.pattern (App.state st)).
Proof.
  eexists. split; [reflexivity |].
  refine (proj1 (@X22_app_state_stays_in_range _ _)).
  exact (@App.reach_event _ _ (App.ClickStep Constants.HihatId 15)
           (App.reach_mount (WebAudio.new_host (fun _ => 0) true) no_timers)
           eq_refl eq_refl).
Defined.

(** X23.  The interface mirrors the engine.  Once audio is initialised, the engine
    and its scheduler exist, hold the tempo the component shows and play iff
    the component says so.  The handlers keep the pattern of the engine in
    step with the one shown: whatever event the component handles, an
    engine that held the pattern shown holds it afterwards, and after a
    preset, a clear or a click on a cell an engine that exists holds it; so
    does a waiting call of [initAudio] whose [resume()] is rejected.  (A
    waiting call whose [resume()] is fulfilled gives the engine the pattern
    of the render it was made in: X25, X29.) *)
Theorem X23_app_mirrors_engine (st : App.Store) :
  App.reachable st ->
  (App.audioInitialized (App.state st) = true ->
   exists e s,
     App.audioEngineRef st = Some e /\ App.scheduler e = Some s /\
     AudioEngine.tempo (App.fields e) = App.tempo (App.state st) /\
     Scheduler.tempo s = App.tempo (App.state st) /\
     AudioEngine.isPlaying (App.fields e) = App.isPlaying (App.state st) /\
     Scheduler.isPlaying s = App.isPlaying (App.state st)) /\
  (forall e st',
     App.offered e st = true -> store_of (App.handle e st) = Some st' ->
     (App.in_sync st -> App.in_sync st') /\
     (App.edits e = true -> App.audioEngineRef st <> None -> App.in_sync st')) /\
  (forall i st',
     (i < length (App.waiting st))%nat ->
     store_of (App.initAudio_resumed i false st) = Some st' ->
     App.in_sync st -> App.in_sync st').
Proof.
  intros Hr. apply reachable_mirrored in Hr. split; [| split].
  - intros Hai. destruct Hr as (_ & _ & _ & _ & He).
    destruct (App.audioEngineRef st) as [e |]; [| destruct He as [He _]; congruence].
    destruct He as ((_ & Hc) & Htempo & Hplay & Hsched & _).
    rewrite Hai in Hsched.
    cbn [App.engine_store AudioEngine.scheduler AudioEngine.world AudioEngine.engine] in Hc.
    destruct (App.scheduler e) as [s |] eqn:Hs; [| congruence].
    destruct Hc as (_ & Ht & Hp & _).
    exists e, s. split; [reflexivity |]. split; [exact Hs |].
    split; [exact Htempo |]. split; [congruence |]. split; [exact Hplay | congruence].
  - intros e st' Hoff Hrun.
    destruct (handle_outcome e Hr Hoff)
      as (st2 & _ & Hkeep & Hedit & [H | (env & _ & H & _)]);
      rewrite H in Hrun; injection Hrun as <-; split; assumption.
  - intros i st' Hi Hrun.
    destruct (initAudio_resumed_outcome false Hr Hi)
      as (p & e & st2 & _ & _ & _ & _ & _ & _ & _ & _ & _ & H & Hst & Href).
    rewrite H in Hrun. injection Hrun as <-.
    unfold App.in_sync, App.engine_pattern. rewrite Hst, Href. exact (fun H => H).
Qed.

Lemma X23_app_mirrors_engine_witness :
  exists st st' e s,
    App.reachable st /\ App.audioInitialized (App.state st) = true /\
    App.audioEngineRef st = Some e /\ App.scheduler e = Some s /\
    Scheduler.tempo s = App.tempo (App.state st) /\
    store_of (App.handle (App.ClickStep Constants.KickId 0) st) = Some st' /\
    App.in_sync st'.
Proof.
  destruct initialised_app as (st & _ & Hr & Hai).
  destruct (@X23_app_mirrors_engine st Hr) as (Hmirror & Hsync & _).
  destruct (Hmirror Hai) as (e & s & He & Hs & _ & Ht & _).
  assert (Hoff : App.offered (App.ClickStep Constants.KickId 0) st = true).
  { pose proof (reachable_mirrored Hr) as (_ & Hg & _).
    destruct (Hg Constants.KickId) as [Hlen _].
    cbn [App.offered]. apply Nat.ltb_lt. rewrite Hlen. lia. }
  assert (Hrun : store_of (App.handle (App.ClickStep Constants.KickId 0) st)
                 = Some (App.with_pattern
                           (App.toggled (App.pattern (App.state st)) Constants.KickId
                              (Z.of_nat 0)) st)).
  { cbn [App.handle]. rewrite handleToggleStep_outcome. reflexivity. }
  destruct (Hsync _ _ Hoff Hrun) as (_ & Hedit).
  eexists st, _, e, s.
  split; [exact Hr |]. split; [exact Hai |]. split; [exact He |]. split; [exact Hs |].
  split; [exact Ht |]. split; [exact Hrun |].
  apply Hedit; [reflexivity | rewrite He; discriminate].
Defined.

(** X24.  What the interface offers never fails.  Every event the mounted component
    offers, other than the click that initialises audio, is handled without
    an exception and without hanging. *)
Theorem X24_offered_events_return (st : App.Store) (e : App.Event) :
  App.reachable st -> App.offered e st = true ->
  (forall env, e <> App.ClickInitAudio env) ->
  exists st', App.handle e st = Done tt st'.
Proof.
  intros Hr Hoff Hne. apply reachable_mirrored in Hr.
  destruct (handle_outcome e Hr Hoff) as (st' & _ & _ & _ & [H | (env & He & _)]).
  - exists st'. exact H.
  - exfalso. exact (Hne env He).
Qed.

Lemma X24_offered_events_return_witness :
  exists st st',
    App.reachable st /\ App.audioInitialized (App.state st) = true /\
    App.handle (App.ClickPlayStop 0) st = Done tt st'.
Proof.
  destruct initialised_app as (st & _ & Hr & Hai).
  destruct (@X24_offered_events_return st (App.ClickPlayStop 0) Hr Hai
              ltac:(intros env H; discriminate H)) as [st' Hrun].
  exists st, st'. repeat split; assumption.
Defined.

(** X25.  Initialising audio returns, waits or raises.  On a component without
    initialised audio, [initAudio] does one of three things.  Where the
    context runs, it gives the engine the pattern shown and sets
    [audioInitialized].  Where the context is suspended, it waits for
    [resume()], keeping the pattern of its render, with [audioInitialized]
    still false.  Where the host has no [AudioContext], its promise is
    rejected with a [TypeError], with [audioInitialized] still false.  In
    each case the pattern, the tempo and the selection are as before, the
    component is not playing, and the engine object exists for a later
    attempt.  A call that waits goes on when its [resume()] settles: if
    fulfilled, it gives the engine the pattern it kept and sets
    [audioInitialized], leaving the pattern shown alone; if rejected, its
    promise is rejected and neither the state nor the engine changes.  A
    [resume()] that never settles leaves the call waiting. *)
Theorem X25_initAudio_returns_waits_or_raises (env : AudioEngine.Env) (st : App.Store) :
  App.reachable st ->
  (App.audioInitialized (App.state st) = false ->
   exists st',
     (App.initAudio env st = Done tt st' /\
      App.audioInitialized (App.state st') = true /\ App.in_sync st' /\
      App.waiting st' = App.waiting st \/
      App.initAudio env st = Done tt st' /\
      App.audioInitialized (App.state st') = false /\
      App.waiting st' = App.waiting st ++ [App.pattern (App.state st)] \/
      App.initAudio env st = Raise TypeError st' /\
      App.audioInitialized (App.state st') = false /\
      App.waiting st' = App.waiting st /\ AudioEngine.has_AudioContext env = false) /\
     App.pattern (App.state st') = App.pattern (App.state st) /\
     App.tempo (App.state st') = App.tempo (App.state st) /\
     App.isPlaying (App.state st') = false /\
     App.selectedStep (App.state st') = App.selectedStep (App.state st) /\
     App.audioEngineRef st' <> None) /\
  (forall i, (i < length (App.waiting st))%nat ->
     exists p,
       nth_error (App.waiting st) i = Some p /\
       (exists st',
          App.initAudio_resumed i true st = Done tt st' /\
          App.audioInitialized (App.state st') = true /\
          App.engine_pattern st' = Some (Some (Constants.to_engine p)) /\
          App.pattern (App.state st') = App.pattern (App.state st) /\
          App.tempo (App.state st') = App.tempo (App.state st) /\
          App.isPlaying (App.state st') = App.isPlaying (App.state st) /\
          App.selectedStep (App.state st') = App.selectedStep (App.state st) /\
          App.waiting st' = firstn i (App.waiting st) ++ skipn (S i) (App.waiting st)) /\
       (exists st',
          App.initAudio_resumed i false st = Raise Rejected st' /\
          App.state st' = App.state st /\
          App.audioEngineRef st' = App.audioEngineRef st /\
          App.waiting st' = firstn i (App.waiting st) ++ skipn (S i) (App.waiting st))).
Proof.
  intros Hr. apply reachable_mirrored in Hr. split.
  - intros Hai.
    destruct (initAudio_outcome env Hr Hai)
      as (st' & _ & Hp & Ht & Hpl & _ & Hs & Hne & _ & Hrun).
    exists st'. split; [exact Hrun |]. split; [exact Hp |]. split; [exact Ht |].
    split; [| split; [exact Hs | exact Hne]].
    rewrite Hpl.
    destruct Hr as (_ & _ & _ & _ & He).
    destruct (App.audioEngineRef st) as [e |].
    + destruct He as ((_ & Hc) & _ & Hplay & Hsched & _). rewrite Hai in Hsched.
      cbn [App.engine_store AudioEngine.scheduler AudioEngine.world AudioEngine.engine] in Hc.
      rewrite Hsched in Hc. congruence.
    + apply He.
  - intros i Hi.
    destruct (initAudio_resumed_outcome true Hr Hi)
      as (p & e & st1 & Hnth & _ & _ & Hw1 & Hp1 & Ht1 & Hpl1 & _ & Hs1 & Hrun1 & Hai1 &
          e1 & He1 & Hpat1).
    destruct (initAudio_resumed_outcome false Hr Hi)
      as (p2 & e2 & st2 & _ & _ & _ & Hw2 & _ & _ & _ & _ & _ & Hrun2 & Hst2 & Href2).
    exists p. split; [exact Hnth |]. split.
    + exists st1. split; [exact Hrun1 |]. split; [exact Hai1 |].
      split; [unfold App.engine_pattern; rewrite He1; cbn [option_map]; rewrite Hpat1;
              reflexivity |].
      split; [exact Hp1 |]. split; [exact Ht1 |]. split; [exact Hpl1 |].
      split; [exact Hs1 | exact Hw1].
    + exists st2. split; [exact Hrun2 |]. split; [exact Hst2 |].
      split; [exact Href2 | exact Hw2].
Qed.

Lemma X25_initAudio_returns_waits_or_raises_witness :
  exists st1 st2,
    App.initAudio
      {| AudioEngine.has_AudioContext := true;
         AudioEngine.initial_state := WebAudio.Suspended;
         AudioEngine.hardware_rate := 44100;
         AudioEngine.resume := AudioEngine.Pending |}
      (App.mount (WebAudio.new_host (fun _ => 0) true) no_timers) = Done tt st1 /\
    App.audioInitialized (App.state st1) = false /\
    App.waiting st1 = [Constants.initialPattern] /\
    App.reachable st1 /\
    App.initAudio_resumed 0 true st1 = Done tt st2 /\
    App.audioInitialized (App.state st2) = true /\
    App.engine_pattern st2 = Some (Some (Constants.to_engine Constants.initialPattern)) /\
    App.waiting st2 = [].
Proof.
  destruct (@X25_initAudio_returns_waits_or_raises
              {| AudioEngine.has_AudioContext := true;
                 AudioEngine.initial_state := WebAudio.Suspended;
                 AudioEngine.hardware_rate := 44100;
                 AudioEngine.resume := AudioEngine.Pending |}
              (App.mount (WebAudio.new_host (fun _ => 0) true) no_timers)
              (App.reach_mount _ _)) as (Hcall & _).
  destruct (Hcall eq_refl) as (st1 & Hcases & _).
  assert (Hwaits :
            App.initAudio
              {| AudioEngine.has_AudioContext := true;
                 AudioEngine.initial_state := WebAudio.Suspended;
                 AudioEngine.hardware_rate := 44100;
                 AudioEngine.resume := AudioEngine.Pending |}
              (App.mount (WebAudio.new_host (fun _ => 0) true) no_timers) = Done tt st1 /\
            App.audioInitialized (App.state st1) = false /\
            App.waiting st1 = [Constants.initialPattern]).
  { destruct Hcases as [(Hrun & Hai1 & _) | [(Hrun & Hai1 & Hw1) | (_ & _ & _ & Hapi)]].
    - exfalso. vm_compute in Hrun. injection Hrun as <-. discriminate Hai1.
    - split; [exact Hrun |]. split; [exact Hai1 | exact Hw1].
    - discriminate Hapi. }
  destruct Hwaits as (Hrun1 & Hai1 & Hw1).
  assert (Hr1 : App.reachable st1).
  { refine (@App.reach_event _ st1
              (App.ClickInitAudio
                 {| AudioEngine.has_AudioContext := true;
                    AudioEngine.initial_state := WebAudio.Suspended;
                    AudioEngine.hardware_rate := 44100;
                    AudioEngine.resume := AudioEngine.Pending |})
              (App.reach_mount (WebAudio.new_host (fun _ => 0) true) no_timers)
              eq_refl _).
    cbn [App.handle]. rewrite Hrun1. reflexivity. }
  destruct (@X25_initAudio_returns_waits_or_raises
              {| AudioEngine.has_AudioContext := true;
                 AudioEngine.initial_state := WebAudio.Suspended;
                 AudioEngine.hardware_rate := 44100;
                 AudioEngine.resume := AudioEngine.Pending |} st1 Hr1) as (_ & Hgo).
  assert (Hi : (0 < length (App.waiting st1))%nat) by (rewrite Hw1; cbn [length]; lia).
  destruct (Hgo 0%nat Hi)
    as (p & Hnth & (st2 & Hrun2 & Hai2 & Hpat2 & _ & _ & _ & _ & Hw2) & _).
  rewrite Hw1 in Hnth. injection Hnth as <-.
  rewrite Hw1 in Hw2. cbn [firstn skipn app] in Hw2.
  exists st1, st2. repeat split; assumption.
Defined.

(** X26.  Unmounting releases the audio.  The cleanup of the component returns
    normally and leaves the state hooks alone; an engine, if there is one, is
    left not playing, with its context closed, its scheduler idle and
    without a timer, and the timer the scheduler held disarmed. *)
Theorem X26_unmount_releases_audio (st : App.Store) :
  App.reachable st ->
  exists st',
    App.unmount st = Done tt st' /\
    App.state st' = App.state st /\
    (App.audioEngineRef st = None -> st' = st) /\
    (forall e, App.audioEngineRef st = Some e ->
       exists e',
         App.audioEngineRef st' = Some e' /\
         AudioEngine.isPlaying (App.fields e') = false /\
         (forall c, AudioEngine.context (App.fields e) = Some c ->
            AudioEngine.context (App.fields e')
              = Some (WebAudio.set_state WebAudio.Closed c)) /\
         (forall s', App.scheduler e' = Some s' ->
            Scheduler.isPlaying s' = false /\ Scheduler.timerID s' = None) /\
         (forall s h, App.scheduler e = Some s -> Scheduler.timerID s = Some h ->
            armed h (App.timers st') = false)).
Proof.
  intros Hr. apply reachable_mirrored in Hr.
  destruct st as [s [e |] h tm wt].
  2: { exists {| App.state := s; App.audioEngineRef := None; App.host := h;
                 App.timers := tm; App.waiting := wt |}.
       split; [reflexivity |]. split; [reflexivity |]. split; [reflexivity |].
       intros e H. discriminate H. }
  set (st := {| App.state := s; App.audioEngineRef := Some e; App.host := h;
                App.timers := tm; App.waiting := wt |}) in *.
  destruct (destroy_closes (App.engine_store e st))
    as (r & Hrun & _ & _ & _ & Hplay & Hidle & Hclose & Htimer).
  exists (App.app_store r st). split.
  { unfold App.unmount. rewrite (@if_current_some _ st e eq_refl), Hrun. reflexivity. }
  split; [reflexivity |]. split; [intros H; discriminate H |].
  intros e1 [= <-]. eexists. split; [reflexivity |].
  cbn [App.fields App.scheduler App.app_store App.timers].
  cbn [App.engine_store AudioEngine.scheduler AudioEngine.world AudioEngine.engine]
    in Hplay, Hclose, Htimer.
  split.
  { rewrite Hplay. destruct Hr as (_ & _ & _ & _ & (_ & Hc) & _).
    cbn [App.engine_store AudioEngine.scheduler AudioEngine.world AudioEngine.engine] in Hc.
    destruct (App.scheduler e); [reflexivity | exact Hc]. }
  split; [exact Hclose |]. split; [exact Hidle |].
  intros s1 h1 Hs Hh. apply Htimer. rewrite Hs. cbn [option_map]. rewrite Hh. reflexivity.
Qed.

Lemma X26_unmount_releases_audio_witness :
  exists st st' e',
    App.reachable st /\ App.audioInitialized (App.state st) = true /\
    App.unmount st = Done tt st' /\
    App.audioEngineRef st' = Some e' /\
    AudioEngine.isPlaying (App.fields e') = false.
Proof.
  destruct initialised_app as (st & _ & Hr & Hai).
  destruct (@X26_unmount_releases_audio st Hr) as (st' & Hrun & _ & _ & Hsome).
  destruct (App.audioEngineRef st) as [e |] eqn:He.
  - destruct (Hsome e eq_refl) as (e' & He' & Hplay & _).
    exists st, st', e'. repeat split; assumption.
  - exfalso. apply reachable_mirrored in Hr.
    destruct Hr as (_ & _ & _ & _ & Hnone). rewrite He in Hnone.
    destruct Hnone as [Hnone _]. congruence.
Defined.

(** X27.  Preset names outside the menu.  [handlePresetChange] with the name of a
    preset loads a copy of the preset into the state and, if there is one,
    the engine.  With a name that [presets] only inherits from
    [Object.prototype] (such as [constructor] or [toString]) it raises a
    [TypeError] and changes nothing; with any other name it does nothing. *)
Theorem X27_preset_names_outside_the_menu (presetName : String.string) (st : App.Store) :
  match Constants.presets presetName with
  | Constants.Own p =>
      exists st',
        App.handlePresetChange presetName st = Done tt st' /\
        App.pattern (App.state st') = p /\
        (forall e', App.audioEngineRef st' = Some e' ->
           AudioEngine.pattern (App.fields e') = Some (Constants.to_engine p))
  | Constants.Inherited =>
      In presetName Constants.inherited_names /\
      App.handlePresetChange presetName st = Raise TypeError st
  | Constants.Undefined =>
      ~ In presetName Constants.inherited_names /\
      App.handlePresetChange presetName st = Done tt st
  end.
Proof.
  pose proof (handlePresetChange_outcome presetName st) as Hrun.
  destruct (Constants.presets presetName) as [p | |] eqn:Hp.
  - eexists. split; [exact Hrun |]. split.
    + destruct p; reflexivity.
    + destruct st as [s [e |] h tm wt]; intros e' H; [| discriminate H].
      injection H as <-. destruct p; reflexivity.
  - split; [| exact Hrun]. revert Hp. unfold Constants.presets.
    repeat match goal with
           | |- context [if String.eqb presetName ?k then Constants.Own _ else _] =>
               destruct (String.eqb presetName k); [intros H; discriminate H |]
           end.
    destruct (existsb _ _) eqn:E; [| intros H; discriminate H]. intros _.
    apply existsb_exists in E. destruct E as (k & Hin & Hk).
    apply String.eqb_eq in Hk. subst k. exact Hin.
  - split; [| exact Hrun]. revert Hp. unfold Constants.presets.
    repeat match goal with
           | |- context [if String.eqb presetName ?k then Constants.Own _ else _] =>
               destruct (String.eqb presetName k); [intros H; discriminate H |]
           end.
    destruct (existsb _ _) eqn:E; [intros H; discriminate H |]. intros _ Hin.
    assert (Ht : existsb (String.eqb presetName) Constants.inherited_names = true).
    { apply existsb_exists. exists presetName. split; [exact Hin | apply String.eqb_refl]. }
    congruence.
Qed.

(** X29.  A late [resume()] overwrites the pattern of the engine.  There is a
    history after which audio is initialised and the engine holds a pattern
    other than the one shown: the component is mounted on a host whose
    [AudioContext] starts suspended, the user clicks to initialise audio, so
    that [initAudio] waits for [resume()], then clicks the first cell of the
    kick row, and then [resume()] is fulfilled.  The call that waited gives
    the engine the pattern of the render it was made in, which has the cell
    clear, while the component shows it set. *)
Theorem X29_late_resume_overwrites_pattern :
  exists st,
    App.reachable st /\
    App.audioInitialized (App.state st) = true /\
    App.pattern (App.state st)
      = Constants.toggleStep Constants.initialPattern Constants.KickId 0 /\
    App.engine_pattern st = Some (Some (Constants.to_engine Constants.initialPattern)) /\
    ~ App.in_sync st.
Proof.
  assert (H : exists st1 st2 st3,
             store_of (App.handle
                         (App.ClickInitAudio
                            {| AudioEngine.has_AudioContext := true;
                               AudioEngine.initial_state := WebAudio.Suspended;
                               AudioEngine.hardware_rate := 44100;
                               AudioEngine.resume := AudioEngine.Fulfilled |})
                         (App.mount (WebAudio.new_host (fun _ => 0) true) no_timers))
             = Some st1 /\
             App.offered (App.ClickStep Constants.KickId 0) st1 = true /\
             store_of (App.handle (App.ClickStep Constants.KickId 0) st1) = Some st2 /\
             (0 < length (App.waiting st2))%nat /\
             store_of (App.initAudio_resumed 0 true st2) = Some st3 /\
             App.audioInitialized (App.state st3) = true /\
             App.pattern (App.state st3)
               = Constants.toggleStep Constants.initialPattern Constants.KickId 0 /\
             App.engine_pattern st3
               = Some (Some (Constants.to_engine Constants.initialPattern))).
  { do 3 eexists.
    split; [vm_compute; reflexivity |].
    split; [vm_compute; reflexivity |].
    split; [vm_compute; reflexivity |].
    split; [vm_compute; lia |].
    split; [vm_compute; reflexivity |].
    split; [vm_compute; reflexivity |].
    split; vm_compute; reflexivity. }
  destruct H as (st1 & st2 & st3 & H1 & Hoff & H2 & Hi & H3 & Hai & Hpat & Hep).
  exists st3. split.
  { apply (@App.reach_resumed st2 st3 0 true); [| exact Hi | exact H3].
    apply (@App.reach_event st1 st2 (App.ClickStep Constants.KickId 0)); [| exact Hoff | exact H2].
    exact (@App.reach_event _ st1
             (App.ClickInitAudio
                {| AudioEngine.has_AudioContext := true;
                   AudioEngine.initial_state := WebAudio.Suspended;
                   AudioEngine.hardware_rate := 44100;
                   AudioEngine.resume := AudioEngine.Fulfilled |})
             (App.reach_mount (WebAudio.new_host (fun _ => 0) true) no_timers) eq_refl H1). }
  split; [exact Hai |]. split; [exact Hpat |]. split; [exact Hep |].
  unfold App.in_sync. rewrite Hep, Hpat. intros H. vm_compute in H. discriminate H.
Qed.

Section Keyboard.

Import String.StringSyntax.
Local Open Scope string_scope.
Local Open Scope list_scope.
Local Open Scope Q_scope.

Lemma with_pattern_engine (p : Constants.Pattern) (st : App.Store) (e' : App.EngineObject) :
  App.audioEngineRef (App.with_pattern p st) = Some e' ->
  AudioEngine.pattern (App.fields e') = Some (Constants.to_engine p).
Proof.
  destruct st as [s [e |] h tm wt]; intros H; [| discriminate H].
  injection H as <-. reflexivity.
Qed.

(** X28.  Enter toggles the selected cell.  For a key event outside inputs and
    selects, in any reachable state, the Enter key finds the track of the
    selected row, returns normally, and makes the pattern [toggleStep] of
    the old one at that track and the selected column; the engine, if there
    is one, gets the same pattern, and the selection stays where it is. *)
Theorem X28_enter_toggles_selected_cell (st : App.Store) (tagName : String.string) (now : Q) :
  App.reachable st -> tagName <> "INPUT" -> tagName <> "SELECT" ->
  exists info st',
    nth_error Constants.tracks (Z.to_nat (App.row (App.selectedStep (App.state st))))
      = Some info /\
    App.handleKeyDown tagName "Enter" now st = Done tt st' /\
    App.pattern (App.state st')
      = Constants.toggleStep (App.pattern (App.state st)) (Constants.id info)
          (Z.to_nat (App.col (App.selectedStep (App.state st)))) /\
    (forall e', App.audioEngineRef st' = Some e' ->
       AudioEngine.pattern (App.fields e')
         = Some (Constants.to_engine (App.pattern (App.state st')))) /\
    App.selectedStep (App.state st') = App.selectedStep (App.state st).
Proof.
  intros Hr Hin Hsel. apply reachable_mirrored in Hr.
  destruct Hr as ([Hrow Hcol] & _).
  destruct (track_at_row Hrow) as [info Hinfo].
  exists info. eexists. split.
  { revert Hinfo. unfold App.track_at.
    destruct (App.row (App.selectedStep (App.state st)) <? 0)%Z eqn:E;
      [apply Z.ltb_lt in E; lia | intros H; exact H]. }
  apply String.eqb_neq in Hin, Hsel.
  unfold App.handleKeyDown. rewrite Hin, Hsel.
  cbn [orb String.eqb Ascii.eqb Bool.eqb andb].
  unfold bind at 1, App.the, gets.
  rewrite Hinfo, handleToggleStep_outcome.
  split; [reflexivity |].
  assert (Htog : App.toggled (App.pattern (App.state st)) (Constants.id info)
                   (App.col (App.selectedStep (App.state st)))
                 = Constants.toggleStep (App.pattern (App.state st)) (Constants.id info)
                     (Z.to_nat (App.col (App.selectedStep (App.state st))))).
  { unfold App.toggled.
    destruct (App.col (App.selectedStep (App.state st)) <? 0)%Z eqn:E;
      [apply Z.ltb_lt in E; lia | reflexivity]. }
  rewrite Htog.
  split; [reflexivity |]. split; [| reflexivity].
  intros e' He'. apply (with_pattern_engine _ _ He').
Qed.

Lemma X28_enter_toggles_selected_cell_witness :
  exists st',
    App.handleKeyDown "BODY" "Enter" 0
      (App.mount (WebAudio.new_host (fun _ => 0) true) no_timers) = Done tt st' /\
    App.pattern (App.state st')
      = Constants.toggleStep Constants.initialPattern Constants.KickId 0.
Proof.
  destruct (@X28_enter_toggles_selected_cell
              (App.mount (WebAudio.new_host (fun _ => 0) true) no_timers) "BODY" 0
              (App.reach_mount _ _)
              ltac:(intros H; discriminate H) ltac:(intros H; discriminate H))
    as (info & st' & Hinfo & Hrun & Hpat & _).
  exists st'. split; [exact Hrun |].
  rewrite Hpat. cbn in Hinfo. injection Hinfo as <-. reflexivity.
Defined.

End Keyboard.
